(** * Tuoshan: terrain height field, ripple pool and flight controller

    A shallow embedding of the algorithmic core of the scene:

    - [getHeight] and [pseudoNoise] (utils/math, the height field sampled by
      the terrain mesh and by the parrot's collision step);
    - the splash pool of [CinematicParrot]: [spawnRipple] and the
      "Update Ripples" loop of the frame callback;
    - the frame callback of [CinematicParrot] itself, [useFrame]: splash
      trigger, behaviour state machine, seek steering, integration and
      terrain collision.

    JavaScript numbers are modelled as real numbers: [Math.sin], [Math.cos],
    [Math.sqrt], [Math.abs], [Math.min], [Math.max] are the functions of the
    standard library of reals, and rounding, infinities and NaN are left out.
    The three.js vector operations used by the component are written out in
    [Vector3] from their library definitions.

    The height field is also written as a JavaScript computation, in a
    state monad over the random stream, the clock and the heap ([Js]), to
    state that it has no effect and depends on nothing but its arguments.

    The second part of the definitions is an interval arithmetic on
    fixed-point numbers with enclosures of the height field and of the frame
    callback; it is used to follow the runs of the callback from the initial
    actor, at several frame rates, twice round the behaviour cycle.

    The third part covers the rest of the scene: the tree instances
    (Trees.tsx), the water surface (Terrain.tsx), the clouds (Clouds.tsx),
    the forest fire (ForestFire.tsx), the camera rig (Scene.tsx) and the
    camera mode button (App.tsx). Where a function calls [Math.random()],
    the values it gets are a parameter of the model; the orbit controls of
    the camera rig are the library's and a parameter too. *)

From Bignums Require Import BigZ.
From Stdlib Require Import Reals Lra Lia List Bool ZArith.
Import ListNotations.

Open Scope R_scope.

(** ** Number comparisons as booleans *)

Definition ltb (a b : R) : bool := if Rlt_dec a b then true else false.
Definition leb (a b : R) : bool := if Rle_dec a b then true else false.
Definition gtb (a b : R) : bool := ltb b a.

(** [v || 1] on a length: the length itself unless it is zero. *)
Definition orOne (l : R) : R := if Req_dec_T l 0 then 1 else l.

(** [THREE.MathUtils.lerp]. *)
Definition lerp (x y t : R) : R := (1 - t) * x + t * y.

(** ** three.js vectors *)

Module Vector3.

Record t : Type := mk { x : R; y : R; z : R }.

Definition set (_ : t) (x0 y0 z0 : R) : t := mk x0 y0 z0.
Definition setY (v : t) (y0 : R) : t := mk (x v) y0 (z v).
Definition add (a b : t) : t := mk (x a + x b) (y a + y b) (z a + z b).
Definition sub (a b : t) : t := mk (x a - x b) (y a - y b) (z a - z b).
Definition subVectors (a b : t) : t := sub a b.
Definition multiplyScalar (v : t) (s : R) : t := mk (x v * s) (y v * s) (z v * s).
Definition divideScalar (v : t) (s : R) : t := multiplyScalar v (1 / s).
Definition lengthSq (v : t) : R := x v * x v + y v * y v + z v * z v.
Definition length (v : t) : R := sqrt (lengthSq v).
Definition distanceToSquared (a b : t) : R :=
  let dx := x a - x b in
  let dy := y a - y b in
  let dz := z a - z b in
  dx * dx + dy * dy + dz * dz.
Definition distanceTo (a b : t) : R := sqrt (distanceToSquared a b).
Definition normalize (v : t) : t := divideScalar v (orOne (length v)).
Definition setLength (v : t) (l : R) : t := multiplyScalar (normalize v) l.
Definition crossVectors (a b : t) : t :=
  mk (y a * z b - z a * y b) (z a * x b - x a * z b) (x a * y b - y a * x b).

End Vector3.

Module Vector2.

Record t : Type := mk { x : R; y : R }.

Definition distanceTo (a b : t) : R :=
  let dx := x a - x b in
  let dy := y a - y b in
  sqrt (dx * dx + dy * dy).

End Vector2.

(** ** Height field (utils/math) *)

Definition pseudoNoise (x z : R) : R :=
  let sinX := sin (x * 0.05) in
  let cosZ := cos (z * 0.05) in
  let sinX2 := sin (x * 0.15 + 100) in
  let cosZ2 := cos (z * 0.15 + 100) in
  (sinX * cosZ) + (sinX2 * cosZ2) * 0.5.

(** The rolling-hill term the elevation starts from. *)
Definition baseTerrain (x z : R) : R := pseudoNoise x z * 6 + 12.

Definition mountainCenterX : R := 250.
Definition mountainCenterZ : R := -120.
Definition mountainRadius : R := 160.
Definition warpFreq : R := 0.04.
Definition warpAmp : R := 40.
Definition mountainHeight : R := 140.
Definition lakeCenterX : R := -200.
Definition lakeCenterZ : R := 80.
Definition lakeRadiusX : R := 200.
Definition lakeRadiusZ : R := 140.

(** Distance of the warped sampling point from the mountain centre. *)
Definition distFromMountain (x z : R) : R :=
  let warpX := sin (x * warpFreq) * warpAmp + cos (z * warpFreq * 0.7) * warpAmp * 0.5 in
  let warpZ := cos (z * warpFreq * 0.8) * warpAmp + sin (x * warpFreq * 0.5) * warpAmp * 0.5 in
  let dx := (x - warpX) - mountainCenterX in
  let dz := (z - warpZ) - mountainCenterZ in
  sqrt (dx * dx + dz * dz).

(** What the mountain block adds to the elevation of a point inside it. *)
Definition mountainRise (x z d : R) : R :=
  let normalizedDist := d / mountainRadius in
  let shape := 0.5 + 0.5 * cos (normalizedDist * PI) in
  let mountainY := shape * mountainHeight in
  let roughness :=
    (pseudoNoise (x * 0.15) (z * 0.15) * 15
     + Rabs (sin (x * 0.05) * cos (z * 0.05)) * 20) * shape in
  mountainY + roughness.

(** Normalised elliptical distance of the distorted point from the lake. *)
Definition lakeDist (x z : R) : R :=
  let distortionX := sin (z * 0.1) * 15 in
  let distortionZ := cos (x * 0.1) * 15 in
  let lx := (x - lakeCenterX) + distortionX in
  let lz := (z - lakeCenterZ) + distortionZ in
  sqrt ((lx * lx) / (lakeRadiusX * lakeRadiusX) + (lz * lz) / (lakeRadiusZ * lakeRadiusZ)).

Definition getHeight (x z : R) : R :=
  let y := baseTerrain x z in
  let y := y + sin (x * 0.5) * cos (z * 0.5) * 1.0 in
  let d := distFromMountain x z in
  let y := if ltb d mountainRadius then y + mountainRise x z d else y in
  let dist := lakeDist x z in
  let y := if ltb dist 1.0 then y - (1.0 - dist) ^ 2 * 45 else y in
  if ltb y (-12) then -12 else y.

(** ** Ripple pool *)

Module RIPPLE_CONFIG.
Definition MAX_COUNT : nat := 5.
Definition WAVES_PER_SPLASH : nat := 1.
Definition INNER_RADIUS : R := 0.3.
Definition OUTER_RADIUS : R := 0.32.
Definition ENTRY_SCALE : R := 1.2.
Definition SKIM_SCALE : R := 0.4.
Definition EXPANSION_SPEED : R := 25.
Definition LIFE_DURATION : R := 2.0.
Definition FADE_SPEED : R := 1.0.
Definition BASE_OPACITY : R := 0.1.
End RIPPLE_CONFIG.

Record Ripple : Type := mkRipple {
  pos : Vector3.t;
  scale : R;
  life : R;
  maxLife : R;
  active : bool
}.

Definition freshRipple : Ripple :=
  mkRipple (Vector3.mk 0 0 0) 0 0 0 false.

(** The pool as the component builds it: [MAX_COUNT] inactive entries. *)
Definition initialPool : list Ripple := repeat freshRipple RIPPLE_CONFIG.MAX_COUNT.

(** [Array.prototype.find], by position: the index of the first entry that
    satisfies the predicate. *)
Fixpoint findIndex (f : Ripple -> bool) (l : list Ripple) : option nat :=
  match l with
  | [] => None
  | p :: rest =>
      if f p then Some O
      else match findIndex f rest with
           | Some k => Some (S k)
           | None => None
           end
  end.

(** In-place update of the entry at one index. *)
Fixpoint updateAt (k : nat) (g : Ripple -> Ripple) (l : list Ripple) : list Ripple :=
  match l, k with
  | [], _ => []
  | p :: rest, O => g p :: rest
  | p :: rest, S k' => p :: updateAt k' g rest
  end.

(** The writes of one pass of the loop of [spawnRipple] on the entry found. *)
Definition activate (i : nat) (x z initialScale : R) (p : Ripple) : Ripple :=
  let p := mkRipple (pos p) (scale p) (life p) (maxLife p) true in
  let p := mkRipple (Vector3.set (pos p) x (-1.9) z) (scale p) (life p) (maxLife p) (active p) in
  let p := mkRipple (pos p) (initialScale * (0.8 + INR i * 0.2)) (life p) (maxLife p) (active p) in
  let p := mkRipple (pos p) (scale p) (life p) (RIPPLE_CONFIG.LIFE_DURATION + INR i * 0.5) (active p) in
  mkRipple (pos p) (scale p) (maxLife p) (maxLife p) (active p).

Definition spawnWave (x z initialScale : R) (pool : list Ripple) (i : nat) : list Ripple :=
  match findIndex (fun d => negb (active d)) pool with
  | Some k => updateAt k (activate i x z initialScale) pool
  | None => pool
  end.

Definition spawnRipple (x z initialScale : R) (pool : list Ripple) : list Ripple :=
  fold_left (spawnWave x z initialScale) (seq 0 RIPPLE_CONFIG.WAVES_PER_SPLASH) pool.

(** One instance of the instanced ring mesh: its matrix ([None] for the zero
    matrix, otherwise the decal's position and scale) and its colour. *)
Record Instance : Type := mkInstance {
  matrix : option (Vector3.t * R);
  brightness : R
}.

(** The body of the "Update Ripples" loop for one entry and its instance. *)
Definition ageRipple (dt : R) (p : Ripple) (m : Instance) : Ripple * Instance :=
  if active p then
    let p := mkRipple (pos p) (scale p) (life p - dt * RIPPLE_CONFIG.FADE_SPEED) (maxLife p) (active p) in
    let p := mkRipple (pos p) (scale p + dt * RIPPLE_CONFIG.EXPANSION_SPEED) (life p) (maxLife p) (active p) in
    if leb (life p) 0 then
      (mkRipple (pos p) 0 (life p) (maxLife p) false, mkInstance None (brightness m))
    else
      (p, mkInstance (Some (pos p, scale p))
            (Rmax 0 (life p / maxLife p) * RIPPLE_CONFIG.BASE_OPACITY))
  else (p, mkInstance None (brightness m)).

(** The pool half of the loop: what it does to the entries. *)
Definition tickRipple (dt : R) (p : Ripple) : Ripple :=
  fst (ageRipple dt p (mkInstance None 0)).

Fixpoint updateRipples (dt : R) (pool : list Ripple) (mesh : list Instance)
  : list Ripple * list Instance :=
  match pool, mesh with
  | p :: pool', m :: mesh' =>
      let '(p', m') := ageRipple dt p m in
      let '(ps, ms) := updateRipples dt pool' mesh' in
      (p' :: ps, m' :: ms)
  | p :: pool', [] =>
      let '(ps, ms) := updateRipples dt pool' [] in
      (tickRipple dt p :: ps, ms)
  | [], _ => ([], mesh)
  end.

(** The opacity an active entry is drawn with. *)
Definition opacity (p : Ripple) : R :=
  Rmax 0 (life p / maxLife p) * RIPPLE_CONFIG.BASE_OPACITY.

Definition activeCount (pool : list Ripple) : nat :=
  List.length (filter active pool).

(** The pool states the component can be in: the initial pool, and whatever
    spawns and update passes make of it. *)
Inductive reachablePool : list Ripple -> Prop :=
| reach_init : reachablePool initialPool
| reach_spawn x z s pool :
    reachablePool pool -> reachablePool (spawnRipple x z s pool)
| reach_tick dt pool :
    reachablePool pool -> reachablePool (map (tickRipple dt) pool).

(** ** Flight controller (Birds.tsx, [CinematicParrot]) *)

Definition LAKE_CENTER : Vector3.t := Vector3.mk (-200) (-2) 80.
Definition MOUNTAIN_FIRE_CENTER : Vector3.t := Vector3.mk 180 90 (-60).

Inductive BirdState : Type :=
| CINEMATIC_ENTRY
| APPROACH_LAKE
| DIVE_LAKE
| SKIM
| CLIMB_MOUNTAIN
| DIVE_BOMB
| PULL_UP.

Definition BirdState_eqb (s1 s2 : BirdState) : bool :=
  match s1, s2 with
  | CINEMATIC_ENTRY, CINEMATIC_ENTRY
  | APPROACH_LAKE, APPROACH_LAKE
  | DIVE_LAKE, DIVE_LAKE
  | SKIM, SKIM
  | CLIMB_MOUNTAIN, CLIMB_MOUNTAIN
  | DIVE_BOMB, DIVE_BOMB
  | PULL_UP, PULL_UP => true
  | _, _ => false
  end.

(** The refs of the component that the frame callback reads and writes. *)
Record Actor : Type := mkActor {
  state : BirdState;
  velocity : Vector3.t;
  position : Vector3.t;
  prevY : R;
  target : Vector3.t;
  lastSplashTime : R;
  rippleData : list Ripple
}.

Definition initialActor : Actor :=
  mkActor CINEMATIC_ENTRY (Vector3.mk 0 0 0) (Vector3.mk (-200) 100 100) 210
          (Vector3.mk 0 0 0) 0 initialPool.

(** The group the parrot model hangs from: where it was put, what it was
    turned towards and the roll applied after that. *)
Record Group : Type := mkGroup {
  groupPosition : Vector3.t;
  lookTarget : Vector3.t;
  bankAngle : R
}.

(** The scene objects the callback reaches through refs; each is absent
    until mounted (or, for the animation clip, loaded). [action] is the
    effective time scale of the wing-beat clip. *)
Record View : Type := mkView {
  groupRef : option Group;
  ripplesRef : option (list Instance);
  action : option R
}.

(** What the host passes to one call of the frame callback: the frame's
    delta, the elapsed clock time, and the value [Math.random()] returns if
    the callback asks for it. *)
Record Frame : Type := mkFrame {
  delta : R;
  clock : R;
  random : R
}.

Definition skimStart : Vector3.t :=
  Vector3.mk (Vector3.x LAKE_CENTER + 20) (-2) (Vector3.z LAKE_CENTER - 10).
Definition skimEnd : Vector3.t :=
  Vector3.mk (Vector3.x LAKE_CENTER + 75) (-2) (Vector3.z LAKE_CENTER - 30).
Definition waterLevel : R := -2.0.

(** *** Ripple trigger *)

Definition distToEntry (currentPos : Vector3.t) : R :=
  sqrt ((Vector3.x currentPos - Vector3.x skimStart) ^ 2
        + (Vector3.z currentPos - Vector3.z skimStart) ^ 2).

Definition rippleTriggerFires (currentState : BirdState) (currentPos : Vector3.t)
    (time last : R) : bool :=
  BirdState_eqb currentState DIVE_LAKE
  && ltb (distToEntry currentPos) 25
  && ltb (Vector3.y currentPos) (-1.5)
  && gtb (time - last) 2.0.

(** Returns the pool and [lastSplashTime] after the trigger. *)
Definition rippleTrigger (currentState : BirdState) (currentPos : Vector3.t)
    (time : R) (last : R) (pool : list Ripple) : R * list Ripple :=
  if rippleTriggerFires currentState currentPos time last then
    (time,
     spawnRipple (Vector3.x currentPos) (Vector3.z currentPos) RIPPLE_CONFIG.ENTRY_SCALE pool)
  else (last, pool).

(** *** State machine *)

(** What the state machine block leaves behind for the rest of the frame. *)
Record Decision : Type := mkDecision {
  nextState : BirdState;
  nextTarget : Vector3.t;
  desiredSpeed : R;
  turnSpeed : R;
  flapSpeed : R;
  nextLast : R;
  nextPool : list Ripple
}.

Definition stateMachine (currentState : BirdState) (currentPos : Vector3.t)
    (oldTarget : Vector3.t) (time rnd : R) (last : R) (pool : list Ripple) : Decision :=
  match currentState with
  | CINEMATIC_ENTRY =>
      let tgt := Vector3.set oldTarget (Vector3.x MOUNTAIN_FIRE_CENTER) 140 (Vector3.z MOUNTAIN_FIRE_CENTER) in
      mkDecision
        (if ltb (Vector3.distanceTo currentPos tgt) 80 then DIVE_BOMB else currentState)
        tgt 100 2.0 3.0 last pool
  | APPROACH_LAKE =>
      let tgt := Vector3.set oldTarget (Vector3.x skimStart) 60 (Vector3.z skimStart) in
      mkDecision
        (if ltb (Vector3.distanceTo currentPos tgt) 80 then DIVE_LAKE else currentState)
        tgt 40 2.0 1.5 last pool
  | DIVE_LAKE =>
      let tgt := Vector3.set oldTarget (Vector3.x skimStart) (-3.0) (Vector3.z skimStart) in
      if leb (Vector3.y currentPos) (-1.5) || ltb (Vector3.distanceTo currentPos tgt) 20 then
        if gtb (time - last) 2.0 then
          mkDecision SKIM tgt 90 3.0 1.5 time
            (spawnRipple (Vector3.x currentPos) (Vector3.z currentPos) RIPPLE_CONFIG.ENTRY_SCALE pool)
        else mkDecision SKIM tgt 90 3.0 1.5 last pool
      else mkDecision currentState tgt 90 3.0 1.5 last pool
  | SKIM =>
      let tgt := skimEnd in
      let oscillation := sin (time * 15) * 0.6 in
      let tgt := Vector3.setY tgt (-1.2 + oscillation) in
      let pool :=
        if gtb rnd 0.85 then
          spawnRipple (Vector3.x currentPos) (Vector3.z currentPos) RIPPLE_CONFIG.SKIM_SCALE pool
        else pool in
      let distToTarget :=
        Vector2.distanceTo (Vector2.mk (Vector3.x currentPos) (Vector3.z currentPos))
                           (Vector2.mk (Vector3.x tgt) (Vector3.z tgt)) in
      mkDecision
        (if ltb distToTarget 20 then CLIMB_MOUNTAIN else currentState)
        tgt 70 2.0 4.0 last pool
  | CLIMB_MOUNTAIN =>
      let tgt := Vector3.set oldTarget (Vector3.x MOUNTAIN_FIRE_CENTER - 100) 200
                             (Vector3.z MOUNTAIN_FIRE_CENTER + 50) in
      mkDecision
        (if ltb (Vector3.distanceTo currentPos tgt) 60 then DIVE_BOMB else currentState)
        tgt 60 2.0 1.5 last pool
  | DIVE_BOMB =>
      let tgt := MOUNTAIN_FIRE_CENTER in
      let tgt := Vector3.setY tgt 80 in
      mkDecision
        (if ltb (Vector3.distanceTo currentPos tgt) 60 then PULL_UP else currentState)
        tgt 90 2.0 0.5 last pool
  | PULL_UP =>
      let tgt := Vector3.set oldTarget (Vector3.x MOUNTAIN_FIRE_CENTER) 250
                             (Vector3.z MOUNTAIN_FIRE_CENTER - 100) in
      mkDecision
        (if gtb (Vector3.y currentPos) 200 then APPROACH_LAKE else currentState)
        tgt 60 2.0 2.5 last pool
  end.

(** *** Steering and integration *)

Definition steerVelocity (tgt currentPos currentVel : Vector3.t)
    (desiredSpeed turnSpeed dt : R) : Vector3.t :=
  let desiredDir := Vector3.normalize (Vector3.subVectors tgt currentPos) in
  let steer := Vector3.sub (Vector3.multiplyScalar desiredDir desiredSpeed) currentVel in
  let currentVel := Vector3.add currentVel (Vector3.multiplyScalar steer (turnSpeed * dt)) in
  if gtb (Vector3.length currentVel) desiredSpeed then
    Vector3.setLength currentVel desiredSpeed
  else currentVel.

Definition integrate (currentPos currentVel : Vector3.t) (dt : R) : Vector3.t :=
  Vector3.add currentPos (Vector3.multiplyScalar currentVel dt).

(** *** Terrain collision *)

Definition safeAltitude (currentState : BirdState) (terrainHeight : R) : R :=
  let safeAltitude := terrainHeight + 2.0 in
  if ltb terrainHeight waterLevel then
    match currentState with
    | SKIM | DIVE_LAKE => waterLevel - 0.5
    | _ => waterLevel + 2.0
    end
  else
    match currentState with
    | SKIM => terrainHeight + 5.0
    | _ => safeAltitude
    end.

(** The height the collision step samples for a position. *)
Definition terrainHeightAt (currentPos : Vector3.t) : R :=
  getHeight (Vector3.x currentPos) (Vector3.z currentPos).

(** Returns the position and the velocity after the collision step. *)
Definition terrainCollision (currentState : BirdState) (currentPos currentVel : Vector3.t)
    (dt : R) : Vector3.t * Vector3.t :=
  let terrainHeight := terrainHeightAt currentPos in
  let safe := safeAltitude currentState terrainHeight in
  if ltb (Vector3.y currentPos) safe then
    let currentPos := Vector3.setY currentPos (lerp (Vector3.y currentPos) safe (dt * 10)) in
    let currentVel :=
      if ltb (Vector3.y currentVel) 0
      then Vector3.setY currentVel (Vector3.y currentVel * 0.5)
      else currentVel in
    (currentPos, currentVel)
  else (currentPos, currentVel).

(** *** Visual updates *)

Definition bankOf (currentVel : Vector3.t) : R :=
  let up := Vector3.mk 0 1 0 in
  let right := Vector3.mk 1 0 0 in
  let right :=
    if gtb (Vector3.lengthSq currentVel) 0.1
    then Vector3.normalize (Vector3.crossVectors (Vector3.normalize currentVel) up)
    else right in
  - Vector3.y right * 1.5.

(** *** The frame callback *)

Definition useFrame (f : Frame) (v : View) (a : Actor) : View * Actor :=
  match groupRef v with
  | None => (v, a)
  | Some _ =>
      let dt := Rmin (delta f) 0.1 in
      let time := clock f in
      let currentPos := position a in
      let currentVel := velocity a in
      let currentState := state a in
      let '(last, pool) :=
        rippleTrigger currentState currentPos time (lastSplashTime a) (rippleData a) in
      let d := stateMachine currentState currentPos (target a) time (random f) last pool in
      let action' :=
        match action v with
        | Some currentScale => Some (lerp currentScale (flapSpeed d) (dt * 5))
        | None => None
        end in
      let currentVel :=
        steerVelocity (nextTarget d) currentPos currentVel (desiredSpeed d) (turnSpeed d) dt in
      let currentPos := integrate currentPos currentVel dt in
      let '(currentPos, currentVel) := terrainCollision currentState currentPos currentVel dt in
      let group' :=
        mkGroup currentPos (Vector3.add currentPos currentVel) (bankOf currentVel) in
      let '(pool', mesh') :=
        match ripplesRef v with
        | Some mesh =>
            let '(ps, ms) := updateRipples dt (nextPool d) mesh in (ps, Some ms)
        | None => (nextPool d, None)
        end in
      (mkView (Some group') mesh' action',
       mkActor (nextState d) currentVel currentPos (Vector3.y currentPos)
               (nextTarget d) (nextLast d) pool')
  end.

(** A run of the callback over the frames the host delivers. *)
Fixpoint runFrames (fs : list Frame) (v : View) (a : Actor) : View * Actor :=
  match fs with
  | [] => (v, a)
  | f :: fs' => let '(v', a') := useFrame f v a in runFrames fs' v' a'
  end.

(** The edges of the behaviour table. *)
Definition edge (s1 s2 : BirdState) : bool :=
  match s1, s2 with
  | CINEMATIC_ENTRY, DIVE_BOMB
  | APPROACH_LAKE, DIVE_LAKE
  | DIVE_LAKE, SKIM
  | SKIM, CLIMB_MOUNTAIN
  | CLIMB_MOUNTAIN, DIVE_BOMB
  | DIVE_BOMB, PULL_UP
  | PULL_UP, APPROACH_LAKE => true
  | _, _ => false
  end.

(** A burst of spawn requests, each with its coordinates and initial scale,
    with no update pass between them. *)
Definition spawnMany (reqs : list (R * R * R)) (pool : list Ripple) : list Ripple :=
  fold_left (fun pool '(x, z, s) => spawnRipple x z s pool) reqs pool.

(** Update passes in a row, one per time step, with no spawn between them. *)
Definition tickMany (dts : list R) (pool : list Ripple) : list Ripple :=
  fold_left (fun pool dt => map (tickRipple dt) pool) dts pool.

(** [k] is the index of the first inactive entry of the pool. *)
Definition firstInactive (pool : list Ripple) (k : nat) : Prop :=
  (exists p, nth_error pool k = Some p /\ active p = false)
  /\ forall j q, (j < k)%nat -> nth_error pool j = Some q -> active q = true.

(** *** Stages of one frame, by name *)

(** What the ripple trigger and the state machine decide in a frame. *)
Definition frameDecision (f : Frame) (a : Actor) : Decision :=
  let '(last, pool) :=
    rippleTrigger (state a) (position a) (clock f) (lastSplashTime a) (rippleData a) in
  stateMachine (state a) (position a) (target a) (clock f) (random f) last pool.

(** The pool as the spawn sites of a frame leave it, before the update pass. *)
Definition framePool (f : Frame) (a : Actor) : list Ripple := nextPool (frameDecision f a).

(** The time step a frame is run with. *)
Definition frameDt (f : Frame) : R := Rmin (delta f) 0.1.

(** The velocity after steering and the position after integration, before
    the terrain collision step looks at them. *)
Definition steeredVelocity (f : Frame) (a : Actor) : Vector3.t :=
  let d := frameDecision f a in
  steerVelocity (nextTarget d) (position a) (velocity a) (desiredSpeed d) (turnSpeed d)
                (frameDt f).

Definition integratedPosition (f : Frame) (a : Actor) : Vector3.t :=
  integrate (position a) (steeredVelocity f a) (frameDt f).

(** The exit test of the [DIVE_LAKE] branch. *)
Definition diveLakeExit (currentPos : Vector3.t) : bool :=
  leb (Vector3.y currentPos) (-1.5)
  || ltb (Vector3.distanceTo currentPos
            (Vector3.mk (Vector3.x skimStart) (-3.0) (Vector3.z skimStart))) 20.

(** Whether a frame started in [DIVE_LAKE] calls [spawnRipple]: the trigger
    fires, or the exit test holds with the cooldown over. *)
Definition diveLakeSplash (f : Frame) (a : Actor) : bool :=
  BirdState_eqb (state a) DIVE_LAKE
  && (rippleTriggerFires (state a) (position a) (clock f) (lastSplashTime a)
      || (diveLakeExit (position a) && gtb (clock f - lastSplashTime a) 2.0)).

(** ** The height field as a JavaScript computation

    The definitions of the height field above give its value as a function
    of the two arguments. Whether the source functions are such functions
    is a property of their code: a JavaScript function can call
    [Math.random()], read a clock, and read or write variables and object
    fields outside itself. Here the two functions of utils/math and the two
    calls that sample the height are written call by call in a state monad
    over what a function can observe and change beyond its arguments. *)

Module Js.

(** The values [Math.random()] is going to return and how many of them it
    has returned; the clock; the variables and fields that outlive a
    call. *)
Record World : Type := mkWorld {
  randoms : nat -> R;
  drawn : nat;
  now : R;
  heap : nat -> R
}.

Definition M (A : Type) : Type := World -> A * World.

Definition ret {A : Type} (a : A) : M A := fun w => (a, w).

Definition bind {A B : Type} (m : M A) (f : A -> M B) : M B :=
  fun w => let (a, w') := m w in f a w'.

Notation "x <- m ;; k" := (bind m (fun x => k))
  (at level 61, m at next level, right associativity).

(** Calls with an effect: [Math.random()], and a write to a variable or
    field. *)
Definition Math_random : M R :=
  fun w => (randoms w (drawn w), mkWorld (randoms w) (S (drawn w)) (now w) (heap w)).

Definition store (cell : nat) (v : R) : M unit :=
  fun w => (tt, mkWorld (randoms w) (drawn w) (now w)
                        (fun c => if Nat.eqb c cell then v else heap w c)).

(** The functions of [Math] that the height field calls. *)
Definition Math_sin (x : R) : M R := ret (sin x).
Definition Math_cos (x : R) : M R := ret (cos x).
Definition Math_sqrt (x : R) : M R := ret (sqrt x).
Definition Math_abs (x : R) : M R := ret (Rabs x).
Definition Math_pow (x : R) (n : nat) : M R := ret (x ^ n).

Definition pseudoNoise (x z : R) : M R :=
  sinX <- Math_sin (x * 0.05);;
  cosZ <- Math_cos (z * 0.05);;
  sinX2 <- Math_sin (x * 0.15 + 100);;
  cosZ2 <- Math_cos (z * 0.15 + 100);;
  ret ((sinX * cosZ) + (sinX2 * cosZ2) * 0.5).

Definition getHeight (x z : R) : M R :=
  n <- pseudoNoise x z;;
  let y := n * 6 + 12 in
  s <- Math_sin (x * 0.5);;
  c <- Math_cos (z * 0.5);;
  let y := y + s * c * 1.0 in
  s <- Math_sin (x * warpFreq);;
  c <- Math_cos (z * warpFreq * 0.7);;
  let warpX := s * warpAmp + c * warpAmp * 0.5 in
  c <- Math_cos (z * warpFreq * 0.8);;
  s <- Math_sin (x * warpFreq * 0.5);;
  let warpZ := c * warpAmp + s * warpAmp * 0.5 in
  let dx := (x - warpX) - mountainCenterX in
  let dz := (z - warpZ) - mountainCenterZ in
  d <- Math_sqrt (dx * dx + dz * dz);;
  y <- (if ltb d mountainRadius then
          let normalizedDist := d / mountainRadius in
          c <- Math_cos (normalizedDist * PI);;
          let shape := 0.5 + 0.5 * c in
          let mountainY := shape * mountainHeight in
          n <- pseudoNoise (x * 0.15) (z * 0.15);;
          s <- Math_sin (x * 0.05);;
          c <- Math_cos (z * 0.05);;
          a <- Math_abs (s * c);;
          let roughness := (n * 15 + a * 20) * shape in
          ret (y + (mountainY + roughness))
        else ret y);;
  s <- Math_sin (z * 0.1);;
  let distortionX := s * 15 in
  c <- Math_cos (x * 0.1);;
  let distortionZ := c * 15 in
  let lx := (x - lakeCenterX) + distortionX in
  let lz := (z - lakeCenterZ) + distortionZ in
  dist <- Math_sqrt ((lx * lx) / (lakeRadiusX * lakeRadiusX)
                     + (lz * lz) / (lakeRadiusZ * lakeRadiusZ));;
  y <- (if ltb dist 1.0 then
          depthFactor <- Math_pow (1.0 - dist) 2;;
          ret (y - depthFactor * 45)
        else ret y);;
  ret (if ltb y (-12) then -12 else y).

(** Terrain.tsx, the body of the loop over the vertices of the plane: the
    vertex at [(x, z)] is moved to the sampled height. *)
Definition terrainVertex (x z : R) : M Vector3.t :=
  y <- getHeight x z;;
  ret (Vector3.mk x y z).

(** Birds.tsx, the collision step: [getHeight(currentPos.x, currentPos.z)]. *)
Definition terrainHeight (currentPos : Vector3.t) : M R :=
  getHeight (Vector3.x currentPos) (Vector3.z currentPos).

End Js.

(** ** Interval arithmetic on fixed-point numbers, over [Z]

    Enclosures used to follow one concrete run of the frame callback: an
    interval with integer end points [zlo] and [zhi] at precision [p] stands
    for the reals between [zlo / 2^p] and [zhi / 2^p]; [None] stands for "no
    information". *)

Record zitv : Type := mkZitv { zlo : Z; zhi : Z }.

Definition zival : Type := option zitv.

Definition floorShift (p m : Z) : Z := Z.shiftr m p.
Definition ceilShift (p m : Z) : Z := (- Z.shiftr (- m) p)%Z.
Definition ceilDiv (a b : Z) : Z := (- ((- a) / b))%Z.

(** The rational [n / d]. *)
Definition ZIq (p n d : Z) : zival :=
  Some (mkZitv (Z.shiftl n p / d) (ceilDiv (Z.shiftl n p) d)).

Definition ZIz (p n : Z) : zival := Some (mkZitv (Z.shiftl n p) (Z.shiftl n p)).

Definition ZIadd (A B : zival) : zival :=
  match A, B with
  | Some a, Some b => Some (mkZitv (zlo a + zlo b) (zhi a + zhi b))
  | _, _ => None
  end.

Definition ZIopp (A : zival) : zival :=
  match A with
  | Some a => Some (mkZitv (- zhi a) (- zlo a))
  | None => None
  end.

Definition ZIsub (A B : zival) : zival := ZIadd A (ZIopp B).

(** Bounds of the product of the end points, by the signs of the factors. *)
Definition zmulBounds (a b : zitv) : Z * Z :=
  let a0 := zlo a in
  let a1 := zhi a in
  let b0 := zlo b in
  let b1 := zhi b in
  (if 0 <=? a0 then
     if 0 <=? b0 then (a0 * b0, a1 * b1)
     else if b1 <=? 0 then (a1 * b0, a0 * b1)
     else (a1 * b0, a1 * b1)
   else if a1 <=? 0 then
     if 0 <=? b0 then (a0 * b1, a1 * b0)
     else if b1 <=? 0 then (a1 * b1, a0 * b0)
     else (a0 * b1, a0 * b0)
   else
     if 0 <=? b0 then (a0 * b1, a1 * b1)
     else if b1 <=? 0 then (a1 * b0, a0 * b0)
     else (Z.min (a0 * b1) (a1 * b0), Z.max (a0 * b0) (a1 * b1)))%Z.

Definition ZImul (p : Z) (A B : zival) : zival :=
  match A, B with
  | Some a, Some b =>
      let '(m, M) := zmulBounds a b in
      Some (mkZitv (floorShift p m) (ceilShift p M))
  | _, _ => None
  end.

Definition ZIsqrt (p : Z) (A : zival) : zival :=
  match A with
  | Some a =>
      Some (mkZitv (Z.sqrt (Z.shiftl (Z.max 0 (zlo a)) p))
                  (Z.sqrt (Z.shiftl (Z.max 0 (zhi a)) p) + 1))
  | None => None
  end.

(** Reciprocal of an interval of positive numbers. *)
Definition ZIinv (p : Z) (B : zival) : zival :=
  match B with
  | Some b =>
      if (0 <? zlo b)%Z then
        Some (mkZitv (Z.shiftl 1 (2 * p) / zhi b) (ceilDiv (Z.shiftl 1 (2 * p)) (zlo b)))
      else None
  | None => None
  end.

Definition ZIdiv (p : Z) (A B : zival) : zival := ZImul p A (ZIinv p B).

(** Division by a positive integer. *)
Definition ZIdivz (A : zival) (k : Z) : zival :=
  match A with
  | Some a => if (0 <? k)%Z then Some (mkZitv (zlo a / k) (ceilDiv (zhi a) k)) else None
  | None => None
  end.

Definition ZIabs (A : zival) : zival :=
  match A with
  | Some a =>
      if (0 <=? zlo a)%Z then A
      else if (zhi a <=? 0)%Z then ZIopp A
      else Some (mkZitv 0 (Z.max (- zlo a) (zhi a)))
  | None => None
  end.

(** What is known of a number of [-1, 1]. *)
Definition ZIunit (p : Z) (A : zival) : zival :=
  match A with
  | Some a => Some (mkZitv (Z.max (zlo a) (- Z.shiftl 1 p)) (Z.min (zhi a) (Z.shiftl 1 p)))
  | None => Some (mkZitv (- Z.shiftl 1 p) (Z.shiftl 1 p))
  end.

(** Division by [2^j]. *)
Definition ZIhalve (j : Z) (A : zival) : zival :=
  match A with
  | Some a => Some (mkZitv (floorShift j (zlo a)) (ceilShift j (zhi a)))
  | None => None
  end.

Definition ZIjoin (A B : zival) : zival :=
  match A, B with
  | Some a, Some b => Some (mkZitv (Z.min (zlo a) (zlo b)) (Z.max (zhi a) (zhi b)))
  | _, _ => None
  end.

(** [a < b], when the intervals decide it. *)
Definition ZIlt (A B : zival) : option bool :=
  match A, B with
  | Some a, Some b =>
      if (zhi a <? zlo b)%Z then Some true
      else if (zhi b <=? zlo a)%Z then Some false
      else None
  | _, _ => None
  end.

(** [a <= b], when the intervals decide it. *)
Definition ZIle (A B : zival) : option bool :=
  match A, B with
  | Some a, Some b =>
      if (zhi a <=? zlo b)%Z then Some true
      else if (zhi b <? zlo a)%Z then Some false
      else None
  | _, _ => None
  end.

(** Lower end of one enclosure and upper end of another. *)
Definition ZIbetween (A B : zival) : zival :=
  match A, B with
  | Some a, Some b => Some (mkZitv (zlo a) (zhi b))
  | _, _ => None
  end.

(** Whether the interval lies zwithin the integers [l] and [h]. *)
Definition ZIinside (p : Z) (A : zival) (l h : Z) : bool :=
  match A with
  | Some a => ((Z.shiftl l p <=? zlo a) && (zhi a <=? Z.shiftl h p))%Z
  | None => false
  end.

Definition ZIpos (A : zival) : bool :=
  match A with
  | Some a => (0 <? zlo a)%Z
  | None => false
  end.

Definition ZIneg (A : zival) : bool :=
  match A with
  | Some a => (zhi a <? 0)%Z
  | None => false
  end.

(** *** What an interval says about a real number *)

Definition unitR (p : Z) : R := IZR (2 ^ p).

Definition zwithin (p : Z) (a : zitv) (x : R) : Prop :=
  IZR (zlo a) <= x * unitR p <= IZR (zhi a).

Definition zcontains (p : Z) (A : zival) (x : R) : Prop :=
  match A with
  | Some a => zwithin p a x
  | None => True
  end.

(** ** The same operations on machine-word integers

    The run is computed on Bignums integers; every operation below is the
    operation of the same name over [Z] on the values of the end points. *)

Record itv : Type := mkItv { lo : bigZ; hi : bigZ }.

Definition ival : Type := option itv.

Definition ofZ (n : Z) : bigZ := BigZ.of_Z n.

(** The interval over [Z] an interval stands for. *)
Definition valueOf (A : ival) : zival :=
  match A with
  | Some a => Some (mkZitv (BigZ.to_Z (lo a)) (BigZ.to_Z (hi a)))
  | None => None
  end.

Definition contains (p : Z) (A : ival) (x : R) : Prop := zcontains p (valueOf A) x.

Definition bfloorShift (p : Z) (m : bigZ) : bigZ := BigZ.shiftr m (ofZ p).
Definition bceilShift (p : Z) (m : bigZ) : bigZ :=
  BigZ.opp (BigZ.shiftr (BigZ.opp m) (ofZ p)).
Definition bceilDiv (a b : bigZ) : bigZ := BigZ.opp (BigZ.div (BigZ.opp a) b).

Definition Iq (p n d : Z) : ival :=
  let m := BigZ.shiftl (ofZ n) (ofZ p) in
  Some (mkItv (BigZ.div m (ofZ d)) (bceilDiv m (ofZ d))).

Definition Iz (p n : Z) : ival :=
  let m := BigZ.shiftl (ofZ n) (ofZ p) in
  Some (mkItv m m).

Definition Iadd (A B : ival) : ival :=
  match A, B with
  | Some a, Some b => Some (mkItv (BigZ.add (lo a) (lo b)) (BigZ.add (hi a) (hi b)))
  | _, _ => None
  end.

Definition Iopp (A : ival) : ival :=
  match A with
  | Some a => Some (mkItv (BigZ.opp (hi a)) (BigZ.opp (lo a)))
  | None => None
  end.

Definition Isub (A B : ival) : ival := Iadd A (Iopp B).

Definition mulBounds (a b : itv) : bigZ * bigZ :=
  let a0 := lo a in
  let a1 := hi a in
  let b0 := lo b in
  let b1 := hi b in
  let o := ofZ 0 in
  if BigZ.leb o a0 then
    if BigZ.leb o b0 then (BigZ.mul a0 b0, BigZ.mul a1 b1)
    else if BigZ.leb b1 o then (BigZ.mul a1 b0, BigZ.mul a0 b1)
    else (BigZ.mul a1 b0, BigZ.mul a1 b1)
  else if BigZ.leb a1 o then
    if BigZ.leb o b0 then (BigZ.mul a0 b1, BigZ.mul a1 b0)
    else if BigZ.leb b1 o then (BigZ.mul a1 b1, BigZ.mul a0 b0)
    else (BigZ.mul a0 b1, BigZ.mul a0 b0)
  else
    if BigZ.leb o b0 then (BigZ.mul a0 b1, BigZ.mul a1 b1)
    else if BigZ.leb b1 o then (BigZ.mul a1 b0, BigZ.mul a0 b0)
    else (BigZ.min (BigZ.mul a0 b1) (BigZ.mul a1 b0),
          BigZ.max (BigZ.mul a0 b0) (BigZ.mul a1 b1)).

Definition Imul (p : Z) (A B : ival) : ival :=
  match A, B with
  | Some a, Some b =>
      let '(m, M) := mulBounds a b in
      Some (mkItv (bfloorShift p m) (bceilShift p M))
  | _, _ => None
  end.

Definition Isqrt (p : Z) (A : ival) : ival :=
  match A with
  | Some a =>
      Some (mkItv (BigZ.sqrt (BigZ.shiftl (BigZ.max (ofZ 0) (lo a)) (ofZ p)))
                  (BigZ.add (BigZ.sqrt (BigZ.shiftl (BigZ.max (ofZ 0) (hi a)) (ofZ p)))
                            (ofZ 1)))
  | None => None
  end.

Definition Iinv (p : Z) (B : ival) : ival :=
  match B with
  | Some b =>
      if BigZ.ltb (ofZ 0) (lo b) then
        let u := BigZ.shiftl (ofZ 1) (ofZ (2 * p)) in
        Some (mkItv (BigZ.div u (hi b)) (bceilDiv u (lo b)))
      else None
  | None => None
  end.

Definition Idiv (p : Z) (A B : ival) : ival := Imul p A (Iinv p B).

Definition Idivz (A : ival) (k : Z) : ival :=
  match A with
  | Some a =>
      if (0 <? k)%Z then Some (mkItv (BigZ.div (lo a) (ofZ k)) (bceilDiv (hi a) (ofZ k)))
      else None
  | None => None
  end.

Definition Iabs (A : ival) : ival :=
  match A with
  | Some a =>
      if BigZ.leb (ofZ 0) (lo a) then A
      else if BigZ.leb (hi a) (ofZ 0) then Iopp A
      else Some (mkItv (ofZ 0) (BigZ.max (BigZ.opp (lo a)) (hi a)))
  | None => None
  end.

Definition Iunit (p : Z) (A : ival) : ival :=
  let u := BigZ.shiftl (ofZ 1) (ofZ p) in
  match A with
  | Some a => Some (mkItv (BigZ.max (lo a) (BigZ.opp u)) (BigZ.min (hi a) u))
  | None => Some (mkItv (BigZ.opp u) u)
  end.

Definition Ihalve (j : Z) (A : ival) : ival :=
  match A with
  | Some a => Some (mkItv (bfloorShift j (lo a)) (bceilShift j (hi a)))
  | None => None
  end.

Definition Ijoin (A B : ival) : ival :=
  match A, B with
  | Some a, Some b => Some (mkItv (BigZ.min (lo a) (lo b)) (BigZ.max (hi a) (hi b)))
  | _, _ => None
  end.

Definition Ilt (A B : ival) : option bool :=
  match A, B with
  | Some a, Some b =>
      if BigZ.ltb (hi a) (lo b) then Some true
      else if BigZ.leb (hi b) (lo a) then Some false
      else None
  | _, _ => None
  end.

Definition Ile (A B : ival) : option bool :=
  match A, B with
  | Some a, Some b =>
      if BigZ.leb (hi a) (lo b) then Some true
      else if BigZ.ltb (hi b) (lo a) then Some false
      else None
  | _, _ => None
  end.

Definition Ibetween (A B : ival) : ival :=
  match A, B with
  | Some a, Some b => Some (mkItv (lo a) (hi b))
  | _, _ => None
  end.

Definition Iinside (p : Z) (A : ival) (l h : Z) : bool :=
  match A with
  | Some a =>
      BigZ.leb (BigZ.shiftl (ofZ l) (ofZ p)) (lo a)
      && BigZ.leb (hi a) (BigZ.shiftl (ofZ h) (ofZ p))
  | None => false
  end.

Definition Ipos (A : ival) : bool :=
  match A with
  | Some a => BigZ.ltb (ofZ 0) (lo a)
  | None => false
  end.

Definition Ineg (A : ival) : bool :=
  match A with
  | Some a => BigZ.ltb (hi a) (ofZ 0)
  | None => false
  end.

Definition Inonneg (A : ival) : bool :=
  match A with
  | Some a => BigZ.leb (ofZ 0) (lo a)
  | None => false
  end.

Definition Inonpos (A : ival) : bool :=
  match A with
  | Some a => BigZ.leb (hi a) (ofZ 0)
  | None => false
  end.

(** A conditional on a comparison that may be undecided; only the branch
    that is needed is computed. *)
Definition Iif (c : option bool) (A B : unit -> ival) : ival :=
  match c with
  | Some true => A tt
  | Some false => B tt
  | None => Ijoin (A tt) (B tt)
  end.

(** *** Sine and cosine *)

(** The term [t^(2m) / (2m)!] and the partial sum of index [m] of the
    cosine series, for [t * t] in [U]. *)
Fixpoint cosPartial (p : Z) (U : ival) (m : nat) : ival * ival :=
  match m with
  | O => (Iz p 1, Iz p 1)
  | S m' =>
      let '(t, s) := cosPartial p U m' in
      let t' := Idivz (Imul p t U) (Z.of_nat (2 * m' + 1) * Z.of_nat (2 * m' + 2)) in
      (t', if Nat.even m' then Isub s t' else Iadd s t')
  end.

(** The term [t^(2m+1) / (2m+1)!] and the partial sum of index [m] of the
    sine series, for [t] in [T] and [t * t] in [U]. *)
Fixpoint sinPartial (p : Z) (T U : ival) (m : nat) : ival * ival :=
  match m with
  | O => (T, T)
  | S m' =>
      let '(t, s) := sinPartial p T U m' in
      let t' := Idivz (Imul p t U) (Z.of_nat (2 * m' + 2) * Z.of_nat (2 * m' + 3)) in
      (t', if Nat.even m' then Isub s t' else Iadd s t')
  end.

(** Cosine on [-2, 2], between two consecutive partial sums. *)
Definition cosSmall (p : Z) (n : nat) (T : ival) : ival :=
  if Iinside p T (-2) 2 then
    let U := Imul p T T in
    let m := (2 * n + 1)%nat in
    let '(t, low) := cosPartial p U m in
    let t' := Idivz (Imul p t U) (Z.of_nat (2 * m + 1) * Z.of_nat (2 * m + 2)) in
    Ibetween low (Iadd low t')
  else None.

(** Sine on [0, 4], between two consecutive partial sums. *)
Definition sinPos (p : Z) (n : nat) (T : ival) : ival :=
  if Iinside p T 0 4 then
    let U := Imul p T T in
    let m := (2 * n + 1)%nat in
    let '(t, low) := sinPartial p T U m in
    let t' := Idivz (Imul p t U) (Z.of_nat (2 * m + 2) * Z.of_nat (2 * m + 3)) in
    Ibetween low (Iadd low t')
  else None.

(** Sine on [-4, 4] for an interval on one side of zero. *)
Definition sinSmall (p : Z) (n : nat) (T : ival) : ival :=
  if Inonneg T then sinPos p n T
  else if Inonpos T then Iopp (sinPos p n (Iopp T))
  else None.

(** From the sine and cosine of an angle to those of its double. *)
Definition doubleAngle (p : Z) (sc : ival * ival) : ival * ival :=
  let '(s, c) := sc in
  let sc' := Imul p s c in
  let ss := Imul p s s in
  (Iunit p (Iadd sc' sc'), Iunit p (Isub (Iz p 1) (Iadd ss ss))).

Fixpoint doubleAngles (p : Z) (j : nat) (sc : ival * ival) : ival * ival :=
  match j with
  | O => sc
  | S j' => doubleAngles p j' (doubleAngle p sc)
  end.

(** Number of halvings that bring the interval within [2^-r] of zero. *)
Definition halvings (p r : Z) (A : ival) : nat :=
  match A with
  | Some a =>
      Z.to_nat
        (BigZ.to_Z (BigZ.log2 (BigZ.max (BigZ.abs (lo a)) (BigZ.abs (hi a)))) + 1 + r - p)
  | None => O
  end.

(** Number of terms of the series and size of the reduced argument, chosen
    by the precision. *)
Definition seriesTerms (p : Z) : nat := Z.to_nat (p / 48 + 1).
Definition reduceBits (p : Z) : Z := if (p <=? 64)%Z then 3%Z else 8%Z.

Definition Isincos (p : Z) (A : ival) : ival * ival :=
  let j := halvings p (reduceBits p) A in
  let T := Ihalve (Z.of_nat j) A in
  doubleAngles p j (sinSmall p (seriesTerms p) T, cosSmall p (seriesTerms p) T).

Definition Isin (p : Z) (A : ival) : ival := fst (Isincos p A).
Definition Icos (p : Z) (A : ival) : ival := snd (Isincos p A).

(** *** The constant pi *)

(** [piLow / 2^piBits < PI < piHigh / 2^piBits]. *)
Definition piBits : Z := 320.
Definition piLow : Z :=
  6710401180212168915155840974220003240804194089427148950727106424351713218671805380099500388914038.
Definition piHigh : Z :=
  6710401180212168915155840974220003240804194089427148950727106424351713218671805380099500388914041.

Definition Ipi (p : Z) : ival :=
  Ibetween (Iq p piLow (2 ^ piBits)) (Iq p piHigh (2 ^ piBits)).

(** The cosine of half of a bound of pi, computed with 32 more bits. *)
Definition cosHalf (b : Z) : ival :=
  cosSmall (piBits + 32) 45 (Iq (piBits + 32) b (2 ^ (piBits + 1))).

(** ** Enclosures of the height field *)

Definition pseudoNoiseI (p : Z) (Xi Zi : ival) : ival :=
  let sinX := Isin p (Imul p Xi (Iq p 5 100)) in
  let cosZ := Icos p (Imul p Zi (Iq p 5 100)) in
  let sinX2 := Isin p (Iadd (Imul p Xi (Iq p 15 100)) (Iz p 100)) in
  let cosZ2 := Icos p (Iadd (Imul p Zi (Iq p 15 100)) (Iz p 100)) in
  Iadd (Imul p sinX cosZ) (Imul p (Imul p sinX2 cosZ2) (Iq p 5 10)).

Definition baseTerrainI (p : Z) (Xi Zi : ival) : ival :=
  Iadd (Imul p (pseudoNoiseI p Xi Zi) (Iz p 6)) (Iz p 12).

Definition distFromMountainI (p : Z) (Xi Zi : ival) : ival :=
  let warpFreq := Iq p 4 100 in
  let warpAmp := Iz p 40 in
  let warpX :=
    Iadd (Imul p (Isin p (Imul p Xi warpFreq)) warpAmp)
         (Imul p (Imul p (Icos p (Imul p (Imul p Zi warpFreq) (Iq p 7 10))) warpAmp) (Iq p 5 10)) in
  let warpZ :=
    Iadd (Imul p (Icos p (Imul p (Imul p Zi warpFreq) (Iq p 8 10))) warpAmp)
         (Imul p (Imul p (Isin p (Imul p (Imul p Xi warpFreq) (Iq p 5 10))) warpAmp) (Iq p 5 10)) in
  let dx := Isub (Isub Xi warpX) (Iz p 250) in
  let dz := Isub (Isub Zi warpZ) (Iz p (-120)) in
  Isqrt p (Iadd (Imul p dx dx) (Imul p dz dz)).

Definition mountainRiseI (p : Z) (Xi Zi D : ival) : ival :=
  let normalizedDist := Idiv p D (Iz p 160) in
  let shape := Iadd (Iq p 5 10) (Imul p (Iq p 5 10) (Icos p (Imul p normalizedDist (Ipi p)))) in
  let mountainY := Imul p shape (Iz p 140) in
  let roughness :=
    Imul p
      (Iadd (Imul p (pseudoNoiseI p (Imul p Xi (Iq p 15 100)) (Imul p Zi (Iq p 15 100))) (Iz p 15))
            (Imul p (Iabs (Imul p (Isin p (Imul p Xi (Iq p 5 100)))
                                  (Icos p (Imul p Zi (Iq p 5 100)))))
                    (Iz p 20)))
      shape in
  Iadd mountainY roughness.

Definition lakeDistI (p : Z) (Xi Zi : ival) : ival :=
  let distortionX := Imul p (Isin p (Imul p Zi (Iq p 1 10))) (Iz p 15) in
  let distortionZ := Imul p (Icos p (Imul p Xi (Iq p 1 10))) (Iz p 15) in
  let lx := Iadd (Isub Xi (Iz p (-200))) distortionX in
  let lz := Iadd (Isub Zi (Iz p 80)) distortionZ in
  Isqrt p (Iadd (Idiv p (Imul p lx lx) (Imul p (Iz p 200) (Iz p 200)))
                (Idiv p (Imul p lz lz) (Imul p (Iz p 140) (Iz p 140)))).

Definition getHeightI (p : Z) (Xi Zi : ival) : ival :=
  let y := baseTerrainI p Xi Zi in
  let y := Iadd y (Imul p (Imul p (Isin p (Imul p Xi (Iq p 5 10)))
                                  (Icos p (Imul p Zi (Iq p 5 10))))
                          (Iz p 1)) in
  let d := distFromMountainI p Xi Zi in
  let y := Iif (Ilt d (Iz p 160)) (fun _ => Iadd y (mountainRiseI p Xi Zi d)) (fun _ => y) in
  let dist := lakeDistI p Xi Zi in
  let om := Isub (Iz p 1) dist in
  let y :=
    Iif (Ilt dist (Iz p 1))
        (fun _ => Isub y (Imul p (Imul p om (Imul p om (Iz p 1))) (Iz p 45)))
        (fun _ => y) in
  Iif (Ilt y (Iz p (-12))) (fun _ => Iz p (-12)) (fun _ => y).

(** ** Enclosures of the frame callback *)

Record ivec : Type := mkIvec { ix : ival; iy : ival; iz : ival }.

Definition containsV (p : Z) (V : ivec) (v : Vector3.t) : Prop :=
  contains p (ix V) (Vector3.x v)
  /\ contains p (iy V) (Vector3.y v)
  /\ contains p (iz V) (Vector3.z v).

Definition ivecZ (p : Z) (x y z : Z) : ivec := mkIvec (Iz p x) (Iz p y) (Iz p z).

Definition IsetY (V : ivec) (Y : ival) : ivec := mkIvec (ix V) Y (iz V).

Definition IaddV (A B : ivec) : ivec :=
  mkIvec (Iadd (ix A) (ix B)) (Iadd (iy A) (iy B)) (Iadd (iz A) (iz B)).

Definition IsubV (A B : ivec) : ivec :=
  mkIvec (Isub (ix A) (ix B)) (Isub (iy A) (iy B)) (Isub (iz A) (iz B)).

Definition IscaleV (p : Z) (V : ivec) (S : ival) : ivec :=
  mkIvec (Imul p (ix V) S) (Imul p (iy V) S) (Imul p (iz V) S).

Definition IlengthSq (p : Z) (V : ivec) : ival :=
  Iadd (Iadd (Imul p (ix V) (ix V)) (Imul p (iy V) (iy V))) (Imul p (iz V) (iz V)).

Definition Ilength (p : Z) (V : ivec) : ival := Isqrt p (IlengthSq p V).

Definition IdistanceTo (p : Z) (A B : ivec) : ival :=
  let dx := Isub (ix A) (ix B) in
  let dy := Isub (iy A) (iy B) in
  let dz := Isub (iz A) (iz B) in
  Isqrt p (Iadd (Iadd (Imul p dx dx) (Imul p dy dy)) (Imul p dz dz)).

(** [l || 1] for a length known to be positive. *)
Definition IorOne (L : ival) : ival := if Ipos L then L else None.

Definition Inormalize (p : Z) (V : ivec) : ivec :=
  IscaleV p V (Idiv p (Iz p 1) (IorOne (Ilength p V))).

Definition IsetLength (p : Z) (V : ivec) (L : ival) : ivec :=
  IscaleV p (Inormalize p V) L.

(** What the steering of a frame needs of the state machine's decision. *)
Record plan : Type := mkPlan {
  planState : BirdState;
  planTarget : ivec;
  planSpeed : ival;
  planTurn : ival
}.

(** One state's branch: the state goes to [s'] when the test holds. *)
Definition branch (c : option bool) (s s' : BirdState) (tgt : ivec) (speed turn : ival)
  : option plan :=
  match c with
  | Some b => Some (mkPlan (if b then s' else s) tgt speed turn)
  | None => None
  end.

Definition stateMachineI (p : Z) (s : BirdState) (P : ivec) (T : ival) : option plan :=
  match s with
  | CINEMATIC_ENTRY =>
      let tgt := ivecZ p 180 140 (-60) in
      branch (Ilt (IdistanceTo p P tgt) (Iz p 80)) s DIVE_BOMB tgt (Iz p 100) (Iz p 2)
  | APPROACH_LAKE =>
      let tgt := ivecZ p (-180) 60 70 in
      branch (Ilt (IdistanceTo p P tgt) (Iz p 80)) s DIVE_LAKE tgt (Iz p 40) (Iz p 2)
  | DIVE_LAKE =>
      let tgt := ivecZ p (-180) (-3) 70 in
      match Ile (iy P) (Iq p (-15) 10) with
      | Some true => Some (mkPlan SKIM tgt (Iz p 90) (Iz p 3))
      | Some false =>
          branch (Ilt (IdistanceTo p P tgt) (Iz p 20)) s SKIM tgt (Iz p 90) (Iz p 3)
      | None => None
      end
  | SKIM =>
      let oscillation := Imul p (Isin p (Imul p T (Iz p 15))) (Iq p 6 10) in
      let tgt := mkIvec (Iz p (-125)) (Iadd (Iq p (-12) 10) oscillation) (Iz p 50) in
      let dx := Isub (ix P) (ix tgt) in
      let dy := Isub (iz P) (iz tgt) in
      branch (Ilt (Isqrt p (Iadd (Imul p dx dx) (Imul p dy dy))) (Iz p 20))
             s CLIMB_MOUNTAIN tgt (Iz p 70) (Iz p 2)
  | CLIMB_MOUNTAIN =>
      let tgt := ivecZ p 80 200 (-10) in
      branch (Ilt (IdistanceTo p P tgt) (Iz p 60)) s DIVE_BOMB tgt (Iz p 60) (Iz p 2)
  | DIVE_BOMB =>
      let tgt := ivecZ p 180 80 (-60) in
      branch (Ilt (IdistanceTo p P tgt) (Iz p 60)) s PULL_UP tgt (Iz p 90) (Iz p 2)
  | PULL_UP =>
      let tgt := ivecZ p 180 250 (-160) in
      branch (Ilt (Iz p 200) (iy P)) s APPROACH_LAKE tgt (Iz p 60) (Iz p 2)
  end.

Definition steerVelocityI (p : Z) (tgt P V : ivec) (speed turn DT : ival) : option ivec :=
  let desiredDir := Inormalize p (IsubV tgt P) in
  let steer := IsubV (IscaleV p desiredDir speed) V in
  let V1 := IaddV V (IscaleV p steer (Imul p turn DT)) in
  match Ilt speed (Ilength p V1) with
  | Some true => Some (IsetLength p V1 speed)
  | Some false => Some V1
  | None => None
  end.

Definition safeAltitudeI (p : Z) (s : BirdState) (H : ival) : option ival :=
  match Ilt H (Iz p (-2)) with
  | Some true =>
      Some match s with
           | SKIM | DIVE_LAKE => Isub (Iz p (-2)) (Iq p 5 10)
           | _ => Iadd (Iz p (-2)) (Iz p 2)
           end
  | Some false =>
      Some match s with
           | SKIM => Iadd H (Iz p 5)
           | _ => Iadd H (Iz p 2)
           end
  | None => None
  end.

Definition IlerpI (p : Z) (X Y T : ival) : ival :=
  Iadd (Imul p (Isub (Iz p 1) T) X) (Imul p T Y).

(** The collision step changes nothing when the bird is at or above the
    safe altitude, and most frames of a run are far from the ground. The
    run first takes a quick look: the bird is clear of the terrain when it
    flies at 27 or higher west or south of the mountain's footprint, where
    the ground is nowhere above 22; or when, at the low precision
    [coarseBits], it flies 5 above a ceiling of the ground; or when the
    enclosures of height and safe altitude at that precision already decide
    so. *)
Definition coarseBits : Z := 24.

(** A ceiling of the ground that takes few sines and cosines: the hills
    reach at most 22 and the mountain block adds at most 182.5 times its
    bell profile. *)
Definition groundCeiling (x z : R) : R :=
  let d := distFromMountain x z in
  if ltb d mountainRadius
  then 22 + (0.5 + 0.5 * cos (d / mountainRadius * PI)) * 182.5
  else 22.

Definition groundCeilingI (q : Z) (X Zi : ival) : ival :=
  let d := distFromMountainI q X Zi in
  Iif (Ilt d (Iz q 160))
      (fun _ =>
         Iadd (Iz q 22)
              (Imul q (Iadd (Iq q 5 10)
                            (Imul q (Iq q 5 10)
                                  (Icos q (Imul q (Idiv q d (Iz q 160)) (Ipi q)))))
                    (Iq q 1825 10)))
      (fun _ => Iz q 22).

(** The same enclosure at the lower precision [q]. *)
Definition Icoarsen (p q : Z) (A : ival) : ival := Ihalve (Z.of_nat (Z.to_nat (p - q))) A.

Definition holds (c : option bool) : bool :=
  match c with
  | Some true => true
  | _ => false
  end.

Definition aboveHills (p : Z) (P : ivec) : bool :=
  holds (Ile (Iz p 27) (iy P))
  && (holds (Ile (ix P) (Iz p 30)) || holds (Ile (Iz p 100) (iz P))).

Definition clearAt (q : Z) (s : BirdState) (X Y Zi : ival) : bool :=
  match safeAltitudeI q s (getHeightI q X Zi) with
  | Some safe =>
      match Ilt Y safe with
      | Some false => true
      | _ => false
      end
  | None => false
  end.

Definition underCeiling (q : Z) (X Y Zi : ival) : bool :=
  holds (Ile (Iadd (groundCeilingI q X Zi) (Iz q 5)) Y).

Definition clearOfTerrain (p : Z) (s : BirdState) (P : ivec) : bool :=
  if aboveHills p P then true
  else if (coarseBits <? p)%Z then
    let X := Icoarsen p coarseBits (ix P) in
    let Y := Icoarsen p coarseBits (iy P) in
    let Zi := Icoarsen p coarseBits (iz P) in
    if underCeiling coarseBits X Y Zi then true else clearAt coarseBits s X Y Zi
  else false.

Definition terrainCollisionI (p : Z) (s : BirdState) (P V : ivec) (DT : ival)
  : option (ivec * ivec) :=
  if clearOfTerrain p s P then Some (P, V)
  else
    match safeAltitudeI p s (getHeightI p (ix P) (iz P)) with
    | None => None
    | Some safe =>
        match Ilt (iy P) safe with
        | Some true =>
            match Ilt (iy V) (Iz p 0) with
            | Some d =>
                Some (IsetY P (IlerpI p (iy P) safe (Imul p DT (Iz p 10))),
                      if d then IsetY V (Imul p (iy V) (Iq p 5 10)) else V)
            | None => None
            end
        | Some false => Some (P, V)
        | None => None
        end
    end.

(** The kinematic part of the actor. *)
Record kin : Type := mkKin { kinState : BirdState; kinPos : ivec; kinVel : ivec }.

Definition useFrameI (p : Z) (DT T : ival) (k : kin) : option kin :=
  match stateMachineI p (kinState k) (kinPos k) T with
  | None => None
  | Some pl =>
      match steerVelocityI p (planTarget pl) (kinPos k) (kinVel k)
                           (planSpeed pl) (planTurn pl) DT with
      | None => None
      | Some V1 =>
          let P1 := IaddV (kinPos k) (IscaleV p V1 DT) in
          match terrainCollisionI p (kinState k) P1 V1 DT with
          | None => None
          | Some (P2, V2) => Some (mkKin (planState pl) P2 V2)
          end
      end
  end.

(** *** A synthetic run: frames at a fixed rate *)

(** Frame [n] of a run at [rate] frames per second: the delta is
    [1 / rate] and the clock has advanced by one delta per frame. *)
Definition syntheticFrame (rate : Z) (rnd : nat -> R) (n : nat) : Frame :=
  mkFrame (1 / IZR rate) (INR (S n) * (1 / IZR rate)) (rnd n).

(** The frames of index [n], [n + 1], ..., [n + count - 1]. *)
Fixpoint syntheticFrames (rate : Z) (rnd : nat -> R) (n count : nat) : list Frame :=
  match count with
  | O => []
  | S c => syntheticFrame rate rnd n :: syntheticFrames rate rnd (S n) c
  end.

(** The behaviour state after each frame of a run. *)
Fixpoint stateTrace (fs : list Frame) (v : View) (a : Actor) : list BirdState :=
  match fs with
  | [] => []
  | f :: fs' => let '(v', a') := useFrame f v a in state a' :: stateTrace fs' v' a'
  end.

(** A trace without its repetitions: the states in the order of entry. *)
Fixpoint visits (s : BirdState) (l : list BirdState) : list BirdState :=
  match l with
  | [] => [s]
  | s' :: l' => if BirdState_eqb s s' then visits s l' else s :: visits s' l'
  end.

Definition initialKin (p : Z) : kin :=
  mkKin CINEMATIC_ENTRY (ivecZ p (-200) 100 100) (ivecZ p 0 0 0).

Fixpoint runI (p rate : Z) (n count : nat) (k : kin) : option (list BirdState) :=
  match count with
  | O => Some []
  | S c =>
      let DT := Iq p 1 rate in
      match useFrameI p DT (Imul p (Iz p (Z.of_nat (S n))) DT) k with
      | None => None
      | Some k' =>
          match runI p rate (S n) c k' with
          | None => None
          | Some l => Some (kinState k' :: l)
          end
      end
  end.

(** Precision of the runs, in bits after the point. *)
Definition runBits : Z := 224.

(** The frame rates of the runs, and their length: 49 seconds. *)
Definition runRates : list Z := [10; 20; 30; 60]%Z.
Definition runLength (rate : Z) : nat := Z.to_nat (49 * rate).

(** The order in which the states are entered in a run that starts in
    [CINEMATIC_ENTRY] and goes twice round the loop. *)
Definition twoLaps : list BirdState :=
  [CINEMATIC_ENTRY; DIVE_BOMB; PULL_UP;
   APPROACH_LAKE; DIVE_LAKE; SKIM; CLIMB_MOUNTAIN; DIVE_BOMB; PULL_UP;
   APPROACH_LAKE; DIVE_LAKE; SKIM; CLIMB_MOUNTAIN; DIVE_BOMB; PULL_UP;
   APPROACH_LAKE].

(** * The rest of the scene *)

(** *** Ripple pool: auxiliary notions *)

(** Sum of a list of time steps. *)
Definition sumR (l : list R) : R := fold_right Rplus 0 l.

(** Update passes applied to one entry. *)
Definition tickEntry (dts : list R) (p : Ripple) : Ripple :=
  fold_left (fun p dt => tickRipple dt p) dts p.

(** An active entry is within its life span. *)
Definition wellAged (p : Ripple) : Prop :=
  active p = true ->
  0 < life p <= maxLife p /\ maxLife p = RIPPLE_CONFIG.LIFE_DURATION.

(** ** Tree instances (Trees.tsx, the layout effect) *)

Module Trees.

Definition TREE_COUNT : nat := Z.to_nat 11000.
Definition TERRAIN_WIDTH : R := 800.
Definition TERRAIN_DEPTH : R := 800.

(** What [Object3D.updateMatrix] composes the matrix of the dummy object
    from: its position, its scale and its Euler angles. *)
Record Transform : Type := mkTransform {
  position : Vector3.t;
  scale : Vector3.t;
  rotation : Vector3.t
}.

(** A colour as [Color.setHSL] was given it. *)
Record Color : Type := mkColor { hue : R; saturation : R; lightness : R }.

(** The colour attribute of an instanced mesh: the colour written at each
    index ([None] where this code has written nothing) and its
    [needsUpdate] flag. *)
Record ColorAttribute : Type := mkColorAttribute {
  colorAt : nat -> option Color;
  colorNeedsUpdate : bool
}.

(** An instanced mesh: the matrix written at each index, the [needsUpdate]
    flag of [instanceMatrix], the colour attribute and the instance count.
    [instanceColor] is [null] on a new mesh: three.js allocates it in the
    first call of [setColorAt]. *)
Record InstancedMesh : Type := mkInstancedMesh {
  matrixAt : nat -> option Transform;
  matrixNeedsUpdate : bool;
  instanceColor : option ColorAttribute;
  count : nat
}.

Definition setMatrixAt (i : nat) (t : Transform) (m : InstancedMesh) : InstancedMesh :=
  mkInstancedMesh (fun j => if Nat.eqb j i then Some t else matrixAt m j)
                  (matrixNeedsUpdate m) (instanceColor m) (count m).

Definition setColorAt (i : nat) (c : Color) (m : InstancedMesh) : InstancedMesh :=
  let a := match instanceColor m with
           | Some a => a
           | None => mkColorAttribute (fun _ => None) false
           end in
  mkInstancedMesh (matrixAt m) (matrixNeedsUpdate m)
                  (Some (mkColorAttribute (fun j => if Nat.eqb j i then Some c else colorAt a j)
                                          (colorNeedsUpdate a)))
                  (count m).

(** The colour this code has written at index [j], if any. *)
Definition colorOf (m : InstancedMesh) (j : nat) : option Color :=
  match instanceColor m with
  | Some a => colorAt a j
  | None => None
  end.

(** The four refs of the component; each is absent until mounted. *)
Record Refs : Type := mkRefs {
  trunkMeshRef : option InstancedMesh;
  foliageBottomRef : option InstancedMesh;
  foliageMidRef : option InstancedMesh;
  foliageTopRef : option InstancedMesh
}.

(** The variables of the loop: how many values [Math.random()] has
    returned so far, the next free instance index, and the meshes. *)
Record Loop : Type := mkLoop {
  cursor : nat;
  index : nat;
  refs : Refs
}.

(** One pass of the loop over [i]; [rnd k] is the value the [k]-th call of
    [Math.random()] returns. *)
Definition plant (rnd : nat -> R) (s : Loop) : Loop :=
  let c := cursor s in
  let x := (rnd c - 0.5) * TERRAIN_WIDTH in
  let z := (rnd (c + 1)%nat - 0.5) * TERRAIN_DEPTH in
  let y := getHeight x z in
  if ltb y (-1.5) then mkLoop (c + 2) (index s) (refs s)
  else
    let scale := 0.4 + rnd (c + 2)%nat * 0.4 in
    let trunkHeight := 3 + rnd (c + 3)%nat * 4 in
    let dummy :=
      mkTransform (Vector3.mk x (y - 0.2) z) (Vector3.mk scale trunkHeight scale)
                  (Vector3.mk 0 (rnd (c + 4)%nat * PI) 0) in
    let trunk := option_map (setMatrixAt (index s) dummy) (trunkMeshRef (refs s)) in
    let hue := 0.25 + (rnd (c + 5)%nat - 0.5) * 0.05 in
    let sat := 0.6 + rnd (c + 6)%nat * 0.2 in
    let light := 0.3 + rnd (c + 7)%nat * 0.2 in
    let color := mkColor hue sat light in
    let bottom := option_map (setColorAt (index s) color) (foliageBottomRef (refs s)) in
    let mid := option_map (setColorAt (index s) color) (foliageMidRef (refs s)) in
    let color := mkColor hue sat (light + 0.1) in
    let top := option_map (setColorAt (index s) color) (foliageTopRef (refs s)) in
    let dummy :=
      mkTransform (Vector3.mk x (y + trunkHeight * 0.5) z)
                  (Vector3.mk (scale * 3.5) (scale * 2.5) (scale * 3.5))
                  (Vector3.mk (rnd (c + 8)%nat) (rnd (c + 9)%nat) (rnd (c + 10)%nat)) in
    let bottom := option_map (setMatrixAt (index s) dummy) bottom in
    let dummy :=
      mkTransform (Vector3.mk x (y + trunkHeight * 0.75) z)
                  (Vector3.mk (scale * 2.8) (scale * 2.8) (scale * 2.8))
                  (Vector3.mk (rnd (c + 11)%nat) (rnd (c + 12)%nat) (rnd (c + 13)%nat)) in
    let mid := option_map (setMatrixAt (index s) dummy) mid in
    let dummy :=
      mkTransform (Vector3.mk x (y + trunkHeight * 0.95) z)
                  (Vector3.mk (scale * 1.8) (scale * 1.8) (scale * 1.8))
                  (Vector3.mk (rnd (c + 14)%nat) (rnd (c + 15)%nat) (rnd (c + 16)%nat)) in
    let top := option_map (setMatrixAt (index s) dummy) top in
    mkLoop (c + 17) (S (index s)) (mkRefs trunk bottom mid top).

(** The loop after [n] passes. *)
Definition planted (rnd : nat -> R) (n : nat) (r : Refs) : Loop :=
  Nat.iter n (plant rnd) (mkLoop 0 0 r).

(** How a call ends: it returns, or it throws (here the [TypeError] of a
    property access on [null]). *)
Inductive Completion : Type := Returned | Threw.

(** The callback of the final [forEach] on one mounted mesh; [foliage]
    tells whether [ref !== trunkMeshRef]. The count and the matrix flag are
    set before [instanceColor!.needsUpdate = true] is reached, which throws
    when [instanceColor] is still [null]. *)
Definition finishMesh (n : nat) (foliage : bool) (m : InstancedMesh)
  : Completion * InstancedMesh :=
  let m := mkInstancedMesh (matrixAt m) (matrixNeedsUpdate m) (instanceColor m) n in
  let m := mkInstancedMesh (matrixAt m) true (instanceColor m) (count m) in
  if foliage then
    match instanceColor m with
    | Some a =>
        (Returned,
         mkInstancedMesh (matrixAt m) (matrixNeedsUpdate m)
                         (Some (mkColorAttribute (colorAt a) true)) (count m))
    | None => (Threw, m)
    end
  else (Returned, m).

Definition finishRef (n : nat) (foliage : bool) (r : option InstancedMesh)
  : Completion * option InstancedMesh :=
  match r with
  | Some m => let (c, m') := finishMesh n foliage m in (c, Some m')
  | None => (Returned, None)
  end.

(** The final [forEach] over the four refs, in the order of the array; a
    throw ends it, and the refs after the one that threw are not visited. *)
Definition finishAll (n : nat) (r : Refs) : Completion * Refs :=
  let (c, trunk) := finishRef n false (trunkMeshRef r) in
  let r := mkRefs trunk (foliageBottomRef r) (foliageMidRef r) (foliageTopRef r) in
  match c with
  | Threw => (Threw, r)
  | Returned =>
      let (c, bottom) := finishRef n true (foliageBottomRef r) in
      let r := mkRefs (trunkMeshRef r) bottom (foliageMidRef r) (foliageTopRef r) in
      match c with
      | Threw => (Threw, r)
      | Returned =>
          let (c, mid) := finishRef n true (foliageMidRef r) in
          let r := mkRefs (trunkMeshRef r) (foliageBottomRef r) mid (foliageTopRef r) in
          match c with
          | Threw => (Threw, r)
          | Returned =>
              let (c, top) := finishRef n true (foliageTopRef r) in
              (c, mkRefs (trunkMeshRef r) (foliageBottomRef r) (foliageMidRef r) top)
          end
      end
  end.

(** The whole effect: [TREE_COUNT] passes, then the final [forEach] with
    the number of trees placed. It gives how the effect ends and the meshes
    as it leaves them. *)
Definition generate (rnd : nat -> R) (r : Refs) : Completion * Refs :=
  let s := planted rnd TREE_COUNT r in
  finishAll (index s) (refs s).

(** The sample point of the pass that starts with [c] values drawn. *)
Definition sampleX (rnd : nat -> R) (c : nat) : R := (rnd c - 0.5) * TERRAIN_WIDTH.
Definition sampleZ (rnd : nat -> R) (c : nat) : R := (rnd (c + 1)%nat - 0.5) * TERRAIN_DEPTH.

(** Mesh [r], when mounted, holds at index [j] an instance with the given
    position and scale. *)
Definition hasInstance (r : option InstancedMesh) (j : nat) (pos scl : Vector3.t) : Prop :=
  match r with
  | Some m => exists t, matrixAt m j = Some t /\ position t = pos /\ scale t = scl
  | None => True
  end.

(** The four instances of index [j] make up one tree that stands at
    [(x, z)] on ground of height [y], with girth factor [s] and trunk
    height [h]. *)
Definition treeAt (r : Refs) (j : nat) (x y z s h : R) : Prop :=
  hasInstance (trunkMeshRef r) j (Vector3.mk x (y - 0.2) z) (Vector3.mk s h s)
  /\ hasInstance (foliageBottomRef r) j (Vector3.mk x (y + h * 0.5) z)
                 (Vector3.mk (s * 3.5) (s * 2.5) (s * 3.5))
  /\ hasInstance (foliageMidRef r) j (Vector3.mk x (y + h * 0.75) z)
                 (Vector3.mk (s * 2.8) (s * 2.8) (s * 2.8))
  /\ hasInstance (foliageTopRef r) j (Vector3.mk x (y + h * 0.95) z)
                 (Vector3.mk (s * 1.8) (s * 1.8) (s * 1.8)).

(** Mesh [r'] is mesh [r] with nothing written at index [j]. *)
Definition untouched (r r' : option InstancedMesh) (j : nat) : Prop :=
  match r, r' with
  | Some m, Some m' => matrixAt m' j = matrixAt m j /\ colorOf m' j = colorOf m j
  | None, None => True
  | _, _ => False
  end.

(** Mesh [r], when mounted, draws [n] instances and has its matrices
    flagged for upload. *)
Definition hasCount (r : option InstancedMesh) (n : nat) : Prop :=
  match r with
  | Some m => count m = n /\ matrixNeedsUpdate m = true
  | None => True
  end.

(** Mesh [r] is not a mounted mesh whose [instanceColor] is [null]. *)
Definition hasColor (r : option InstancedMesh) : bool :=
  match r with
  | Some m => match instanceColor m with Some _ => true | None => false end
  | None => true
  end.

(** A new mesh, on which nothing has been written yet. *)
Definition blankMesh : InstancedMesh :=
  mkInstancedMesh (fun _ => None) false None TREE_COUNT.

Definition untouchedAll (r r' : Refs) (j : nat) : Prop :=
  untouched (trunkMeshRef r) (trunkMeshRef r') j
  /\ untouched (foliageBottomRef r) (foliageBottomRef r') j
  /\ untouched (foliageMidRef r) (foliageMidRef r') j
  /\ untouched (foliageTopRef r) (foliageTopRef r') j.

End Trees.

(** ** JavaScript number operations *)

(** [Math.floor]. *)
Definition Math_floor (x : R) : Z := Int_part x.

(** Rounding towards zero. *)
Definition trunc (x : R) : Z :=
  if Rle_dec 0 x then Int_part x else (- Int_part (- x))%Z.

(** The remainder operator [a % b] on numbers: [a] less the multiple of
    [b] by the quotient rounded towards zero, so that the result has the
    sign of [a]. *)
Definition jsRem (a b : R) : R := a - b * IZR (trunc (a / b)).

(** ** Water surface (Terrain.tsx, the frame callback) *)

Module Terrain.

Definition TERRAIN_WIDTH : R := 800.
Definition TERRAIN_DEPTH : R := 800.

Record Texture : Type := mkTexture { offset : Vector2.t }.
Record Material : Type := mkMaterial { bumpMap : option Texture }.
Record Mesh : Type := mkMesh { material : option Material }.

Definition useFrame (delta : R) (waterRef : option Mesh) : option Mesh :=
  match waterRef with
  | Some w =>
      match material w with
      | Some mat =>
          match bumpMap mat with
          | Some t =>
              let x := jsRem (Vector2.x (offset t) + delta * 0.04) 1 in
              let y := jsRem (Vector2.y (offset t) + delta * 0.02) 1 in
              Some (mkMesh (Some (mkMaterial (Some (mkTexture (Vector2.mk x y))))))
          | None => waterRef
          end
      | None => waterRef
      end
  | None => waterRef
  end.

(** The offset of the bump map of the water mesh, when there is one. *)
Definition bumpOffset (waterRef : option Mesh) : option Vector2.t :=
  match waterRef with
  | Some w =>
      match material w with
      | Some mat => option_map offset (bumpMap mat)
      | None => None
      end
  | None => None
  end.

Definition runFrames (deltas : list R) (waterRef : option Mesh) : option Mesh :=
  fold_left (fun w delta => useFrame delta w) deltas waterRef.

End Terrain.

(** ** Clouds (Clouds.tsx) *)

Module Clouds.

Definition CLOUD_COUNT : nat := 3.
Definition WORLD_WIDTH : R := 800.
Definition WORLD_DEPTH : R := 800.

Record CloudParticle : Type := mkCloudParticle { x : R; y : R; z : R; scale : R }.

(** The body of the loop of a cloud's particle generator; [c] is the number
    of values [Math.random()] has returned before the pass. *)
Definition particle (rnd : nat -> R) (size : R) (c : nat) : CloudParticle :=
  let theta := rnd c * PI * 2 in
  let phi := rnd (c + 1)%nat * PI in
  let r := rnd (c + 2)%nat * size * 0.45 in
  mkCloudParticle (r * sin phi * cos theta * 2.5)
                  (r * cos phi * 0.8)
                  (r * sin phi * sin theta * 1.5)
                  (size * (0.2 + rnd (c + 3)%nat * 0.3)).

Definition particleCount (rnd : nat -> R) : Z := (60 + Math_floor (rnd 0%nat * 30))%Z.

Definition particles (rnd : nat -> R) (size : R) : list CloudParticle :=
  map (fun i => particle rnd size (1 + 4 * i)) (seq 0 (Z.to_nat (particleCount rnd))).

(** The frame callback of one cloud on the position of its group; the two
    random numbers are drawn only when the cloud wraps round. *)
Definition useFrame (speed delta : R) (rnd : nat -> R) (groupRef : option Vector3.t)
  : option Vector3.t :=
  match groupRef with
  | Some p =>
      let p := Vector3.mk (Vector3.x p) (Vector3.y p) (Vector3.z p + speed * delta) in
      if gtb (Vector3.z p) (WORLD_DEPTH / 2) then
        let p := Vector3.mk (Vector3.x p) (Vector3.y p) (- WORLD_DEPTH / 2) in
        let p := Vector3.mk ((rnd 0%nat - 0.5) * WORLD_WIDTH) (Vector3.y p) (Vector3.z p) in
        let p := Vector3.mk (Vector3.x p) (50 + rnd 1%nat * 30) (Vector3.z p) in
        Some p
      else Some p
  | None => None
  end.

(** What the list of clouds is built from, one entry per cloud. *)
Record CloudProps : Type := mkCloudProps {
  cx : R; cy : R; cz : R; speed : R; size : R
}.

Definition cloud (rnd : nat -> R) (i : nat) : CloudProps :=
  let c := (5 * i)%nat in
  mkCloudProps ((rnd c - 0.5) * 400)
               (60 + rnd (c + 1)%nat * 20)
               (-200 + rnd (c + 2)%nat * 300)
               (10 + rnd (c + 3)%nat * 5)
               (30 + rnd (c + 4)%nat * 20).

Definition clouds (rnd : nat -> R) : list CloudProps := map (cloud rnd) (seq 0 CLOUD_COUNT).

End Clouds.

(** ** Forest fire (ForestFire.tsx) *)

Module ForestFire.

Definition MOUNTAIN_X : R := 180.
Definition MOUNTAIN_Z : R := -60.
Definition BASE_HEIGHT : R := 55.

Definition CORE_COUNT : nat := 30.
Definition FLAME_COUNT : nat := 70.
Definition EMBER_COUNT : nat := 50.
Definition SMOKE_COUNT : nat := 25.

(** The data of a core, ember or smoke particle. *)
Record Particle : Type := mkParticle {
  xOffset : R;
  zOffset : R;
  speed : R;
  phase : R;
  lifeTime : R;
  maxScale : R
}.

(** The data of a flame particle. *)
Record Flame : Type := mkFlame {
  angle : R;
  radius : R;
  flameSpeed : R;
  flamePhase : R;
  flameLifeTime : R;
  flameMaxScale : R
}.

(** The generators; [rnd k] is the value the [k]-th call of
    [Math.random()] returns inside the generator. *)
Definition coreData (rnd : nat -> R) : list Particle :=
  map (fun i =>
         let c := (6 * i)%nat in
         mkParticle ((rnd c - 0.5) * 35) ((rnd (c + 1)%nat - 0.5) * 35)
                    (3.0 + rnd (c + 2)%nat * 2.0) (rnd (c + 3)%nat * 100)
                    (0.6 + rnd (c + 4)%nat * 0.4) (30 + rnd (c + 5)%nat * 20))
      (seq 0 CORE_COUNT).

Definition flameData (rnd : nat -> R) : list Flame :=
  map (fun i =>
         let c := (6 * i)%nat in
         mkFlame (rnd c * PI * 2) (rnd (c + 1)%nat * 45)
                 (2.0 + rnd (c + 2)%nat * 3.0) (rnd (c + 3)%nat * 100)
                 (1.2 + rnd (c + 4)%nat * 1.2) (45 + rnd (c + 5)%nat * 25))
      (seq 0 FLAME_COUNT).

Definition emberData (rnd : nat -> R) : list Particle :=
  map (fun i =>
         let c := (6 * i)%nat in
         mkParticle ((rnd c - 0.5) * 60) ((rnd (c + 1)%nat - 0.5) * 60)
                    (6.0 + rnd (c + 2)%nat * 8.0) (rnd (c + 3)%nat * 100)
                    (1.5 + rnd (c + 4)%nat * 1.5) (1.0 + rnd (c + 5)%nat * 1.5))
      (seq 0 EMBER_COUNT).

Definition smokeData (rnd : nat -> R) : list Particle :=
  map (fun i =>
         let c := (6 * i)%nat in
         mkParticle ((rnd c - 0.5) * 50) ((rnd (c + 1)%nat - 0.5) * 50)
                    (1.0 + rnd (c + 2)%nat * 1.0) (rnd (c + 3)%nat * 100)
                    (5.0 + rnd (c + 4)%nat * 3.0) (80 + rnd (c + 5)%nat * 50))
      (seq 0 SMOKE_COUNT).

(** A sprite: its position and its scale. Its opacity is a field of its
    material, and the sprites of one layer are all given the same material
    object. *)
Record Sprite : Type := mkSprite { position : Vector3.t; scale : Vector3.t }.

Definition setScalar (s : R) : Vector3.t := Vector3.mk s s s.

(** A layer of the fire: the sprite refs (absent until mounted) and the
    opacity of the material the sprites share. *)
Record Layer : Type := mkLayer {
  sprites : list (option Sprite);
  materialOpacity : R
}.

Definition progressOf (localT lifeTime : R) : R := jsRem localT lifeTime / lifeTime.

(** The bodies of the four [forEach] callbacks: the sprite as the callback
    leaves it, and the value it writes to the opacity of the material. *)
Definition updateCore (t : R) (d : Particle) : Sprite * R :=
  let localT := t + phase d in
  let progress := progressOf localT (lifeTime d) in
  let jitterX := sin (localT * 30) * 1.5 in
  let jitterZ := cos (localT * 25) * 1.5 in
  let alpha := sin (progress * PI) in
  (mkSprite (Vector3.mk (MOUNTAIN_X + xOffset d + jitterX)
                        (BASE_HEIGHT + progress * speed d * 20)
                        (MOUNTAIN_Z + zOffset d + jitterZ))
            (setScalar (maxScale d * alpha)),
   alpha).

Definition updateFlame (t : R) (d : Flame) : Sprite * R :=
  let localT := t + flamePhase d in
  let progress := progressOf localT (flameLifeTime d) in
  let wind := sin (t * 2 + flamePhase d) * 10 * progress in
  let turbulence := sin (localT * 5) * 5 * progress in
  let radius := radius d * (1.0 - progress * 0.4) in
  let scaleProgress := 1 - (progress - 0.2) ^ 2 in
  let alpha := Rmax 0 (1 - progress ^ 3) in
  (mkSprite (Vector3.mk (MOUNTAIN_X + cos (angle d) * radius + wind + turbulence)
                        (BASE_HEIGHT + progress * flameSpeed d * 60)
                        (MOUNTAIN_Z + sin (angle d) * radius + turbulence))
            (setScalar (flameMaxScale d * scaleProgress * (1 - progress * 0.5))),
   0.9 * alpha).

Definition updateEmber (t : R) (d : Particle) : Sprite * R :=
  let localT := t + phase d in
  let progress := progressOf localT (lifeTime d) in
  let spiralRadius := 50 * progress in
  let spiralAngle := localT * 2 in
  let flicker := 0.5 + 0.5 * sin (localT * 40) in
  (mkSprite (Vector3.mk (MOUNTAIN_X + xOffset d + cos spiralAngle * spiralRadius * 0.2)
                        (BASE_HEIGHT + progress * speed d * 60)
                        (MOUNTAIN_Z + zOffset d + sin spiralAngle * spiralRadius * 0.2))
            (setScalar (maxScale d * (1 - progress))),
   flicker * (1 - progress)).

Definition updateSmoke (t : R) (d : Particle) : Sprite * R :=
  let localT := t + phase d in
  let progress := progressOf localT (lifeTime d) in
  let windX := -40 * progress in
  let scale := maxScale d * (0.5 + progress * 1.5) in
  (mkSprite (Vector3.mk (MOUNTAIN_X + xOffset d + windX)
                        (BASE_HEIGHT + 30 + progress * speed d * 100)
                        (MOUNTAIN_Z + zOffset d))
            (setScalar scale),
   0.5 * (1 - progress)).

(** [sprites.forEach((s, i) => ...)] with [d = data[i]]: a ref that is not
    mounted is skipped; a mounted sprite without a datum makes the
    callback fail (its [d] is undefined), which is [None] here. *)
Fixpoint forEachSprite {D : Type} (update : D -> Sprite * R)
    (sprites : list (option Sprite)) (data : list D) (opacity : R)
  : option (list (option Sprite) * R) :=
  match sprites with
  | [] => Some ([], opacity)
  | None :: rest =>
      match forEachSprite update rest (tl data) opacity with
      | Some (l, o) => Some (None :: l, o)
      | None => None
      end
  | Some _ :: rest =>
      match data with
      | [] => None
      | d :: ds =>
          let '(s', alpha) := update d in
          match forEachSprite update rest ds alpha with
          | Some (l, o) => Some (Some s' :: l, o)
          | None => None
          end
      end
  end.

Definition updateLayer {D : Type} (update : D -> Sprite * R) (data : list D) (l : Layer)
  : option Layer :=
  match forEachSprite update (sprites l) data (materialOpacity l) with
  | Some (ss, o) => Some (mkLayer ss o)
  | None => None
  end.

(** The point light: its intensity and the hue, saturation and lightness
    its colour was last given. *)
Record Light : Type := mkLight {
  intensity : R;
  hue : R;
  saturation : R;
  lightness : R
}.

Definition updateLight (t rnd : R) (l : Light) : Light :=
  let noise := sin (t * 20) * 0.3 + sin (t * 45) * 0.3 + rnd * 0.4 in
  let hueShift := sin (t * 3) * 0.05 in
  mkLight (150 + noise * 50) (0.08 + hueShift) 1.0 0.5.

Record Fire : Type := mkFire {
  core : Layer;
  flames : Layer;
  embers : Layer;
  smoke : Layer;
  lightRef : option Light
}.

(** The frame callback; [t] is the elapsed clock time and [rnd] the value
    of the one call of [Math.random()]. *)
Definition useFrame (t rnd : R) (cd : list Particle) (fd : list Flame)
    (ed sd : list Particle) (f : Fire) : option Fire :=
  match updateLayer (updateCore t) cd (core f) with
  | None => None
  | Some c =>
  match updateLayer (updateFlame t) fd (flames f) with
  | None => None
  | Some fl =>
  match updateLayer (updateEmber t) ed (embers f) with
  | None => None
  | Some e =>
  match updateLayer (updateSmoke t) sd (smoke f) with
  | None => None
  | Some s => Some (mkFire c fl e s (option_map (updateLight t rnd) (lightRef f)))
  end end end end.

End ForestFire.

(** ** Camera rig (Scene.tsx, [CameraRig]) *)

Module CameraRig.

Inductive ViewMode : Type := FREE | FOLLOW.

Definition START_POS : Vector3.t := Vector3.mk (-163) 253 42.
Definition END_POS : Vector3.t := Vector3.mk (-308) 35 206.
Definition END_LOOK_TARGET : Vector3.t := Vector3.mk 0 30 0.

(** [Vector3.lerp]: move [p] towards [v] by the fraction [alpha]. *)
Definition lerpTo (p v : Vector3.t) (alpha : R) : Vector3.t :=
  Vector3.mk (Vector3.x p + (Vector3.x v - Vector3.x p) * alpha)
             (Vector3.y p + (Vector3.y v - Vector3.y p) * alpha)
             (Vector3.z p + (Vector3.z v - Vector3.z p) * alpha).

(** [Vector3.lerpVectors]. *)
Definition lerpVectors (v1 v2 : Vector3.t) (alpha : R) : Vector3.t :=
  Vector3.mk (Vector3.x v1 + (Vector3.x v2 - Vector3.x v1) * alpha)
             (Vector3.y v1 + (Vector3.y v2 - Vector3.y v1) * alpha)
             (Vector3.z v1 + (Vector3.z v2 - Vector3.z v1) * alpha).

(** The camera: where it is and the point [lookAt] last turned it to. *)
Record Camera : Type := mkCamera { position : Vector3.t; lookedAt : Vector3.t }.

(** The easing of the swoop: the smoothstep polynomial. *)
Definition easeOf (time : R) : R :=
  let progress := (time - 3.0) / 5.5 in
  progress * progress * (3 - 2 * progress).

(** The free and intro mode: the position and the look target the frame
    steers to, or [None] when the camera is left to the orbit controls. *)
Definition desired (time : R) (isAutoFlying : bool) : option (Vector3.t * Vector3.t) :=
  if ltb time 3.0 then Some (START_POS, Vector3.mk 0 0 0)
  else if ltb time 8.5 then
    let ease := easeOf time in
    Some (lerpVectors START_POS END_POS ease,
          lerpVectors (Vector3.mk 0 0 0) END_LOOK_TARGET ease)
  else if isAutoFlying then
    let hoverTime := (time - 8.5) * 0.2 in
    Some (Vector3.mk (Vector3.x END_POS + sin hoverTime * 10)
                     (Vector3.y END_POS + sin (hoverTime * 0.5) * 3)
                     (Vector3.z END_POS + cos hoverTime * 10),
          END_LOOK_TARGET)
  else None.

Section Rig.

(** The quaternion of the bird's group and [Vector3.applyQuaternion] are
    the library's. *)
Variable Quaternion : Type.
Variable applyQuaternion : Vector3.t -> Quaternion -> Vector3.t.

(** The orbit controls are the library's too. The rig writes their target
    ([controls.target.copy]) and calls [controls.update()], which moves and
    turns the camera the controls hold; that camera is the rig's, which is
    the default camera of the canvas. *)
Variable Controls : Type.
Variable setTarget : Controls -> Vector3.t -> Controls.
Variable update : Controls -> Camera -> Controls * Camera.

Record Bird : Type := mkBird { birdPosition : Vector3.t; quaternion : Quaternion }.

(** The refs of the rig. *)
Record Rig : Type := mkRig {
  cameraRef : option Camera;
  targetRef : Vector3.t;
  startTimeRef : option R;
  controlsRef : option Controls
}.

Definition useFrame (elapsedTime : R) (isAutoFlying : bool) (viewMode : ViewMode)
    (birdRef : option Bird) (r : Rig) : Rig :=
  match cameraRef r with
  | None => r
  | Some camera =>
      let start :=
        match startTimeRef r with
        | None => elapsedTime
        | Some s => s
        end in
      let time := elapsedTime - start in
      let follow :=
        match viewMode, birdRef with
        | FOLLOW, Some bird => Some bird
        | _, _ => None
        end in
      match follow with
      | Some bird =>
          let birdPos := birdPosition bird in
          let offset := applyQuaternion (Vector3.mk 0 10 (-25)) (quaternion bird) in
          let desiredPos := Vector3.add birdPos offset in
          let cameraPos := lerpTo (position camera) desiredPos 0.1 in
          let lookOffset := applyQuaternion (Vector3.mk 0 2 20) (quaternion bird) in
          let lookTarget := Vector3.add birdPos lookOffset in
          let target := lerpTo (targetRef r) lookTarget 0.1 in
          mkRig (Some (mkCamera cameraPos target)) target (Some start) (controlsRef r)
      | None =>
          match desired time isAutoFlying with
          | None => mkRig (cameraRef r) (targetRef r) (Some start) (controlsRef r)
          | Some (desiredPos, desiredLook) =>
              let cameraPos := lerpTo (position camera) desiredPos 0.05 in
              let target := lerpTo (targetRef r) desiredLook 0.05 in
              let camera := mkCamera cameraPos target in
              match controlsRef r with
              | Some controls =>
                  if isAutoFlying then
                    let controls := setTarget controls target in
                    let (controls, camera) := update controls camera in
                    mkRig (Some camera) target (Some start) (Some controls)
                  else mkRig (Some camera) target (Some start) (Some controls)
              | None => mkRig (Some camera) target (Some start) None
              end
          end
      end
  end.

End Rig.

Arguments Rig Controls : clear implicits.
Arguments mkRig {Controls}.
Arguments cameraRef {Controls}.
Arguments targetRef {Controls}.
Arguments startTimeRef {Controls}.
Arguments controlsRef {Controls}.

End CameraRig.

(** ** Camera mode button (App.tsx) *)

Module App.

Record State : Type := mkState {
  cameraMode : CameraRig.ViewMode;
  resetKey : R
}.

Definition initialState : State := mkState CameraRig.FREE 0.

Definition toggleCameraMode (s : State) : State :=
  match cameraMode s with
  | CameraRig.FREE => mkState CameraRig.FOLLOW (resetKey s)
  | CameraRig.FOLLOW => mkState CameraRig.FREE (resetKey s + 1)
  end.

End App.

(** * Properties *)

(** ** Comparison helpers *)

Lemma ltb_true (a b : R) : ltb a b = true <-> a < b.
Proof. unfold ltb; destruct (Rlt_dec a b); split; intros; try easy; lra. Qed.

Lemma ltb_false (a b : R) : ltb a b = false <-> b <= a.
Proof. unfold ltb; destruct (Rlt_dec a b); split; intros; try easy; lra. Qed.

Lemma leb_true (a b : R) : leb a b = true <-> a <= b.
Proof. unfold leb; destruct (Rle_dec a b); split; intros; try easy; lra. Qed.

Lemma leb_false (a b : R) : leb a b = false <-> b < a.
Proof. unfold leb; destruct (Rle_dec a b); split; intros; try easy; lra. Qed.

Lemma gtb_true (a b : R) : gtb a b = true <-> b < a.
Proof. apply ltb_true. Qed.

Lemma gtb_false (a b : R) : gtb a b = false <-> a <= b.
Proof. apply ltb_false. Qed.

(** ** Height field *)

Section HeightField.

Variables x z : R.

Lemma sin_cos_product_bound (a b : R) : -1 <= sin a * cos b <= 1.
Proof.
  pose proof (SIN_bound a) as Hs. pose proof (COS_bound b) as Hc.
  split; nra.
Qed.

Lemma pseudoNoise_first_term : Rabs (sin (x * 0.05) * cos (z * 0.05)) <= 1.
Proof. apply Rabs_le, sin_cos_product_bound. Qed.

Lemma pseudoNoise_second_term :
  Rabs (sin (x * 0.15 + 100) * cos (z * 0.15 + 100) * 0.5) <= 0.5.
Proof.
  pose proof (sin_cos_product_bound (x * 0.15 + 100) (z * 0.15 + 100)).
  apply Rabs_le; lra.
Qed.

Lemma pseudoNoise_range : -1.5 <= pseudoNoise x z <= 1.5.
Proof.
  unfold pseudoNoise; cbv zeta.
  pose proof (sin_cos_product_bound (x * 0.05) (z * 0.05)).
  pose proof (sin_cos_product_bound (x * 0.15 + 100) (z * 0.15 + 100)).
  lra.
Qed.

Lemma pseudoNoise_bound : Rabs (pseudoNoise x z) <= 1.5.
Proof. apply Rabs_le. pose proof pseudoNoise_range. lra. Qed.

Lemma baseTerrain_range : 3 <= baseTerrain x z <= 21.
Proof. pose proof pseudoNoise_range. unfold baseTerrain; lra. Qed.

End HeightField.

(** C9: the two terms of the pseudo-noise are bounded by 1 and by 0.5, the
    noise itself by 1.5 in absolute value, and the rolling-hill term
    [pseudoNoise x z * 6 + 12] that [getHeight] starts from lies in [3, 21],
    strictly above the water plane at -2. *)
Theorem C9_base_terrain_range (x z : R) :
  Rabs (sin (x * 0.05) * cos (z * 0.05)) <= 1
  /\ Rabs (sin (x * 0.15 + 100) * cos (z * 0.15 + 100) * 0.5) <= 0.5
  /\ Rabs (pseudoNoise x z) <= 1.5
  /\ 3 <= pseudoNoise x z * 6 + 12 <= 21
  /\ waterLevel < baseTerrain x z.
Proof.
  pose proof (baseTerrain_range x z) as Hb.
  repeat split; try apply Hb.
  - apply pseudoNoise_first_term.
  - apply pseudoNoise_second_term.
  - apply pseudoNoise_bound.
  - unfold waterLevel; lra.
Qed.

(** C2: the elevation returned by [getHeight] is never below -12. *)
Theorem C2_height_floor (x z : R) : getHeight x z >= -12.
Proof.
  unfold getHeight; cbv zeta.
  match goal with |- (if ltb ?y _ then _ else _) >= _ => destruct (ltb y (-12)) eqn:E end.
  - lra.
  - apply ltb_false in E; lra.
Qed.

(** The detail ripple added to the rolling hills stays within [-1, 1]. *)
Lemma hills_upper (x z : R) :
  baseTerrain x z + sin (x * 0.5) * cos (z * 0.5) * 1.0 <= 22.
Proof.
  pose proof (baseTerrain_range x z). pose proof (sin_cos_product_bound (x * 0.5) (z * 0.5)).
  lra.
Qed.

(** The warped lake centre is far outside the mountain's footprint. *)
Lemma lake_center_outside_mountain :
  mountainRadius <= distFromMountain (Vector3.x LAKE_CENTER) (Vector3.z LAKE_CENTER).
Proof.
  unfold distFromMountain, LAKE_CENTER, mountainRadius, mountainCenterX, mountainCenterZ,
    warpAmp, warpFreq; cbn [Vector3.x Vector3.z]; cbv zeta.
  set (a := sin _). set (b := cos _). set (c := cos _). set (d := sin _).
  pose proof (SIN_bound (-200 * 0.04)) as Ha. fold a in Ha.
  pose proof (COS_bound (80 * 0.04 * 0.7)) as Hb. fold b in Hb.
  replace 160 with (sqrt (160 * 160)) by (rewrite sqrt_square; lra).
  apply sqrt_le_1_alt.
  set (dx := -200 - (a * 40 + b * 40 * 0.5) - 250).
  assert (Hdx : dx <= -390) by (unfold dx; lra).
  set (dz := 80 - _ - -120).
  clearbody dx dz.
  pose proof (Rle_0_sqr dz) as Hdz. unfold Rsqr in Hdz.
  assert (390 * 390 <= dx * dx) by nra.
  lra.
Qed.

(** The distorted lake centre is close to the middle of the ellipse. *)
Lemma lake_center_dist :
  lakeDist (Vector3.x LAKE_CENTER) (Vector3.z LAKE_CENTER) <= 0.14.
Proof.
  unfold lakeDist, LAKE_CENTER, lakeCenterX, lakeCenterZ, lakeRadiusX, lakeRadiusZ;
    cbn [Vector3.x Vector3.z]; cbv zeta.
  pose proof (SIN_bound (80 * 0.1)) as Ha. pose proof (COS_bound (-200 * 0.1)) as Hb.
  set (a := sin _) in *. set (b := cos _) in *.
  replace 0.14 with (sqrt (0.14 * 0.14)) by (rewrite sqrt_square; lra).
  apply sqrt_le_1_alt.
  replace (-200 - -200 + a * 15) with (a * 15) by lra.
  replace (80 - 80 + b * 15) with (b * 15) by lra.
  assert (a * a <= 1) by nra. assert (b * b <= 1) by nra.
  lra.
Qed.

(** C7: at the lake centre the height field is strictly below the water
    plane at -2.0. *)
Theorem C7_lake_center_below_water :
  getHeight (Vector3.x LAKE_CENTER) (Vector3.z LAKE_CENTER) < waterLevel.
Proof.
  pose proof lake_center_outside_mountain as Hm.
  pose proof lake_center_dist as Hl.
  pose proof (hills_upper (Vector3.x LAKE_CENTER) (Vector3.z LAKE_CENTER)) as Hh.
  unfold getHeight, waterLevel; cbv zeta.
  set (X := Vector3.x LAKE_CENTER) in *. set (Z := Vector3.z LAKE_CENTER) in *.
  assert (E1 : ltb (distFromMountain X Z) mountainRadius = false) by (apply ltb_false; exact Hm).
  rewrite E1.
  assert (Hd : 0 <= lakeDist X Z) by (unfold lakeDist; cbv zeta; apply sqrt_pos).
  assert (E2 : ltb (lakeDist X Z) 1.0 = true) by (apply ltb_true; lra).
  rewrite E2.
  set (y := baseTerrain X Z + _ - _).
  assert (Hy : y < -2.0).
  { unfold y. set (d := lakeDist X Z) in *.
    assert (0.7 <= (1.0 - d) ^ 2) by nra. lra. }
  destruct (ltb y (-12)); lra.
Qed.

(** The monadic transcription of [pseudoNoise] returns the value of the
    function above and leaves the world as it was. *)
Lemma pseudoNoise_pure (x z : R) (w : Js.World) :
  Js.pseudoNoise x z w = (pseudoNoise x z, w).
Proof. reflexivity. Qed.

Lemma getHeight_pure (x z : R) (w : Js.World) :
  Js.getHeight x z w = (getHeight x z, w).
Proof.
  unfold Js.getHeight, Js.bind. rewrite pseudoNoise_pure.
  unfold getHeight, baseTerrain, distFromMountain, mountainRise, lakeDist,
    Js.Math_sin, Js.Math_cos, Js.Math_sqrt, Js.Math_abs, Js.Math_pow, Js.ret;
    cbv zeta.
  destruct (ltb (sqrt _) mountainRadius); [rewrite pseudoNoise_pure|];
    (destruct (ltb (sqrt _) 1.0); reflexivity).
Qed.

(** By contrast [Math.random()], which the flight controller and the tree
    effect call, is neither: the second of two calls in a row need not
    return what the first did, and each call changes the world. *)
Lemma Math_random_impure :
  exists w : Js.World,
    let (a, w') := Js.Math_random w in
    fst (Js.Math_random w') <> a /\ w' <> w.
Proof.
  exists (Js.mkWorld (fun k => INR k) 0 0 (fun _ => 0)). cbn. split.
  - lra.
  - intros H. discriminate H.
Qed.

(** C8: [getHeight] is pure and deterministic. Run in any world, the
    source function returns a value fixed by its two arguments (the one
    [getHeight] above gives) and leaves the world as it found it: it draws
    no random number, reads no clock and touches no variable outside
    itself. So two evaluations at the same arguments return the identical
    value, in whatever worlds they run and whatever code runs between
    them, and the two consumers, the terrain mesh ([Js.terrainVertex]) and
    the collision step of the flight controller ([Js.terrainHeight]), read
    the same height at the same coordinate. *)
Theorem C8_height_deterministic (x z : R) (p : Vector3.t) (w w' : Js.World)
    (between : Js.M unit) :
  Js.getHeight x z w = (getHeight x z, w)
  /\ fst (Js.getHeight x z w) = fst (Js.getHeight x z w')
  /\ fst (Js.bind (Js.getHeight x z) (fun a =>
            Js.bind between (fun _ =>
            Js.bind (Js.getHeight x z) (fun b => Js.ret (a, b)))) w)
     = (getHeight x z, getHeight x z)
  /\ (Vector3.x p = x -> Vector3.z p = z ->
      fst (Js.terrainHeight p w) = Vector3.y (fst (Js.terrainVertex x z w'))).
Proof.
  split; [apply getHeight_pure|]. split; [now rewrite !getHeight_pure|]. split.
  - unfold Js.bind. rewrite getHeight_pure.
    destruct (between w) as [u w1]. now rewrite getHeight_pure.
  - intros Hx Hz. unfold Js.terrainHeight, Js.terrainVertex, Js.bind, Js.ret.
    rewrite Hx, Hz, !getHeight_pure. reflexivity.
Qed.

Lemma C8_height_deterministic_witness :
  let w := Js.mkWorld (fun k => INR k) 0 0 (fun _ => 0) in
  let w' := Js.mkWorld (fun _ => 0.5) 7 12.5 (fun _ => 1) in
  fst (Js.terrainHeight (Vector3.mk 3 7 4) w) = Vector3.y (fst (Js.terrainVertex 3 4 w'))
  /\ fst (Js.bind (Js.getHeight 3 4) (fun a =>
            Js.bind (Js.bind Js.Math_random (fun v => Js.store 0 v)) (fun _ =>
            Js.bind (Js.getHeight 3 4) (fun b => Js.ret (a, b)))) w)
     = (getHeight 3 4, getHeight 3 4).
Proof.
  intros w w'.
  destruct (C8_height_deterministic 3 4 (Vector3.mk 3 7 4) w w'
              (Js.bind Js.Math_random (fun v => Js.store 0 v))) as (_ & _ & H2 & H3).
  split; [exact (H3 eq_refl eq_refl)|exact H2].
Defined.

(** ** Ripple pool *)

Section Pool.

Lemma updateAt_length k g l : List.length (updateAt k g l) = List.length l.
Proof.
  revert k; induction l as [|p l IH]; intros [|k]; cbn; auto.
Qed.

Lemma findIndex_None f l :
  findIndex f l = None <-> forall p, In p l -> f p = false.
Proof.
  induction l as [|q l IH]; cbn.
  - split; [intros _ p []|reflexivity].
  - destruct (f q) eqn:Eq.
    + split; [discriminate|]. intros H. rewrite (H q) in Eq; [discriminate|now left].
    + destruct (findIndex f l) as [k|].
      * split; [discriminate|]. intros H.
        destruct IH as [_ IH]. discriminate IH. intros p Hp; apply H; now right.
      * split; [|reflexivity]. intros _ p [<-|Hp]; [exact Eq|].
        destruct IH as [IH _]. now apply IH.
Qed.

Lemma findIndex_Some f l k :
  findIndex f l = Some k ->
  (exists p, nth_error l k = Some p /\ f p = true)
  /\ forall j q, (j < k)%nat -> nth_error l j = Some q -> f q = false.
Proof.
  revert k; induction l as [|p l IH]; cbn; [discriminate|].
  intros k. destruct (f p) eqn:Ep.
  - intros [= <-]. split; [exists p; now split|]. intros j q Hj; lia.
  - destruct (findIndex f l) as [k'|]; [|discriminate].
    intros [= <-]. destruct (IH k' eq_refl) as [Hk Hlt]. split; [exact Hk|].
    intros [|j] q Hj; cbn.
    + now intros [= <-].
    + apply Hlt; lia.
Qed.

Lemma nth_error_updateAt_same k g l p :
  nth_error l k = Some p -> nth_error (updateAt k g l) k = Some (g p).
Proof.
  revert k; induction l as [|q l IH]; intros [|k]; cbn; try discriminate.
  - now intros [= ->].
  - apply IH.
Qed.

Lemma nth_error_updateAt_other k j g l :
  j <> k -> nth_error (updateAt k g l) j = nth_error l j.
Proof.
  revert k j; induction l as [|q l IH]; intros [|k] [|j] H; cbn; auto; try lia.
Qed.

Lemma activeCount_cons p l :
  activeCount (p :: l) = ((if active p then 1 else 0) + activeCount l)%nat.
Proof. unfold activeCount; cbn. destruct (active p); reflexivity. Qed.

Lemma activeCount_le_length l : (activeCount l <= List.length l)%nat.
Proof. unfold activeCount. apply filter_length_le. Qed.

Lemma activeCount_full l :
  activeCount l = List.length l <-> forall p, In p l -> active p = true.
Proof.
  induction l as [|q l IH].
  - split; [intros _ p []|reflexivity].
  - rewrite activeCount_cons. cbn [List.length]. pose proof (activeCount_le_length l).
    destruct (active q) eqn:Eq; split.
    + intros H1 p [<-|Hp]; [exact Eq|]. apply IH; [lia|exact Hp].
    + intros H1. assert (activeCount l = List.length l) by (apply IH; intros; apply H1; now right).
      lia.
    + lia.
    + intros H1. rewrite (H1 q) in Eq; [discriminate|now left].
Qed.

Variables x z initialScale : R.

Lemma activate_active i p : active (activate i x z initialScale p) = true.
Proof. reflexivity. Qed.

(** One pass of the spawn loop activates one entry when an inactive one
    exists, and otherwise is the identity. *)
Lemma spawnWave_count pool i :
  activeCount (spawnWave x z initialScale pool i)
  = if (activeCount pool <? List.length pool)%nat
    then S (activeCount pool) else activeCount pool.
Proof.
  unfold spawnWave.
  induction pool as [|p pool IH]; [reflexivity|].
  cbn [findIndex].
  rewrite (activeCount_cons p pool). cbn [List.length].
  pose proof (activeCount_le_length pool) as Hle.
  destruct (active p) eqn:Ep; cbn [negb].
  - destruct (findIndex _ pool) as [k|]; cbn [updateAt].
    + rewrite activeCount_cons, Ep, IH.
      destruct (Nat.ltb_spec (activeCount pool) (List.length pool));
        destruct (Nat.ltb_spec (1 + activeCount pool) (S (List.length pool))); lia.
    + rewrite activeCount_cons, Ep. rewrite IH.
      destruct (Nat.ltb_spec (activeCount pool) (List.length pool));
        destruct (Nat.ltb_spec (1 + activeCount pool) (S (List.length pool))); lia.
  - cbn [updateAt]. rewrite activeCount_cons, activate_active.
    destruct (Nat.ltb_spec (0 + activeCount pool) (S (List.length pool))); lia.
Qed.

Lemma spawnWave_length pool i :
  List.length (spawnWave x z initialScale pool i) = List.length pool.
Proof.
  unfold spawnWave. destruct (findIndex _ pool); [apply updateAt_length|reflexivity].
Qed.

Lemma spawnRipple_unfold pool :
  spawnRipple x z initialScale pool = spawnWave x z initialScale pool 0.
Proof. reflexivity. Qed.

Lemma spawnRipple_length pool :
  List.length (spawnRipple x z initialScale pool) = List.length pool.
Proof. rewrite spawnRipple_unfold. apply spawnWave_length. Qed.

Lemma spawnRipple_count pool :
  activeCount (spawnRipple x z initialScale pool)
  = if (activeCount pool <? List.length pool)%nat
    then S (activeCount pool) else activeCount pool.
Proof. rewrite spawnRipple_unfold. apply spawnWave_count. Qed.

Lemma spawnRipple_full pool :
  (forall p, In p pool -> active p = true) ->
  spawnRipple x z initialScale pool = pool.
Proof.
  intros H. rewrite spawnRipple_unfold. unfold spawnWave.
  assert (E : findIndex (fun d => negb (active d)) pool = None).
  { apply findIndex_None. intros p Hp. now rewrite (H p Hp). }
  now rewrite E.
Qed.

End Pool.

Lemma spawnMany_length reqs pool :
  List.length (spawnMany reqs pool) = List.length pool.
Proof.
  unfold spawnMany. revert pool; induction reqs as [|[[x z] s] reqs IH]; intros pool; cbn [fold_left].
  - reflexivity.
  - rewrite IH. apply spawnRipple_length.
Qed.

Lemma spawnMany_count reqs pool :
  activeCount (spawnMany reqs pool)
  = Nat.min (List.length pool) (activeCount pool + List.length reqs).
Proof.
  unfold spawnMany. revert pool; induction reqs as [|[[x z] s] reqs IH]; intros pool; cbn [fold_left List.length].
  - pose proof (activeCount_le_length pool). lia.
  - rewrite IH, spawnRipple_length, spawnRipple_count.
    pose proof (activeCount_le_length pool).
    destruct (Nat.ltb_spec (activeCount pool) (List.length pool)); lia.
Qed.

Lemma tickRipple_inactive dt p : active p = false -> tickRipple dt p = p.
Proof.
  intros H. unfold tickRipple, ageRipple. now rewrite H.
Qed.

Lemma updateRipples_pool dt pool mesh :
  fst (updateRipples dt pool mesh) = map (tickRipple dt) pool.
Proof.
  revert mesh; induction pool as [|p pool IH]; intros mesh; [reflexivity|].
  destruct mesh as [|m mesh]; cbn [updateRipples map].
  - specialize (IH []). destruct (updateRipples dt pool []) as [ps ms]. cbn in *. now rewrite IH.
  - specialize (IH mesh). destruct (updateRipples dt pool mesh) as [ps ms].
    assert (E : fst (ageRipple dt p m) = tickRipple dt p).
    { unfold tickRipple, ageRipple. destruct (active p); [|reflexivity].
      cbn [life]. destruct (leb _ 0); reflexivity. }
    destruct (ageRipple dt p m) as [p' m']. cbn in *. now rewrite IH, E.
Qed.

Lemma reachablePool_length pool :
  reachablePool pool -> List.length pool = RIPPLE_CONFIG.MAX_COUNT.
Proof.
  induction 1 as [|x z s pool _ IH|dt pool _ IH].
  - reflexivity.
  - now rewrite spawnRipple_length.
  - now rewrite length_map.
Qed.

(** C3: the pool holds exactly 5 entries in every reachable state, so at
    most 5 are active; 6 spawn calls in a row (no update pass between them)
    from any reachable state leave exactly 5 active entries; and a spawn call
    on a pool with no inactive entry returns the pool as it was. *)
Theorem C3_pool_capacity :
  RIPPLE_CONFIG.MAX_COUNT = 5%nat
  /\ (forall pool, reachablePool pool ->
        List.length pool = 5%nat /\ (activeCount pool <= 5)%nat)
  /\ (forall pool reqs, reachablePool pool -> List.length reqs = 6%nat ->
        activeCount (spawnMany reqs pool) = 5%nat
        /\ List.length (spawnMany reqs pool) = 5%nat)
  /\ activeCount
       (spawnMany [(1, 1, 1.2); (2, 1, 1.2); (3, 1, 1.2); (4, 1, 1.2); (5, 1, 1.2); (6, 1, 1.2)]
                  initialPool) = 5%nat
  /\ (forall pool x z s, (forall p, In p pool -> active p = true) ->
        spawnRipple x z s pool = pool).
Proof.
  split; [reflexivity|]. split; [|split; [|split]].
  - intros pool H. pose proof (reachablePool_length pool H) as HL.
    pose proof (activeCount_le_length pool). change RIPPLE_CONFIG.MAX_COUNT with 5%nat in HL.
    lia.
  - intros pool reqs H Hr. pose proof (reachablePool_length pool H) as HL.
    change RIPPLE_CONFIG.MAX_COUNT with 5%nat in HL.
    rewrite spawnMany_count, spawnMany_length, Hr, HL. lia.
  - rewrite spawnMany_count. reflexivity.
  - intros pool x z s H. now apply spawnRipple_full.
Qed.

Lemma C3_pool_capacity_witness :
  activeCount (spawnMany (repeat (0, 0, 1.2) 6) (spawnRipple 3 4 0.4 initialPool)) = 5%nat
  /\ spawnRipple 0 0 1.2 (spawnMany (repeat (0, 0, 1.2) 6) initialPool)
     = spawnMany (repeat (0, 0, 1.2) 6) initialPool.
Proof.
  destruct C3_pool_capacity as (_ & _ & H6 & _ & Hfull). split.
  - apply (H6 (spawnRipple 3 4 0.4 initialPool) (repeat (0, 0, 1.2) 6)).
    + apply reach_spawn, reach_init.
    + reflexivity.
  - apply Hfull. intros p Hp. cbv in Hp.
    repeat (destruct Hp as [<-|Hp]; [reflexivity|]). destruct Hp.
Defined.

Lemma findIndex_firstInactive pool k :
  findIndex (fun d => negb (active d)) pool = Some k <-> firstInactive pool k.
Proof.
  split.
  - intros H. apply findIndex_Some in H. destruct H as [(p & Hp & Ha) Hlt]. split.
    + exists p. split; [exact Hp|]. now destruct (active p).
    + intros j q Hj Hq. specialize (Hlt j q Hj Hq). now destruct (active q).
  - intros [(p & Hp & Ha) Hlt].
    destruct (findIndex (fun d => negb (active d)) pool) as [k'|] eqn:E.
    + apply findIndex_Some in E. destruct E as [(p' & Hp' & Ha') Hlt'].
      f_equal. destruct (Nat.lt_total k' k) as [Hk|[Hk|Hk]]; [|exact Hk|].
      * cbn beta in Ha'. rewrite (Hlt k' p' Hk Hp') in Ha'. discriminate.
      * specialize (Hlt' k p Hk Hp). cbn beta in Hlt'. rewrite Ha in Hlt'. discriminate.
    + rewrite findIndex_None in E. apply nth_error_In in Hp. apply E in Hp.
      cbn beta in Hp. rewrite Ha in Hp. discriminate.
Qed.

(** C10: a call of [spawnRipple] leaves every entry that was active before
    the call exactly as it was (position, scale, life, maxLife and flag);
    the only entry it writes is the first inactive one, when there is one,
    and every other entry, active or not, is unchanged. *)
Theorem C10_spawn_frame (x z s : R) (pool : list Ripple) (k : nat) (p : Ripple) :
  nth_error pool k = Some p ->
  (active p = true -> nth_error (spawnRipple x z s pool) k = Some p)
  /\ (~ firstInactive pool k -> nth_error (spawnRipple x z s pool) k = Some p)
  /\ (firstInactive pool k ->
      nth_error (spawnRipple x z s pool) k
      = Some (mkRipple (Vector3.mk x (-1.9) z) (s * (0.8 + 0 * 0.2))
                       (RIPPLE_CONFIG.LIFE_DURATION + 0 * 0.5)
                       (RIPPLE_CONFIG.LIFE_DURATION + 0 * 0.5) true)).
Proof.
  intros Hk.
  assert (Hother : ~ firstInactive pool k -> nth_error (spawnRipple x z s pool) k = Some p).
  { intros Hn. rewrite spawnRipple_unfold. unfold spawnWave.
    destruct (findIndex _ pool) as [k'|] eqn:E; [|exact Hk].
    rewrite nth_error_updateAt_other; [exact Hk|].
    intros ->. apply Hn. now apply findIndex_firstInactive. }
  split; [|split].
  - intros Ha. apply Hother. intros [(q & Hq & Hqa) _].
    rewrite Hk in Hq. injection Hq as <-. rewrite Ha in Hqa. discriminate.
  - exact Hother.
  - intros Hf. apply findIndex_firstInactive in Hf.
    rewrite spawnRipple_unfold. unfold spawnWave. rewrite Hf.
    rewrite (nth_error_updateAt_same k _ pool p Hk). reflexivity.
Qed.

Lemma C10_spawn_frame_witness :
  let busy := mkRipple (Vector3.mk 1 (-1.9) 2) 3 1.5 2 true in
  let pool := [busy; freshRipple; busy; freshRipple; freshRipple] in
  nth_error (spawnRipple 7 8 1.2 pool) 2 = Some busy
  /\ nth_error (spawnRipple 7 8 1.2 pool) 3 = Some freshRipple
  /\ nth_error (spawnRipple 7 8 1.2 pool) 1
     = Some (mkRipple (Vector3.mk 7 (-1.9) 8) (1.2 * (0.8 + 0 * 0.2))
                      (RIPPLE_CONFIG.LIFE_DURATION + 0 * 0.5)
                      (RIPPLE_CONFIG.LIFE_DURATION + 0 * 0.5) true).
Proof.
  intros busy pool. split; [|split].
  - destruct (C10_spawn_frame 7 8 1.2 pool 2 busy eq_refl) as (H & _ & _).
    apply H; reflexivity.
  - destruct (C10_spawn_frame 7 8 1.2 pool 3 freshRipple eq_refl) as (_ & H & _).
    apply H. intros [_ H']. specialize (H' 1%nat freshRipple). cbn in H'.
    assert (false = true) by (apply H'; [lia|reflexivity]). discriminate.
  - destruct (C10_spawn_frame 7 8 1.2 pool 1 freshRipple eq_refl) as (_ & _ & H).
    apply H. split.
    + exists freshRipple. split; reflexivity.
    + intros [|[|j]] q Hj Hq; cbn in Hq; [now injection Hq as <-|lia|lia].
Defined.

Lemma tickRipple_age dt p m : fst (ageRipple dt p m) = tickRipple dt p.
Proof.
  unfold tickRipple, ageRipple. destruct (active p); [|reflexivity].
  cbn [life]. destruct (leb _ 0); reflexivity.
Qed.

Lemma tickMany_inactive dts pool k p :
  nth_error pool k = Some p -> active p = false ->
  nth_error (tickMany dts pool) k = Some p.
Proof.
  unfold tickMany. revert pool; induction dts as [|dt dts IH]; intros pool Hk Ha; cbn [fold_left].
  - exact Hk.
  - apply IH; [|exact Ha]. rewrite nth_error_map, Hk. cbn. now rewrite tickRipple_inactive.
Qed.

(** C4: one pass of the update loop with time step [dt] takes
    [dt * FADE_SPEED] off the life of every active entry and adds
    [dt * EXPANSION_SPEED] to its scale; the entry is deactivated exactly
    when the new life is at or below zero, and its scale is then 0; an
    entry that stays active is drawn with brightness
    [max 0 (life / maxLife) * BASE_OPACITY]; an inactive entry is left as
    it is by any number of passes. *)
Theorem C4_pool_tick (dt : R) (p : Ripple) (m : Instance) :
  let life' := life p - dt * RIPPLE_CONFIG.FADE_SPEED in
  let p' := fst (ageRipple dt p m) in
  let m' := snd (ageRipple dt p m) in
  (active p = true ->
     life p' = life'
     /\ maxLife p' = maxLife p /\ pos p' = pos p
     /\ (active p' = false <-> life' <= 0)
     /\ (life' <= 0 -> scale p' = 0 /\ matrix m' = None)
     /\ (0 < life' ->
         active p' = true
         /\ scale p' = scale p + dt * RIPPLE_CONFIG.EXPANSION_SPEED
         /\ brightness m' = Rmax 0 (life p' / maxLife p') * RIPPLE_CONFIG.BASE_OPACITY
         /\ matrix m' = Some (pos p', scale p')))
  /\ (active p = false -> p' = p /\ matrix m' = None)
  /\ (forall pool mesh k,
        nth_error pool k = Some p ->
        nth_error (fst (updateRipples dt pool mesh)) k = Some p')
  /\ (forall dts pool k,
        nth_error pool k = Some p -> active p = false ->
        nth_error (tickMany dts pool) k = Some p).
Proof.
  cbv zeta. split; [|split; [|split]].
  - intros Ha. unfold ageRipple. rewrite Ha. cbn [life scale pos maxLife active].
    destruct (leb (life p - dt * RIPPLE_CONFIG.FADE_SPEED) 0) eqn:E; cbn.
    + apply leb_true in E. repeat split; intros; auto; try lra.
    + apply leb_false in E. repeat split; intros; auto; try lra; try discriminate.
  - intros Ha. unfold ageRipple. rewrite Ha. now split.
  - intros pool mesh k Hk. rewrite updateRipples_pool, nth_error_map, Hk. cbn.
    now rewrite tickRipple_age.
  - intros dts pool k. apply tickMany_inactive.
Qed.

Lemma C4_pool_tick_witness :
  let p := mkRipple (Vector3.mk 1 (-1.9) 2) 3 1 2 true in
  let q := mkRipple (Vector3.mk 1 (-1.9) 2) 0 (-0.1) 2 false in
  (active (fst (ageRipple 0.5 p (mkInstance None 0))) = true
   /\ scale (fst (ageRipple 0.5 p (mkInstance None 0))) = 3 + 0.5 * RIPPLE_CONFIG.EXPANSION_SPEED)
  /\ (scale (fst (ageRipple 1 p (mkInstance None 0))) = 0)
  /\ nth_error (tickMany [0.5; 0.5] [p; q]) 1 = Some q.
Proof.
  intros p q. split; [|split].
  - destruct (C4_pool_tick 0.5 p (mkInstance None 0)) as (H & _).
    destruct (H eq_refl) as (_ & _ & _ & _ & _ & H').
    assert (Hpos : 0 < life p - 0.5 * RIPPLE_CONFIG.FADE_SPEED)
      by (unfold RIPPLE_CONFIG.FADE_SPEED; cbn; lra).
    destruct (H' Hpos) as (H1 & H2 & _). split; assumption.
  - destruct (C4_pool_tick 1 p (mkInstance None 0)) as (H & _).
    destruct (H eq_refl) as (_ & _ & _ & _ & H' & _).
    apply H'. unfold RIPPLE_CONFIG.FADE_SPEED; cbn; lra.
  - destruct (C4_pool_tick 0.5 q (mkInstance None 0)) as (_ & _ & _ & H).
    apply (H [0.5; 0.5] [p; q] 1%nat); reflexivity.
Defined.

(** ** Frame callback: its stages *)

Section FrameStages.

Variables (f : Frame) (v : View) (g : Group) (a : Actor).
Hypothesis mounted : groupRef v = Some g.

Lemma useFrame_state : state (snd (useFrame f v a)) = nextState (frameDecision f a).
Proof.
  unfold useFrame, frameDecision. rewrite mounted.
  destruct (rippleTrigger _ _ _ _ _) as [last pool].
  destruct (terrainCollision _ _ _ _) as [cp cv].
  destruct (ripplesRef v) as [mesh|]; [destruct (updateRipples _ _ _)|]; reflexivity.
Qed.

Lemma useFrame_lastSplashTime :
  lastSplashTime (snd (useFrame f v a)) = nextLast (frameDecision f a).
Proof.
  unfold useFrame, frameDecision. rewrite mounted.
  destruct (rippleTrigger _ _ _ _ _) as [last pool].
  destruct (terrainCollision _ _ _ _) as [cp cv].
  destruct (ripplesRef v) as [mesh|]; [destruct (updateRipples _ _ _)|]; reflexivity.
Qed.

Lemma useFrame_rippleData :
  rippleData (snd (useFrame f v a))
  = match ripplesRef v with
    | Some _ => map (tickRipple (frameDt f)) (framePool f a)
    | None => framePool f a
    end.
Proof.
  unfold useFrame, framePool, frameDecision, frameDt. rewrite mounted.
  destruct (rippleTrigger _ _ _ _ _) as [last pool].
  destruct (terrainCollision _ _ _ _) as [cp cv].
  destruct (ripplesRef v) as [mesh|]; [|reflexivity].
  rewrite <- (updateRipples_pool _ _ mesh).
  destruct (updateRipples _ _ _); reflexivity.
Qed.

Lemma useFrame_kinematics :
  (position (snd (useFrame f v a)), velocity (snd (useFrame f v a)))
  = terrainCollision (state a) (integratedPosition f a) (steeredVelocity f a) (frameDt f).
Proof.
  unfold useFrame, integratedPosition, steeredVelocity, frameDecision, frameDt.
  rewrite mounted.
  destruct (rippleTrigger _ _ _ _ _) as [last pool].
  destruct (terrainCollision _ _ _ _) as [cp cv].
  destruct (ripplesRef v) as [mesh|]; [destruct (updateRipples _ _ _)|]; reflexivity.
Qed.

End FrameStages.

Lemma useFrame_unmounted f v a : groupRef v = None -> useFrame f v a = (v, a).
Proof. intros H. unfold useFrame. now rewrite H. Qed.

(** ** Splash trigger in [DIVE_LAKE] *)

Section DiveLake.

Variables (f : Frame) (a : Actor).
Hypothesis diving : state a = DIVE_LAKE.

Let px := Vector3.x (position a).
Let pz := Vector3.z (position a).

Lemma trigger_implies_exit :
  rippleTriggerFires (state a) (position a) (clock f) (lastSplashTime a) = true ->
  diveLakeExit (position a) = true.
Proof.
  unfold rippleTriggerFires, diveLakeExit. intros H.
  apply andb_prop in H as [H _]. apply andb_prop in H as [_ H].
  apply ltb_true in H.
  assert (E : leb (Vector3.y (position a)) (-1.5) = true) by (apply leb_true; lra).
  now rewrite E.
Qed.

Lemma diveLake_decision :
  nextPool (frameDecision f a)
  = (if diveLakeSplash f a
     then spawnRipple px pz RIPPLE_CONFIG.ENTRY_SCALE (rippleData a)
     else rippleData a)
  /\ nextLast (frameDecision f a)
     = (if diveLakeSplash f a then clock f else lastSplashTime a)
  /\ nextState (frameDecision f a)
     = (if diveLakeExit (position a) then SKIM else DIVE_LAKE).
Proof.
  pose proof trigger_implies_exit as Hte.
  unfold frameDecision, rippleTrigger, diveLakeSplash, px, pz.
  destruct (rippleTriggerFires _ _ _ _) eqn:Et.
  - specialize (Hte eq_refl). rewrite diving in *. cbn [BirdState_eqb andb orb stateMachine].
    unfold diveLakeExit in Hte. unfold Vector3.set. rewrite Hte.
    assert (E : gtb (clock f - clock f) 2.0 = false) by (apply gtb_false; lra).
    rewrite E. cbn. unfold diveLakeExit. rewrite Hte. repeat split.
  - clear Hte. rewrite diving. cbn [BirdState_eqb andb orb stateMachine].
    unfold diveLakeExit, Vector3.set.
    destruct (leb _ _ || ltb _ _); [|repeat split].
    destruct (gtb _ _); repeat split.
Qed.

End DiveLake.

(** C5 (as the code has it): in a frame that starts in [DIVE_LAKE],
    [spawnRipple] is called at most once, and only when the time since the
    last splash exceeds 2.0 and either the trigger's gate holds (horizontal
    distance to the entry point below 25 and altitude below -1.5) or the
    exit test of the state holds (altitude at most -1.5, or within 20 of the
    dive target); the call stamps [lastSplashTime] with the frame's time, so
    a second [DIVE_LAKE] frame no more than 2.0 later calls nothing, and two
    attempts within the cooldown leave one new ripple. *)
Theorem C5_dive_lake_cooldown (f : Frame) (v : View) (g : Group) (a : Actor) :
  groupRef v = Some g ->
  state a = DIVE_LAKE ->
  let a' := snd (useFrame f v a) in
  let px := Vector3.x (position a) in
  let pz := Vector3.z (position a) in
  framePool f a
  = (if diveLakeSplash f a
     then spawnRipple px pz RIPPLE_CONFIG.ENTRY_SCALE (rippleData a)
     else rippleData a)
  /\ lastSplashTime a' = (if diveLakeSplash f a then clock f else lastSplashTime a)
  /\ (diveLakeSplash f a = true ->
      clock f - lastSplashTime a > 2.0
      /\ ((distToEntry (position a) < 25 /\ Vector3.y (position a) < -1.5)
          \/ (Vector3.y (position a) <= -1.5
              \/ Vector3.distanceTo (position a) (Vector3.mk (-180) (-3.0) 70) < 20)))
  /\ (clock f - lastSplashTime a <= 2.0 ->
      diveLakeSplash f a = false /\ framePool f a = rippleData a)
  /\ (forall f2 a2,
        diveLakeSplash f a = true ->
        state a2 = DIVE_LAKE ->
        lastSplashTime a2 = lastSplashTime a' ->
        clock f2 - clock f <= 2.0 ->
        diveLakeSplash f2 a2 = false /\ framePool f2 a2 = rippleData a2).
Proof.
  intros Hm Hs a' px pz.
  destruct (diveLake_decision f a Hs) as (Hpool & Hlast & _).
  assert (Hgate : forall f0 a0, state a0 = DIVE_LAKE ->
            clock f0 - lastSplashTime a0 <= 2.0 -> diveLakeSplash f0 a0 = false).
  { intros f0 a0 Hs0 Hc. unfold diveLakeSplash, rippleTriggerFires.
    assert (E : gtb (clock f0 - lastSplashTime a0) 2.0 = false) by (apply gtb_false; lra).
    rewrite E, !andb_false_r. reflexivity. }
  assert (Hquiet : forall f0 a0, state a0 = DIVE_LAKE ->
            diveLakeSplash f0 a0 = false -> framePool f0 a0 = rippleData a0).
  { intros f0 a0 Hs0 Hd. unfold framePool.
    destruct (diveLake_decision f0 a0 Hs0) as (Hp0 & _). now rewrite Hp0, Hd. }
  split; [exact Hpool|]. split.
  { unfold a'. rewrite (useFrame_lastSplashTime f v g a Hm). exact Hlast. }
  split; [|split].
  - intros Hd. unfold diveLakeSplash in Hd. rewrite Hs in Hd. cbn [BirdState_eqb andb] in Hd.
    apply orb_prop in Hd as [Hd|Hd].
    + unfold rippleTriggerFires in Hd.
      apply andb_prop in Hd as [Hd Hc]. apply andb_prop in Hd as [Hd Hy].
      apply andb_prop in Hd as [_ Hx].
      apply gtb_true in Hc. apply ltb_true in Hy. apply ltb_true in Hx.
      split; [lra|]. left; split; assumption.
    + apply andb_prop in Hd as [He Hc]. apply gtb_true in Hc. split; [lra|]. right.
      unfold diveLakeExit in He. apply orb_prop in He as [He|He].
      * left. now apply leb_true in He.
      * right. apply ltb_true in He. unfold skimStart, LAKE_CENTER in He.
        cbn [Vector3.x Vector3.z] in He.
        replace (-200 + 20) with (-180) in He by lra.
        replace (80 - 10) with 70 in He by lra. exact He.
  - intros Hc. pose proof (Hgate f a Hs Hc) as Hd. split; [exact Hd|]. now apply Hquiet.
  - intros f2 a2 Hd Hs2 Hl2 Hc.
    assert (Hd2 : diveLakeSplash f2 a2 = false).
    { apply Hgate; [exact Hs2|]. rewrite Hl2. unfold a'.
      rewrite (useFrame_lastSplashTime f v g a Hm), Hlast, Hd. lra. }
    split; [exact Hd2|]. now apply Hquiet.
Qed.

Lemma tickRipple_alive dt p :
  active p = true -> 0 < life p - dt * RIPPLE_CONFIG.FADE_SPEED ->
  active (tickRipple dt p) = true.
Proof.
  intros Ha Hl. unfold tickRipple, ageRipple. rewrite Ha. cbn [life].
  assert (E : leb (life p - dt * RIPPLE_CONFIG.FADE_SPEED) 0 = false) by (apply leb_false; lra).
  rewrite E. reflexivity.
Qed.

Lemma C5_dive_lake_cooldown_witness :
  let a := mkActor DIVE_LAKE (Vector3.mk (-60) (-40) 0) (Vector3.mk (-100) (-2) 70) (-2)
                   (Vector3.mk (-180) (-3) 70) 16 initialPool in
  let f := mkFrame (1 / 60) 17.5 0.5 in
  let v := mkView (Some (mkGroup (position a) (position a) 0)) None None in
  diveLakeSplash f a = false /\ framePool f a = rippleData a.
Proof.
  intros a f v.
  destruct (C5_dive_lake_cooldown f v (mkGroup (position a) (position a) 0) a eq_refl eq_refl)
    as (_ & _ & _ & H & _).
  apply H. cbn. lra.
Defined.

(** C5, as stated, fails: a frame that starts in [DIVE_LAKE] at altitude -2
    and 80 units (horizontally) from the lake entry point, 17.5 s after the
    last splash, spawns a ripple through the exit branch of the state,
    although the horizontal distance is not below the threshold of 25. *)
Lemma C5_counterexample :
  let a := mkActor DIVE_LAKE (Vector3.mk (-60) (-40) 0) (Vector3.mk (-100) (-2) 70) (-2)
                   (Vector3.mk (-180) (-3) 70) 0 initialPool in
  let f := mkFrame (1 / 60) 17.5 0.5 in
  let v := mkView (Some (mkGroup (position a) (position a) 0))
                  (Some (repeat (mkInstance None 0) 5)) None in
  let a' := snd (useFrame f v a) in
  state a = DIVE_LAKE
  /\ activeCount (rippleData a) = 0%nat
  /\ activeCount (rippleData a') = 1%nat
  /\ distToEntry (position a) = 80
  /\ ~ (distToEntry (position a) < 25
        /\ Vector3.y (position a) < -1.5
        /\ clock f - lastSplashTime a > 2.0).
Proof.
  intros a f v a'.
  assert (Hd : distToEntry (position a) = 80).
  { unfold distToEntry, skimStart, LAKE_CENTER. cbn [a position Vector3.x Vector3.z].
    replace ((-100 - (-200 + 20)) ^ 2 + (70 - (80 - 10)) ^ 2) with (80 * 80) by lra.
    apply sqrt_square; lra. }
  split; [reflexivity|]. split; [reflexivity|]. split; [|split; [exact Hd|]].
  - unfold a'.
    rewrite (useFrame_rippleData f v _ a eq_refl). cbn [ripplesRef v].
    assert (Hs : diveLakeSplash f a = true).
    { unfold diveLakeSplash. cbn [a state BirdState_eqb andb].
      assert (E1 : diveLakeExit (position a) = true).
      { unfold diveLakeExit. cbn [a position Vector3.y].
        assert (E : leb (-2) (-1.5) = true) by (apply leb_true; lra). now rewrite E. }
      assert (E2 : gtb (clock f - lastSplashTime a) 2.0 = true) by (apply gtb_true; cbn; lra).
      rewrite E1, E2. apply orb_true_r. }
    destruct (diveLake_decision f a eq_refl) as (Hp & _).
    unfold framePool. rewrite Hp, Hs. cbn [a rippleData position Vector3.x Vector3.z].
    change (spawnRipple (-100) 70 RIPPLE_CONFIG.ENTRY_SCALE initialPool)
      with (activate 0 (-100) 70 RIPPLE_CONFIG.ENTRY_SCALE freshRipple
              :: repeat freshRipple 4).
    cbn [map repeat]. rewrite !activeCount_cons.
    rewrite tickRipple_alive; [reflexivity|reflexivity|].
    unfold frameDt, Rmin. cbn [f delta activate freshRipple life maxLife].
    unfold RIPPLE_CONFIG.LIFE_DURATION, RIPPLE_CONFIG.FADE_SPEED.
    destruct (Rle_dec (1 / 60) 0.1); cbn; lra.
  - rewrite Hd. intros [H _]. lra.
Qed.

(** ** Vectors *)

Lemma lengthSq_nonneg v : 0 <= Vector3.lengthSq v.
Proof. unfold Vector3.lengthSq. nra. Qed.

Lemma length_nonneg v : 0 <= Vector3.length v.
Proof. apply sqrt_pos. Qed.

Lemma length_sqr v : Vector3.length v * Vector3.length v = Vector3.lengthSq v.
Proof. apply sqrt_sqrt, lengthSq_nonneg. Qed.

Lemma normalize_components v :
  let n := Vector3.normalize v in
  -1 <= Vector3.x n <= 1 /\ -1 <= Vector3.y n <= 1 /\ -1 <= Vector3.z n <= 1.
Proof.
  cbv zeta. unfold Vector3.normalize, Vector3.divideScalar, Vector3.multiplyScalar, orOne.
  cbn [Vector3.x Vector3.y Vector3.z].
  pose proof (length_nonneg v) as HL. pose proof (length_sqr v) as HS.
  set (L := Vector3.length v) in *.
  unfold Vector3.lengthSq in HS.
  destruct (Req_dec_T L 0) as [E|E].
  - rewrite E in HS.
    assert (Vector3.x v = 0 /\ Vector3.y v = 0 /\ Vector3.z v = 0) as (-> & -> & ->)
      by (repeat split; nra).
    repeat split; lra.
  - assert (HLpos : 0 < L) by lra.
    assert (Hinv : 0 < 1 / L) by (apply Rdiv_lt_0_compat; lra).
    assert (HLi : L * (1 / L) = 1) by (field; lra).
    set (i := 1 / L) in *.
    assert (Hx : -L <= Vector3.x v <= L) by (split; nra).
    assert (Hy : -L <= Vector3.y v <= L) by (split; nra).
    assert (Hz : -L <= Vector3.z v <= L) by (split; nra).
    repeat split; nra.
Qed.

(** ** Terrain collision *)

Lemma safeAltitude_floor s h : -2.5 <= safeAltitude s h.
Proof.
  unfold safeAltitude, waterLevel.
  destruct (ltb h (-2.0)) eqn:E.
  - destruct s; lra.
  - apply ltb_false in E. destruct s; lra.
Qed.

Lemma terrainCollision_horizontal s p vel dt :
  Vector3.x (fst (terrainCollision s p vel dt)) = Vector3.x p
  /\ Vector3.z (fst (terrainCollision s p vel dt)) = Vector3.z p.
Proof.
  unfold terrainCollision. destruct (ltb _ _); split; reflexivity.
Qed.

Lemma terrainCollision_height s p vel dt :
  terrainHeightAt (fst (terrainCollision s p vel dt)) = terrainHeightAt p.
Proof.
  unfold terrainHeightAt. destruct (terrainCollision_horizontal s p vel dt) as [-> ->].
  reflexivity.
Qed.

(** C1 (as the code has it): at the end of a frame with [0 <= delta <= 0.1]
    the horizontal position is the integrated one; the altitude is the
    integrated altitude when that is not below the safe threshold for the
    position, and otherwise it is moved towards the threshold by the
    fraction [10 * delta] of the gap, ending between the integrated altitude
    and the threshold (on it when [delta = 0.1]), with a downward vertical
    velocity halved. *)
Theorem C1_altitude_eased (f : Frame) (v : View) (g : Group) (a : Actor) :
  groupRef v = Some g ->
  0 <= delta f <= 0.1 ->
  let a' := snd (useFrame f v a) in
  let p := integratedPosition f a in
  let w := steeredVelocity f a in
  let safe := safeAltitude (state a) (terrainHeightAt (position a')) in
  Vector3.x (position a') = Vector3.x p
  /\ Vector3.z (position a') = Vector3.z p
  /\ (safe <= Vector3.y p ->
      Vector3.y (position a') = Vector3.y p /\ velocity a' = w)
  /\ (Vector3.y p < safe ->
      Vector3.y (position a') = Vector3.y p + (safe - Vector3.y p) * (10 * delta f)
      /\ Vector3.y p <= Vector3.y (position a') <= safe
      /\ safe - Vector3.y (position a') = (1 - 10 * delta f) * (safe - Vector3.y p)
      /\ Vector3.y (velocity a')
         = (if ltb (Vector3.y w) 0 then Vector3.y w * 0.5 else Vector3.y w))
  /\ (safe <= Vector3.y p \/ delta f = 0.1 -> safe <= Vector3.y (position a')).
Proof.
  intros Hm Hd a' p w safe.
  pose proof (useFrame_kinematics f v g a Hm) as Hk.
  fold a' p w in Hk.
  assert (Hp : position a' = fst (terrainCollision (state a) p w (frameDt f)))
    by (now rewrite <- Hk).
  assert (Hv : velocity a' = snd (terrainCollision (state a) p w (frameDt f)))
    by (now rewrite <- Hk).
  assert (Hs : safe = safeAltitude (state a) (terrainHeightAt p)).
  { unfold safe. now rewrite Hp, terrainCollision_height. }
  assert (Hdt : frameDt f = delta f).
  { unfold frameDt, Rmin. destruct (Rle_dec (delta f) 0.1); lra. }
  rewrite Hp, Hv, Hs, Hdt. clear Hk Hp Hv Hs.
  unfold terrainCollision.
  set (sf := safeAltitude (state a) (terrainHeightAt p)).
  destruct (ltb (Vector3.y p) sf) eqn:E; cbn [fst snd Vector3.setY Vector3.x Vector3.y Vector3.z].
  - apply ltb_true in E. unfold lerp.
    split; [reflexivity|]. split; [reflexivity|]. split; [intros; lra|]. split.
    + intros _. split; [lra|]. split; [split; nra|]. split; [lra|].
      destruct (ltb (Vector3.y w) 0); reflexivity.
    + intros [H|H]; [lra|]. rewrite H. lra.
  - apply ltb_false in E.
    split; [reflexivity|]. split; [reflexivity|]. split; [intros; now split|].
    split; [intros; lra|]. intros _. exact E.
Qed.

Lemma terrainCollision_eased s p vel dt :
  Vector3.y p < safeAltitude s (terrainHeightAt p) ->
  dt * 10 < 1 ->
  Vector3.y (fst (terrainCollision s p vel dt))
  < safeAltitude s (terrainHeightAt (fst (terrainCollision s p vel dt))).
Proof.
  intros Hy Hdt. rewrite terrainCollision_height.
  unfold terrainCollision.
  assert (E : ltb (Vector3.y p) (safeAltitude s (terrainHeightAt p)) = true)
    by now apply ltb_true.
  rewrite E. cbn [fst Vector3.setY Vector3.y]. unfold lerp. nra.
Qed.

Lemma C1_altitude_eased_witness :
  let a := mkActor SKIM (Vector3.mk 30 (-40) (-10)) (Vector3.mk (-165) (-2) 75) (-2)
                   (Vector3.mk (-125) (-1.2) 50) 0 initialPool in
  let f := mkFrame 0.1 18.5 0.5 in
  let v := mkView (Some (mkGroup (position a) (position a) 0)) None None in
  let a' := snd (useFrame f v a) in
  safeAltitude (state a) (terrainHeightAt (position a')) <= Vector3.y (position a').
Proof.
  intros a f v a'.
  assert (Hd : 0 <= delta f <= 0.1) by (cbn; lra).
  destruct (C1_altitude_eased f v (mkGroup (position a) (position a) 0) a eq_refl Hd)
    as (_ & _ & _ & _ & H).
  apply H. right. reflexivity.
Defined.

(** The steering step on a velocity that stays within the desired speed. *)
Lemma steerVelocity_unclamped tgt p vel ds ts dt :
  let dir := Vector3.normalize (Vector3.subVectors tgt p) in
  let v1 := Vector3.add vel
              (Vector3.multiplyScalar
                 (Vector3.sub (Vector3.multiplyScalar dir ds) vel) (ts * dt)) in
  0 <= ds -> Vector3.lengthSq v1 <= ds * ds ->
  steerVelocity tgt p vel ds ts dt = v1.
Proof.
  intros dir v1 Hds Hl. unfold steerVelocity. fold dir. fold v1.
  assert (E : gtb (Vector3.length v1) ds = false).
  { apply gtb_false. unfold Vector3.length.
    rewrite <- (sqrt_square ds Hds). now apply sqrt_le_1_alt. }
  now rewrite E.
Qed.

(** C1, as stated, fails: a frame at 60 frames per second that starts in
    [SKIM] at the water plane with a downward velocity ends with the
    altitude still below the safe threshold of its position, because the
    collision step only moves the altitude a sixth of the way up. *)
Lemma C1_counterexample :
  let a := mkActor SKIM (Vector3.mk 30 (-40) (-10)) (Vector3.mk (-165) (-2) 75) (-2)
                   (Vector3.mk (-125) (-1.2) 50) 0 initialPool in
  let f := mkFrame (1 / 60) 18.5 0.5 in
  let v := mkView (Some (mkGroup (position a) (position a) 0))
                  (Some (repeat (mkInstance None 0) 5)) None in
  let a' := snd (useFrame f v a) in
  0 < delta f <= 0.1
  /\ Vector3.y (position a') < safeAltitude (state a) (terrainHeightAt (position a')).
Proof.
  intros a f v a'. split; [cbn; lra|].
  pose proof (useFrame_kinematics f v _ a eq_refl) as Hk. fold a' in Hk.
  assert (Hp : position a'
               = fst (terrainCollision (state a) (integratedPosition f a)
                        (steeredVelocity f a) (frameDt f))) by (now rewrite <- Hk).
  rewrite Hp.
  assert (Hdt : frameDt f = 1 / 60).
  { unfold frameDt, Rmin. cbn [f delta]. destruct (Rle_dec (1 / 60) 0.1); lra. }
  apply terrainCollision_eased; [|rewrite Hdt; lra].
  apply Rlt_le_trans with (-2.5); [|apply safeAltitude_floor].
  unfold integratedPosition, integrate, steeredVelocity. rewrite Hdt.
  assert (Hdec : nextTarget (frameDecision f a)
                 = Vector3.setY skimEnd (-1.2 + sin (18.5 * 15) * 0.6)
                 /\ desiredSpeed (frameDecision f a) = 70
                 /\ turnSpeed (frameDecision f a) = 2.0) by (repeat split).
  destruct Hdec as (-> & -> & ->).
  cbn [a position velocity].
  set (tgt := Vector3.setY skimEnd _).
  pose proof (normalize_components (Vector3.subVectors tgt (Vector3.mk (-165) (-2) 75)))
    as (Hx & Hy & Hz). cbv zeta in Hx, Hy, Hz.
  rewrite steerVelocity_unclamped.
  - set (dir := Vector3.normalize _) in *.
    cbn [Vector3.add Vector3.sub Vector3.multiplyScalar Vector3.x Vector3.y Vector3.z].
    lra.
  - lra.
  - set (dir := Vector3.normalize _) in *.
    unfold Vector3.lengthSq.
    cbn [Vector3.add Vector3.sub Vector3.multiplyScalar Vector3.x Vector3.y Vector3.z].
    set (dx := Vector3.x dir) in *. set (dy := Vector3.y dir) in *.
    set (dz := Vector3.z dir) in *. clearbody dx dy dz.
    set (vx := 30 + (dx * 70 - 30) * (2.0 * (1 / 60))).
    set (vy := -40 + (dy * 70 - -40) * (2.0 * (1 / 60))).
    set (vz := -10 + (dz * 70 - -10) * (2.0 * (1 / 60))).
    assert (-34 <= vx <= 34) by (unfold vx; lra).
    assert (-42 <= vy <= 42) by (unfold vy; lra).
    assert (-13 <= vz <= 13) by (unfold vz; lra).
    clearbody vx vy vz. nra.
Qed.

(** ** Behaviour state machine *)

Lemma stateMachine_edge s p tgt time rnd last pool :
  let s' := nextState (stateMachine s p tgt time rnd last pool) in
  s' = s \/ edge s s' = true.
Proof.
  cbv zeta. destruct s; cbn [stateMachine];
    repeat match goal with
           | |- context [if ?c then _ else _] => destruct c
           end; cbn; auto.
Qed.

Lemma frameDecision_edge f a :
  nextState (frameDecision f a) = state a
  \/ edge (state a) (nextState (frameDecision f a)) = true.
Proof.
  unfold frameDecision. destruct (rippleTrigger _ _ _ _ _) as [last pool].
  apply stateMachine_edge.
Qed.

Lemma useFrame_edge f v a :
  state (snd (useFrame f v a)) = state a
  \/ edge (state a) (state (snd (useFrame f v a))) = true.
Proof.
  destruct (groupRef v) as [g|] eqn:Hg.
  - rewrite (useFrame_state f v g a Hg). apply frameDecision_edge.
  - rewrite useFrame_unmounted by exact Hg. now left.
Qed.

(** ** Interval arithmetic over [Z]: soundness *)

Section ZEnclosures.

Variable p : Z.
Hypothesis p_nonneg : (0 <= p)%Z.

Lemma unitR_pos : 0 < unitR p.
Proof. unfold unitR. apply IZR_lt. apply Z.pow_pos_nonneg; lia. Qed.

Lemma shiftl_unit (n : Z) : IZR (Z.shiftl n p) = IZR n * unitR p.
Proof. unfold unitR. rewrite Z.shiftl_mul_pow2 by lia. apply mult_IZR. Qed.

Lemma floorShift_le_pow (j m : Z) :
  (0 <= j)%Z -> IZR (floorShift j m) * IZR (2 ^ j) <= IZR m.
Proof.
  intros Hj. unfold floorShift. rewrite Z.shiftr_div_pow2 by lia.
  rewrite <- mult_IZR. apply IZR_le.
  rewrite Z.mul_comm. apply Z.mul_div_le. apply Z.pow_pos_nonneg; lia.
Qed.

Lemma ceilShift_ge_pow (j m : Z) :
  (0 <= j)%Z -> IZR m <= IZR (ceilShift j m) * IZR (2 ^ j).
Proof.
  intros Hj. unfold ceilShift. pose proof (floorShift_le_pow j (- m) Hj) as H.
  unfold floorShift in H. rewrite !opp_IZR in *. lra.
Qed.

Lemma floorShift_le (m : Z) : IZR (floorShift p m) * unitR p <= IZR m.
Proof. now apply floorShift_le_pow. Qed.

Lemma ceilShift_ge (m : Z) : IZR m <= IZR (ceilShift p m) * unitR p.
Proof. now apply ceilShift_ge_pow. Qed.

Lemma floorDiv_le (a k : Z) : (0 < k)%Z -> IZR (a / k) * IZR k <= IZR a.
Proof.
  intros Hk. rewrite <- mult_IZR. apply IZR_le. rewrite Z.mul_comm. now apply Z.mul_div_le.
Qed.

Lemma ceilDiv_ge (a k : Z) : (0 < k)%Z -> IZR a <= IZR (ceilDiv a k) * IZR k.
Proof.
  intros Hk. unfold ceilDiv. pose proof (floorDiv_le (- a) k Hk) as H.
  rewrite !opp_IZR in *. lra.
Qed.

Lemma zcontains_ext (A : zival) (x y : R) : x = y -> zcontains p A x -> zcontains p A y.
Proof. now intros ->. Qed.

Lemma ZIq_sound (n d : Z) : (0 < d)%Z -> zcontains p (ZIq p n d) (IZR n / IZR d).
Proof.
  intros Hd. cbn. unfold zwithin; cbn [zlo zhi].
  pose proof (floorDiv_le (Z.shiftl n p) d Hd) as H1.
  pose proof (ceilDiv_ge (Z.shiftl n p) d Hd) as H2.
  rewrite shiftl_unit in H1, H2.
  assert (HD : 0 < IZR d) by now apply IZR_lt.
  pose proof unitR_pos as HU.
  replace (IZR n / IZR d * unitR p) with (IZR n * unitR p / IZR d) by (field; lra).
  split.
  - apply Rmult_le_reg_r with (IZR d); [exact HD|].
    replace (IZR n * unitR p / IZR d * IZR d) with (IZR n * unitR p) by (field; lra). exact H1.
  - apply Rmult_le_reg_r with (IZR d); [exact HD|].
    replace (IZR n * unitR p / IZR d * IZR d) with (IZR n * unitR p) by (field; lra). exact H2.
Qed.

Lemma ZIz_sound (n : Z) : zcontains p (ZIz p n) (IZR n).
Proof. cbn. unfold zwithin; cbn [zlo zhi]. rewrite shiftl_unit. lra. Qed.

Lemma ZIadd_sound A B x y :
  zcontains p A x -> zcontains p B y -> zcontains p (ZIadd A B) (x + y).
Proof.
  destruct A as [a|], B as [b|]; cbn; auto. unfold zwithin; cbn [zlo zhi].
  rewrite !plus_IZR. intros; lra.
Qed.

Lemma ZIopp_sound A x : zcontains p A x -> zcontains p (ZIopp A) (- x).
Proof.
  destruct A as [a|]; cbn; auto. unfold zwithin; cbn [zlo zhi].
  rewrite !opp_IZR. intros; lra.
Qed.

Lemma ZIsub_sound A B x y :
  zcontains p A x -> zcontains p B y -> zcontains p (ZIsub A B) (x - y).
Proof. intros HA HB. unfold ZIsub, Rminus. apply ZIadd_sound; [exact HA|now apply ZIopp_sound]. Qed.

Lemma zmulBounds_sound a b X Y :
  IZR (zlo a) <= X <= IZR (zhi a) -> IZR (zlo b) <= Y <= IZR (zhi b) ->
  IZR (fst (zmulBounds a b)) <= X * Y <= IZR (snd (zmulBounds a b)).
Proof.
  intros HX HY. unfold zmulBounds.
  repeat match goal with
         | |- context [(?u <=? ?v)%Z] =>
             let Hc := fresh "Hc" in
             destruct (Z.leb_spec u v) as [Hc|Hc];
             [apply IZR_le in Hc|apply IZR_lt in Hc]
         end; cbn [fst snd]; rewrite ?mult_IZR; try (split; nra).
  pose proof (Z.le_min_l (zlo a * zhi b) (zhi a * zlo b)) as H1.
  pose proof (Z.le_min_r (zlo a * zhi b) (zhi a * zlo b)) as H2.
  pose proof (Z.le_max_l (zlo a * zlo b) (zhi a * zhi b)) as H3.
  pose proof (Z.le_max_r (zlo a * zlo b) (zhi a * zhi b)) as H4.
  apply IZR_le in H1, H2, H3, H4. rewrite mult_IZR in H1, H2, H3, H4.
  set (a0 := IZR (zlo a)) in *. set (a1 := IZR (zhi a)) in *.
  set (b0 := IZR (zlo b)) in *. set (b1 := IZR (zhi b)) in *.
  clearbody a0 a1 b0 b1.
  destruct (Rle_dec 0 X), (Rle_dec 0 Y); split; nra.
Qed.

Lemma ZImul_sound A B x y :
  zcontains p A x -> zcontains p B y -> zcontains p (ZImul p A B) (x * y).
Proof.
  destruct A as [a|], B as [b|]; cbn [zcontains ZImul]; auto. unfold zwithin. intros HA HB.
  pose proof (zmulBounds_sound a b _ _ HA HB) as H.
  destruct (zmulBounds a b) as [m M]. cbn [fst snd zlo zhi zcontains] in *. unfold zwithin.
  cbn [zlo zhi].
  pose proof (floorShift_le m). pose proof (ceilShift_ge M). pose proof unitR_pos as HU.
  set (u := unitR p) in *.
  replace (x * u * (y * u)) with (x * y * u * u) in H by ring.
  split; apply Rmult_le_reg_r with u; try exact HU; lra.
Qed.

Lemma ZIsqrt_sound A x : zcontains p A x -> zcontains p (ZIsqrt p A) (sqrt x).
Proof.
  destruct A as [a|]; cbn [zcontains ZIsqrt]; auto. unfold zwithin; cbn [zlo zhi].
  intros [Hlo Hhi]. pose proof unitR_pos as HU. set (u := unitR p) in *.
  assert (Hs0 : (0 <= Z.max 0 (zlo a))%Z) by lia.
  assert (Hs1 : (0 <= Z.max 0 (zhi a))%Z) by lia.
  pose proof (Z.sqrt_spec (Z.shiftl (Z.max 0 (zlo a)) p)) as S0.
  pose proof (Z.sqrt_spec (Z.shiftl (Z.max 0 (zhi a)) p)) as S1.
  rewrite Z.shiftl_mul_pow2 in S0, S1 by lia.
  assert (Hu : (0 < 2 ^ p)%Z) by (apply Z.pow_pos_nonneg; lia).
  specialize (S0 ltac:(nia)). specialize (S1 ltac:(nia)).
  pose proof (Z.sqrt_nonneg (Z.max 0 (zlo a) * 2 ^ p)) as N0.
  pose proof (Z.sqrt_nonneg (Z.max 0 (zhi a) * 2 ^ p)) as N1.
  set (r0 := Z.sqrt (Z.max 0 (zlo a) * 2 ^ p)) in *.
  set (r1 := Z.sqrt (Z.max 0 (zhi a) * 2 ^ p)) in *.
  rewrite Z.shiftl_mul_pow2 by lia. fold r0. rewrite Z.shiftl_mul_pow2 by lia. fold r1.
  destruct S0 as [S0 _]. destruct S1 as [_ S1].
  apply IZR_le in S0, N0, N1. apply IZR_lt in S1.
  unfold Z.succ in S1. rewrite !mult_IZR in S0, S1. rewrite !plus_IZR in S1.
  change (IZR (2 ^ p)) with u in S0, S1.
  rewrite plus_IZR.
  assert (M0 : IZR (Z.max 0 (zlo a)) = Rmax 0 (IZR (zlo a))).
  { destruct (Z.max_spec 0 (zlo a)) as [[H ->]|[H ->]].
    - apply IZR_lt in H. rewrite Rmax_right; lra.
    - apply IZR_le in H. rewrite Rmax_left; lra. }
  assert (M1 : IZR (Z.max 0 (zhi a)) = Rmax 0 (IZR (zhi a))).
  { destruct (Z.max_spec 0 (zhi a)) as [[H ->]|[H ->]].
    - apply IZR_lt in H. rewrite Rmax_right; lra.
    - apply IZR_le in H. rewrite Rmax_left; lra. }
  rewrite M0 in S0. rewrite M1 in S1. clear M0 M1.
  set (l0 := IZR (zlo a)) in *. set (h0 := IZR (zhi a)) in *.
  set (R0 := IZR r0) in *. set (R1 := IZR r1) in *.
  clearbody l0 h0 R0 R1 u. clear r0 r1 Hs0 Hs1 Hu.
  pose proof (sqrt_pos x) as Hsp.
  destruct (Rlt_dec x 0) as [Hx|Hx].
  - rewrite sqrt_neg_0 by lra.
    assert (l0 < 0) by nra.
    rewrite Rmax_left in S0 by lra. split; nra.
  - assert (Hx' : 0 <= x) by lra. pose proof (sqrt_sqrt x Hx') as Hss.
    set (s := sqrt x) in *. clearbody s.
    assert (Hm0 : Rmax 0 l0 <= x * u).
    { apply Rmax_lub; nra. }
    assert (Hm1 : x * u <= Rmax 0 h0).
    { eapply Rle_trans; [exact Hhi|apply Rmax_r]. }
    set (m0 := Rmax 0 l0) in *. set (m1 := Rmax 0 h0) in *. clearbody m0 m1.
    split.
    + destruct (Rle_dec R0 (s * u)) as [|Hn]; [assumption|exfalso].
      assert (s * u < R0) by lra.
      assert (0 <= s * u) by (apply Rmult_le_pos; lra).
      assert ((s * u) * (s * u) < R0 * R0) by (apply Rmult_le_0_lt_compat; lra).
      assert ((s * u) * (s * u) = x * u * u) by (rewrite <- Hss; ring). nra.
    + destruct (Rle_dec (s * u) (R1 + 1)) as [|Hn]; [assumption|exfalso].
      assert (R1 + 1 < s * u) by lra.
      assert ((R1 + 1) * (R1 + 1) < (s * u) * (s * u)) by (apply Rmult_le_0_lt_compat; lra).
      assert ((s * u) * (s * u) = x * u * u) by (rewrite <- Hss; ring). nra.
Qed.

Lemma unit_sqr : IZR (Z.shiftl 1 (2 * p)) = unitR p * unitR p.
Proof.
  unfold unitR. rewrite Z.shiftl_mul_pow2 by lia. rewrite Z.mul_1_l.
  replace (2 * p)%Z with (p + p)%Z by lia. rewrite Z.pow_add_r by lia. apply mult_IZR.
Qed.

Lemma ZIinv_sound B y : zcontains p B y -> zcontains p (ZIinv p B) (/ y).
Proof.
  destruct B as [b|]; cbn [zcontains ZIinv]; auto.
  destruct (Z.ltb_spec 0 (zlo b)) as [Hb|Hb]; cbn [zcontains]; auto.
  unfold zwithin; cbn [zlo zhi]. intros [Hlo Hhi].
  pose proof unitR_pos as HU.
  assert (Hh : (0 < zhi b)%Z).
  { apply lt_IZR. apply IZR_lt in Hb. lra. }
  pose proof (floorDiv_le (Z.shiftl 1 (2 * p)) (zhi b) Hh) as H1.
  pose proof (ceilDiv_ge (Z.shiftl 1 (2 * p)) (zlo b) Hb) as H2.
  rewrite unit_sqr in H1, H2.
  apply IZR_lt in Hb, Hh. set (u := unitR p) in *.
  set (q0 := IZR (_ / _)) in *. set (q1 := IZR (ceilDiv _ _)) in *.
  set (b0 := IZR (zlo b)) in *. set (b1 := IZR (zhi b)) in *.
  clearbody q0 q1 b0 b1 u.
  assert (Hy : 0 < y) by nra.
  assert (Hyu : 0 < y * u) by nra.
  assert (E : / y * u = u * u / (y * u)) by (field; lra).
  rewrite E. split.
  - apply Rmult_le_reg_r with (y * u); [exact Hyu|].
    replace (u * u / (y * u) * (y * u)) with (u * u) by (field; lra).
    destruct (Rle_dec 0 q0); nra.
  - apply Rmult_le_reg_r with (y * u); [exact Hyu|].
    replace (u * u / (y * u) * (y * u)) with (u * u) by (field; lra).
    assert (0 <= q1) by nra. nra.
Qed.

Lemma ZIdiv_sound A B x y :
  zcontains p A x -> zcontains p B y -> zcontains p (ZIdiv p A B) (x / y).
Proof.
  intros HA HB. unfold ZIdiv, Rdiv. apply ZImul_sound; [exact HA|now apply ZIinv_sound].
Qed.

Lemma ZIdivz_sound A k x : zcontains p A x -> zcontains p (ZIdivz A k) (x / IZR k).
Proof.
  destruct A as [a|]; cbn [zcontains ZIdivz]; auto.
  destruct (Z.ltb_spec 0 k) as [Hk|Hk]; cbn [zcontains]; auto.
  unfold zwithin; cbn [zlo zhi]. intros [Hlo Hhi].
  pose proof (floorDiv_le (zlo a) k Hk) as H1. pose proof (ceilDiv_ge (zhi a) k Hk) as H2.
  apply IZR_lt in Hk. set (K := IZR k) in *.
  replace (x / K * unitR p) with (x * unitR p / K) by (field; lra).
  split; apply Rmult_le_reg_r with K; try exact Hk;
    replace (x * unitR p / K * K) with (x * unitR p) by (field; lra); lra.
Qed.

Lemma ZIabs_sound A x : zcontains p A x -> zcontains p (ZIabs A) (Rabs x).
Proof.
  destruct A as [a|]; cbn [zcontains ZIabs]; auto.
  pose proof unitR_pos as HU.
  destruct (Z.leb_spec 0 (zlo a)) as [H0|H0].
  - cbn [zcontains]. unfold zwithin. intros [Hlo Hhi]. apply IZR_le in H0.
    rewrite Rabs_right; [lra|]. apply Rle_ge. nra.
  - destruct (Z.leb_spec (zhi a) 0) as [H1|H1].
    + intros H. pose proof H as [Hlo Hhi]. apply IZR_le in H1.
      rewrite Rabs_left1 by nra. now apply (ZIopp_sound (Some a)).
    + cbn [zcontains]. unfold zwithin; cbn [zlo zhi]. intros [Hlo Hhi].
      pose proof (Z.le_max_l (- zlo a) (zhi a)) as M1. pose proof (Z.le_max_r (- zlo a) (zhi a)) as M2.
      apply IZR_le in M1, M2. rewrite opp_IZR in M1.
      unfold Rabs. destruct (Rcase_abs x); split; nra.
Qed.

Lemma ZIunit_sound A x : -1 <= x <= 1 -> zcontains p A x -> zcontains p (ZIunit p A) x.
Proof.
  intros Hx. pose proof unitR_pos as HU.
  assert (Hone : IZR (Z.shiftl 1 p) = unitR p) by (rewrite shiftl_unit; lra).
  destruct A as [a|]; cbn [zcontains ZIunit]; unfold zwithin; cbn [zlo zhi].
  - intros [Hlo Hhi].
    destruct (Z.max_spec (zlo a) (- Z.shiftl 1 p)) as [[_ ->]|[_ ->]];
      destruct (Z.min_spec (zhi a) (Z.shiftl 1 p)) as [[_ ->]|[_ ->]];
      rewrite ?opp_IZR, ?Hone; split; nra.
  - intros _. rewrite opp_IZR, Hone. split; nra.
Qed.

Lemma ZIjoin_sound_l A B x : zcontains p A x -> zcontains p (ZIjoin A B) x.
Proof.
  destruct A as [a|], B as [b|]; cbn [zcontains ZIjoin]; auto. unfold zwithin; cbn [zlo zhi].
  pose proof (Z.le_min_l (zlo a) (zlo b)) as H1. pose proof (Z.le_max_l (zhi a) (zhi b)) as H2.
  apply IZR_le in H1, H2. intros; lra.
Qed.

Lemma ZIjoin_sound_r A B x : zcontains p B x -> zcontains p (ZIjoin A B) x.
Proof.
  destruct A as [a|], B as [b|]; cbn [zcontains ZIjoin]; auto. unfold zwithin; cbn [zlo zhi].
  pose proof (Z.le_min_r (zlo a) (zlo b)) as H1. pose proof (Z.le_max_r (zhi a) (zhi b)) as H2.
  apply IZR_le in H1, H2. intros; lra.
Qed.

Lemma ZIlt_sound A B x y c :
  ZIlt A B = Some c -> zcontains p A x -> zcontains p B y -> ltb x y = c.
Proof.
  destruct A as [a|], B as [b|]; cbn [zcontains ZIlt]; try discriminate.
  unfold zwithin. pose proof unitR_pos as HU. intros Hc [Ha0 Ha1] [Hb0 Hb1].
  destruct (Z.ltb_spec (zhi a) (zlo b)) as [H|_].
  - injection Hc as <-. apply IZR_lt in H. apply ltb_true. nra.
  - revert Hc. destruct (Z.leb_spec (zhi b) (zlo a)) as [H|_]; [|discriminate].
    intros [= <-]. apply IZR_le in H. apply ltb_false. nra.
Qed.

Lemma ZIle_sound A B x y c :
  ZIle A B = Some c -> zcontains p A x -> zcontains p B y -> leb x y = c.
Proof.
  destruct A as [a|], B as [b|]; cbn [zcontains ZIle]; try discriminate.
  unfold zwithin. pose proof unitR_pos as HU. intros Hc [Ha0 Ha1] [Hb0 Hb1].
  destruct (Z.leb_spec (zhi a) (zlo b)) as [H|_].
  - injection Hc as <-. apply IZR_le in H. apply leb_true. nra.
  - revert Hc. destruct (Z.ltb_spec (zhi b) (zlo a)) as [H|_]; [|discriminate].
    intros [= <-]. apply IZR_lt in H. apply leb_false. nra.
Qed.

Lemma ZIhalve_sound (j : nat) A x :
  zcontains p A x -> zcontains p (ZIhalve (Z.of_nat j) A) (x / 2 ^ j).
Proof.
  destruct A as [a|]; cbn [zcontains ZIhalve]; auto. unfold zwithin; cbn [zlo zhi].
  intros [Hlo Hhi].
  assert (Hj : (0 <= Z.of_nat j)%Z) by lia.
  pose proof (floorShift_le_pow (Z.of_nat j) (zlo a) Hj) as H1.
  pose proof (ceilShift_ge_pow (Z.of_nat j) (zhi a) Hj) as H2.
  assert (E : IZR (2 ^ Z.of_nat j) = 2 ^ j) by (now rewrite <- pow_IZR).
  rewrite E in H1, H2.
  assert (Hp : 0 < 2 ^ j) by (apply pow_lt; lra).
  set (d := 2 ^ j) in *.
  replace (x / d * unitR p) with (x * unitR p / d) by (field; lra).
  split; apply Rmult_le_reg_r with d; try exact Hp;
    replace (x * unitR p / d * d) with (x * unitR p) by (field; lra); lra.
Qed.

Lemma ZIbetween_sound A B a b c :
  zcontains p A a -> zcontains p B b -> a <= c <= b -> zcontains p (ZIbetween A B) c.
Proof.
  destruct A as [ia|], B as [ib|]; cbn [zcontains ZIbetween]; auto. unfold zwithin; cbn [zlo zhi].
  pose proof unitR_pos. intros [H1 _] [_ H2] [H3 H4]. split; nra.
Qed.

Lemma zwithin_range (a : zitv) (t : R) (l h : Z) :
  zwithin p a t -> (Z.shiftl l p <= zlo a)%Z -> (zhi a <= Z.shiftl h p)%Z ->
  IZR l <= t <= IZR h.
Proof.
  unfold zwithin. intros [H0 H1] Hl Hh. apply IZR_le in Hl, Hh.
  rewrite shiftl_unit in Hl, Hh. pose proof unitR_pos. split; nra.
Qed.

Lemma ZIinside_sound A l h t :
  ZIinside p A l h = true -> zcontains p A t -> IZR l <= t <= IZR h.
Proof.
  destruct A as [a|]; cbn [ZIinside zcontains]; [|discriminate].
  intros E Ht. apply andb_prop in E as [E0 E1]. apply Z.leb_le in E0, E1.
  now apply (zwithin_range a).
Qed.

Lemma ZIpos_sound A x : ZIpos A = true -> zcontains p A x -> 0 < x.
Proof.
  destruct A as [a|]; cbn [ZIpos zcontains]; [|discriminate].
  intros H [Hl _]. apply Z.ltb_lt in H. apply IZR_lt in H.
  pose proof unitR_pos. nra.
Qed.

Lemma ZIneg_sound A x : ZIneg A = true -> zcontains p A x -> x < 0.
Proof.
  destruct A as [a|]; cbn [ZIneg zcontains]; [|discriminate].
  intros H [_ Hh]. apply Z.ltb_lt in H. apply IZR_lt in H.
  pose proof unitR_pos. nra.
Qed.

End ZEnclosures.

(** ** Machine-word operations: agreement with [Z] and soundness *)

Ltac to_Z :=
  unfold ofZ, bfloorShift, bceilShift, bceilDiv;
  repeat first
    [ rewrite BigZ.spec_add | rewrite BigZ.spec_opp | rewrite BigZ.spec_mul
    | rewrite BigZ.spec_div | rewrite BigZ.spec_sqrt | rewrite BigZ.spec_shiftl
    | rewrite BigZ.spec_shiftr | rewrite BigZ.spec_min | rewrite BigZ.spec_max
    | rewrite BigZ.spec_leb | rewrite BigZ.spec_ltb | rewrite BigZ.spec_of_Z ].

Lemma Iq_value p n d : valueOf (Iq p n d) = ZIq p n d.
Proof. unfold Iq, ZIq, ceilDiv; cbn [valueOf lo hi]. now to_Z. Qed.

Lemma Iz_value p n : valueOf (Iz p n) = ZIz p n.
Proof. unfold Iz, ZIz; cbn [valueOf lo hi]. now to_Z. Qed.

Lemma Iadd_value A B : valueOf (Iadd A B) = ZIadd (valueOf A) (valueOf B).
Proof. destruct A, B; cbn [Iadd ZIadd valueOf lo hi zlo zhi]; now to_Z. Qed.

Lemma Iopp_value A : valueOf (Iopp A) = ZIopp (valueOf A).
Proof. destruct A; cbn [Iopp ZIopp valueOf lo hi zlo zhi]; now to_Z. Qed.

Lemma mulBounds_value a b :
  (BigZ.to_Z (fst (mulBounds a b)), BigZ.to_Z (snd (mulBounds a b)))
  = zmulBounds (mkZitv (BigZ.to_Z (lo a)) (BigZ.to_Z (hi a)))
               (mkZitv (BigZ.to_Z (lo b)) (BigZ.to_Z (hi b))).
Proof.
  unfold mulBounds, zmulBounds; cbn [zlo zhi]. cbv zeta. to_Z.
  repeat match goal with
         | |- context [(?u <=? ?v)%Z] => destruct (u <=? v)%Z
         end; cbn [fst snd]; now to_Z.
Qed.

Lemma Imul_value p A B : valueOf (Imul p A B) = ZImul p (valueOf A) (valueOf B).
Proof.
  destruct A as [a|], B as [b|]; cbn [Imul ZImul valueOf]; try reflexivity.
  rewrite <- mulBounds_value. destruct (mulBounds a b) as [m M].
  cbn [fst snd valueOf lo hi]. unfold floorShift, ceilShift. now to_Z.
Qed.

Lemma Isqrt_value p A : valueOf (Isqrt p A) = ZIsqrt p (valueOf A).
Proof. destruct A; cbn [Isqrt ZIsqrt valueOf lo hi zlo zhi]; now to_Z. Qed.

Lemma Iinv_value p B : valueOf (Iinv p B) = ZIinv p (valueOf B).
Proof.
  destruct B as [b|]; cbn [Iinv ZIinv valueOf lo hi zlo zhi]; [|reflexivity]. to_Z.
  destruct (0 <? BigZ.to_Z (lo b))%Z; [|reflexivity].
  cbv zeta. cbn [valueOf lo hi]. unfold ceilDiv. now to_Z.
Qed.

Lemma Idivz_value A k : valueOf (Idivz A k) = ZIdivz (valueOf A) k.
Proof.
  destruct A as [a|]; cbn [Idivz ZIdivz valueOf lo hi zlo zhi]; [|reflexivity].
  destruct (0 <? k)%Z; [|reflexivity]. cbn [valueOf lo hi]. unfold ceilDiv. now to_Z.
Qed.

Lemma Iabs_value A : valueOf (Iabs A) = ZIabs (valueOf A).
Proof.
  destruct A as [a|]; cbn [Iabs ZIabs valueOf lo hi zlo zhi]; [|reflexivity]. to_Z.
  destruct (0 <=? BigZ.to_Z (lo a))%Z; [reflexivity|].
  destruct (BigZ.to_Z (hi a) <=? 0)%Z; cbn [Iopp ZIopp valueOf lo hi zlo zhi]; now to_Z.
Qed.

Lemma Iunit_value p A : valueOf (Iunit p A) = ZIunit p (valueOf A).
Proof. destruct A; cbn [Iunit ZIunit valueOf lo hi zlo zhi]; cbv zeta; cbn [valueOf lo hi]; now to_Z. Qed.

Lemma Ihalve_value j A : valueOf (Ihalve j A) = ZIhalve j (valueOf A).
Proof.
  destruct A; cbn [Ihalve ZIhalve valueOf lo hi zlo zhi]; [|reflexivity].
  unfold floorShift, ceilShift. now to_Z.
Qed.

Lemma Ijoin_value A B : valueOf (Ijoin A B) = ZIjoin (valueOf A) (valueOf B).
Proof. destruct A, B; cbn [Ijoin ZIjoin valueOf lo hi zlo zhi]; now to_Z. Qed.

Lemma Ilt_value A B : Ilt A B = ZIlt (valueOf A) (valueOf B).
Proof. destruct A, B; cbn [Ilt ZIlt valueOf lo hi zlo zhi]; now to_Z. Qed.

Lemma Ile_value A B : Ile A B = ZIle (valueOf A) (valueOf B).
Proof. destruct A, B; cbn [Ile ZIle valueOf lo hi zlo zhi]; now to_Z. Qed.

Lemma Ibetween_value A B : valueOf (Ibetween A B) = ZIbetween (valueOf A) (valueOf B).
Proof. destruct A, B; reflexivity. Qed.

Lemma Iinside_value p A l h : Iinside p A l h = ZIinside p (valueOf A) l h.
Proof. destruct A; cbn [Iinside ZIinside valueOf lo hi zlo zhi]; now to_Z. Qed.

Lemma Ipos_value A : Ipos A = ZIpos (valueOf A).
Proof. destruct A; cbn [Ipos ZIpos valueOf zlo]; now to_Z. Qed.

Lemma Ineg_value A : Ineg A = ZIneg (valueOf A).
Proof. destruct A; cbn [Ineg ZIneg valueOf zhi]; now to_Z. Qed.

Section Enclosures.

Variable p : Z.
Hypothesis p_nonneg : (0 <= p)%Z.

Lemma contains_ext (A : ival) (x y : R) : x = y -> contains p A x -> contains p A y.
Proof. now intros ->. Qed.

Lemma contains_None (x : R) : contains p None x.
Proof. exact Logic.I. Qed.

Lemma Iq_sound (n d : Z) : (0 < d)%Z -> contains p (Iq p n d) (IZR n / IZR d).
Proof. intros Hd. unfold contains. rewrite Iq_value. now apply ZIq_sound. Qed.

Lemma Iz_sound (n : Z) : contains p (Iz p n) (IZR n).
Proof. unfold contains. rewrite Iz_value. now apply ZIz_sound. Qed.

Lemma Iadd_sound A B x y :
  contains p A x -> contains p B y -> contains p (Iadd A B) (x + y).
Proof. unfold contains. rewrite Iadd_value. apply ZIadd_sound. Qed.

Lemma Iopp_sound A x : contains p A x -> contains p (Iopp A) (- x).
Proof. unfold contains. rewrite Iopp_value. apply ZIopp_sound. Qed.

Lemma Isub_sound A B x y :
  contains p A x -> contains p B y -> contains p (Isub A B) (x - y).
Proof. intros HA HB. unfold Isub, Rminus. apply Iadd_sound; [exact HA|now apply Iopp_sound]. Qed.

Lemma Imul_sound A B x y :
  contains p A x -> contains p B y -> contains p (Imul p A B) (x * y).
Proof. unfold contains. rewrite Imul_value. now apply ZImul_sound. Qed.

Lemma Isqrt_sound A x : contains p A x -> contains p (Isqrt p A) (sqrt x).
Proof. unfold contains. rewrite Isqrt_value. now apply ZIsqrt_sound. Qed.

Lemma Iinv_sound B y : contains p B y -> contains p (Iinv p B) (/ y).
Proof. unfold contains. rewrite Iinv_value. now apply ZIinv_sound. Qed.

Lemma Idiv_sound A B x y :
  contains p A x -> contains p B y -> contains p (Idiv p A B) (x / y).
Proof.
  intros HA HB. unfold Idiv, Rdiv. apply Imul_sound; [exact HA|now apply Iinv_sound].
Qed.

Lemma Idivz_sound A k x : contains p A x -> contains p (Idivz A k) (x / IZR k).
Proof. unfold contains. rewrite Idivz_value. apply ZIdivz_sound. Qed.

Lemma Iabs_sound A x : contains p A x -> contains p (Iabs A) (Rabs x).
Proof. unfold contains. rewrite Iabs_value. now apply ZIabs_sound. Qed.

Lemma Iunit_sound A x : -1 <= x <= 1 -> contains p A x -> contains p (Iunit p A) x.
Proof. unfold contains. rewrite Iunit_value. now apply ZIunit_sound. Qed.

Lemma Ihalve_sound (j : nat) A x :
  contains p A x -> contains p (Ihalve (Z.of_nat j) A) (x / 2 ^ j).
Proof. unfold contains. rewrite Ihalve_value. apply ZIhalve_sound. Qed.

Lemma Ijoin_sound_l A B x : contains p A x -> contains p (Ijoin A B) x.
Proof. unfold contains. rewrite Ijoin_value. apply ZIjoin_sound_l. Qed.

Lemma Ijoin_sound_r A B x : contains p B x -> contains p (Ijoin A B) x.
Proof. unfold contains. rewrite Ijoin_value. apply ZIjoin_sound_r. Qed.

Lemma Ilt_sound A B x y c :
  Ilt A B = Some c -> contains p A x -> contains p B y -> ltb x y = c.
Proof. unfold contains. rewrite Ilt_value. now apply ZIlt_sound. Qed.

Lemma Ile_sound A B x y c :
  Ile A B = Some c -> contains p A x -> contains p B y -> leb x y = c.
Proof. unfold contains. rewrite Ile_value. now apply ZIle_sound. Qed.

Lemma Ibetween_sound A B a b c :
  contains p A a -> contains p B b -> a <= c <= b -> contains p (Ibetween A B) c.
Proof. unfold contains. rewrite Ibetween_value. now apply ZIbetween_sound. Qed.

Lemma Iinside_sound A l h t :
  Iinside p A l h = true -> contains p A t -> IZR l <= t <= IZR h.
Proof. unfold contains. rewrite Iinside_value. now apply ZIinside_sound. Qed.

Lemma Ipos_sound A x : Ipos A = true -> contains p A x -> 0 < x.
Proof. unfold contains. rewrite Ipos_value. now apply ZIpos_sound. Qed.

Lemma Ineg_sound A x : Ineg A = true -> contains p A x -> x < 0.
Proof. unfold contains. rewrite Ineg_value. now apply ZIneg_sound. Qed.

(** *** Sine and cosine *)

Lemma Iif_sound c0 A B a b x y :
  (forall c, c0 = Some c -> ltb a b = c) ->
  contains p (A tt) x -> contains p (B tt) y ->
  contains p (Iif c0 A B) (if ltb a b then x else y).
Proof.
  intros Hc HA HB. destruct c0 as [[|]|]; cbn [Iif].
  - now rewrite (Hc true eq_refl).
  - now rewrite (Hc false eq_refl).
  - destruct (ltb a b); [now apply Ijoin_sound_l|now apply Ijoin_sound_r].
Qed.

(** *** The series *)

Lemma pow_minus_one_even m : Nat.even m = true -> (-1) ^ m = 1.
Proof.
  intros H. apply Nat.even_spec in H. destruct H as [k ->]. apply pow_1_even.
Qed.

Lemma pow_minus_one_odd m : Nat.even m = false -> (-1) ^ m = -1.
Proof.
  intros H. assert (Ho : Nat.odd m = true) by (unfold Nat.odd; now rewrite H).
  apply Nat.odd_spec in Ho. destruct Ho as [k ->].
  replace (2 * k + 1)%nat with (S (2 * k)) by lia. apply pow_1_odd.
Qed.

Lemma fact_step (k : nat) :
  INR (fact (S (S k))) = INR (fact k) * IZR (Z.of_nat (k + 1) * Z.of_nat (k + 2)).
Proof.
  rewrite mult_IZR, <- !INR_IZR_INZ.
  change (fact (S (S k))) with (S (S k) * (S k * fact k))%nat.
  rewrite !mult_INR. replace (k + 1)%nat with (S k) by lia.
  replace (k + 2)%nat with (S (S k)) by lia. ring.
Qed.

Lemma series_step (t : R) (k : nat) :
  t ^ (S (S k)) / INR (fact (S (S k)))
  = t ^ k / INR (fact k) * (t * t) / IZR (Z.of_nat (k + 1) * Z.of_nat (k + 2)).
Proof.
  pose proof (INR_fact_neq_0 k) as H0. pose proof (INR_fact_neq_0 (S (S k))) as H2.
  rewrite fact_step in *. cbn [pow].
  set (K := IZR (Z.of_nat _ * _)) in *. clearbody K.
  assert (K <> 0) by (intros E; apply H2; rewrite E; apply Rmult_0_r).
  field. split; assumption.
Qed.

Lemma cosPartial_sound U t m :
  contains p U (t * t) ->
  contains p (fst (cosPartial p U m)) (t ^ (2 * m) / INR (fact (2 * m)))
  /\ contains p (snd (cosPartial p U m)) (cos_approx t m).
Proof.
  intros HU. induction m as [|m [IHt IHs]].
  - cbn [cosPartial fst snd]. unfold cos_approx, cos_term. cbn [sum_f_R0 Nat.mul pow fact INR].
    split; (eapply contains_ext; [|apply (Iz_sound 1)]); cbn; lra.
  - cbn [cosPartial]. destruct (cosPartial p U m) as [T Sm]. cbn [fst snd] in *.
    assert (Ht : contains p
              (Idivz (Imul p T U) (Z.of_nat (2 * m + 1) * Z.of_nat (2 * m + 2)))
              (t ^ (2 * S m) / INR (fact (2 * S m)))).
    { replace (2 * S m)%nat with (S (S (2 * m))) by lia. rewrite series_step.
      apply Idivz_sound. now apply Imul_sound. }
    split; [exact Ht|].
    unfold cos_approx. cbn [sum_f_R0]. fold (cos_approx t m). unfold cos_term.
    destruct (Nat.even m) eqn:E.
    + replace ((-1) ^ S m) with (-1) by (cbn [pow]; rewrite (pow_minus_one_even m E); lra).
      eapply contains_ext; [|apply Isub_sound; [exact IHs|exact Ht]]. lra.
    + replace ((-1) ^ S m) with 1 by (cbn [pow]; rewrite (pow_minus_one_odd m E); lra).
      eapply contains_ext; [|apply Iadd_sound; [exact IHs|exact Ht]]. lra.
Qed.

Lemma sinPartial_sound T U t m :
  contains p T t -> contains p U (t * t) ->
  contains p (fst (sinPartial p T U m)) (t ^ (2 * m + 1) / INR (fact (2 * m + 1)))
  /\ contains p (snd (sinPartial p T U m)) (sin_approx t m).
Proof.
  intros HT HU. induction m as [|m [IHt IHs]].
  - cbn [sinPartial fst snd]. unfold sin_approx, sin_term.
    cbn [sum_f_R0 Nat.mul Nat.add pow fact INR].
    split; (eapply contains_ext; [|exact HT]); cbn; lra.
  - cbn [sinPartial]. destruct (sinPartial p T U m) as [T' Sm]. cbn [fst snd] in *.
    assert (Ht : contains p
              (Idivz (Imul p T' U) (Z.of_nat (2 * m + 2) * Z.of_nat (2 * m + 3)))
              (t ^ (2 * S m + 1) / INR (fact (2 * S m + 1)))).
    { replace (2 * S m + 1)%nat with (S (S (2 * m + 1))) by lia. rewrite series_step.
      replace (2 * m + 1 + 1)%nat with (2 * m + 2)%nat by lia.
      replace (2 * m + 1 + 2)%nat with (2 * m + 3)%nat by lia.
      apply Idivz_sound. now apply Imul_sound. }
    split; [exact Ht|].
    unfold sin_approx. cbn [sum_f_R0]. fold (sin_approx t m). unfold sin_term.
    destruct (Nat.even m) eqn:E.
    + replace ((-1) ^ S m) with (-1) by (cbn [pow]; rewrite (pow_minus_one_even m E); lra).
      eapply contains_ext; [|apply Isub_sound; [exact IHs|exact Ht]]. lra.
    + replace ((-1) ^ S m) with 1 by (cbn [pow]; rewrite (pow_minus_one_odd m E); lra).
      eapply contains_ext; [|apply Iadd_sound; [exact IHs|exact Ht]]. lra.
Qed.

Lemma cosSmall_sound n T t : contains p T t -> contains p (cosSmall p n T) (cos t).
Proof.
  intros Ht. unfold cosSmall.
  destruct (Iinside p T (-2) 2) eqn:E; [|apply contains_None].
  pose proof (Iinside_sound T _ _ t E Ht) as Hr.
  assert (HU : contains p (Imul p T T) (t * t)) by (apply Imul_sound; assumption).
  cbv zeta.
  pose proof (cosPartial_sound _ t (2 * n + 1) HU) as [_ H1].
  pose proof (cosPartial_sound _ t (S (2 * n + 1)) HU) as [_ H2].
  cbn [cosPartial] in H2.
  destruct (cosPartial p (Imul p T T) (2 * n + 1)) as [tm low]. cbn [fst snd] in *.
  replace (Nat.even (2 * n + 1)) with false in H2
    by (symmetry; rewrite Nat.add_1_r, Nat.even_succ; apply Nat.odd_even).
  eapply Ibetween_sound; [exact H1|exact H2|].
  replace (S (2 * n + 1)) with (2 * (n + 1))%nat by lia.
  apply pre_cos_bound; lra.
Qed.

Lemma sinPos_sound n T t : contains p T t -> contains p (sinPos p n T) (sin t).
Proof.
  intros Ht. unfold sinPos.
  destruct (Iinside p T 0 4) eqn:E; [|apply contains_None].
  pose proof (Iinside_sound T _ _ t E Ht) as Hr.
  assert (HU : contains p (Imul p T T) (t * t)) by (apply Imul_sound; assumption).
  cbv zeta.
  pose proof (sinPartial_sound T _ t (2 * n + 1) Ht HU) as [_ H1].
  pose proof (sinPartial_sound T _ t (S (2 * n + 1)) Ht HU) as [_ H2].
  cbn [sinPartial] in H2.
  destruct (sinPartial p T (Imul p T T) (2 * n + 1)) as [tm low]. cbn [fst snd] in *.
  replace (Nat.even (2 * n + 1)) with false in H2
    by (symmetry; rewrite Nat.add_1_r, Nat.even_succ; apply Nat.odd_even).
  eapply Ibetween_sound; [exact H1|exact H2|].
  replace (S (2 * n + 1)) with (2 * (n + 1))%nat by lia.
  apply pre_sin_bound; lra.
Qed.

Lemma sinSmall_sound n T t : contains p T t -> contains p (sinSmall p n T) (sin t).
Proof.
  intros Ht. unfold sinSmall.
  destruct (Inonneg T); [now apply sinPos_sound|].
  destruct (Inonpos T); [|apply contains_None].
  eapply contains_ext; [|apply Iopp_sound, (sinPos_sound n _ (- t)), Iopp_sound, Ht].
  rewrite sin_neg. lra.
Qed.

Lemma doubleAngle_sound S C y :
  contains p S (sin y) -> contains p C (cos y) ->
  contains p (fst (doubleAngle p (S, C))) (sin (2 * y))
  /\ contains p (snd (doubleAngle p (S, C))) (cos (2 * y)).
Proof.
  intros HS HC. cbn [doubleAngle fst snd]. split.
  - apply Iunit_sound; [apply SIN_bound|].
    eapply contains_ext; [|apply Iadd_sound; apply Imul_sound; [exact HS|exact HC|exact HS|exact HC]].
    rewrite sin_2a. ring.
  - apply Iunit_sound; [apply COS_bound|].
    eapply contains_ext;
      [|apply Isub_sound; [apply (Iz_sound 1)|apply Iadd_sound; apply Imul_sound; exact HS]].
    rewrite cos_2a_sin. ring.
Qed.

Lemma doubleAngles_sound j S C y :
  contains p S (sin y) -> contains p C (cos y) ->
  contains p (fst (doubleAngles p j (S, C))) (sin (2 ^ j * y))
  /\ contains p (snd (doubleAngles p j (S, C))) (cos (2 ^ j * y)).
Proof.
  revert S C y. induction j as [|j IH]; intros S C y HS HC.
  - cbn [doubleAngles fst snd pow]. rewrite Rmult_1_l. now split.
  - cbn [doubleAngles]. destruct (doubleAngle_sound S C y HS HC) as [HS' HC'].
    destruct (doubleAngle p (S, C)) as [S' C']. cbn [fst snd] in *.
    replace (2 ^ Datatypes.S j * y) with (2 ^ j * (2 * y)) by (cbn [pow]; ring).
    now apply IH.
Qed.

Lemma Isincos_sound A x :
  contains p A x -> contains p (Isin p A) (sin x) /\ contains p (Icos p A) (cos x).
Proof.
  intros HA. unfold Isin, Icos, Isincos. set (j := halvings p (reduceBits p) A).
  pose proof (Ihalve_sound j A x HA) as HT.
  assert (Hp : 2 ^ j <> 0) by (apply pow_nonzero; lra).
  assert (E : x = 2 ^ j * (x / 2 ^ j)) by (field; exact Hp).
  rewrite E at 1 2.
  apply doubleAngles_sound; [now apply sinSmall_sound|now apply cosSmall_sound].
Qed.

Lemma Isin_sound A x : contains p A x -> contains p (Isin p A) (sin x).
Proof. intros H. now apply Isincos_sound. Qed.

Lemma Icos_sound A x : contains p A x -> contains p (Icos p A) (cos x).
Proof. intros H. now apply Isincos_sound. Qed.

End Enclosures.

(** *** Bounds of pi *)

Lemma cosHalf_sound (b : Z) :
  contains (piBits + 32) (cosHalf b) (cos (IZR b / IZR (2 ^ piBits) / 2)).
Proof.
  assert (Hp : (0 <= piBits + 32)%Z) by (unfold piBits; lia).
  apply cosSmall_sound; [exact Hp|].
  eapply contains_ext; [|apply Iq_sound; [exact Hp|unfold piBits; lia]].
  assert (E : IZR (2 ^ (piBits + 1)) = IZR (2 ^ piBits) * 2).
  { rewrite <- mult_IZR. apply f_equal. unfold piBits. rewrite Z.pow_add_r by lia. reflexivity. }
  rewrite E. assert (0 < IZR (2 ^ piBits)) by (apply IZR_lt; unfold piBits; lia).
  field. lra.
Qed.

Lemma pi_bounds : IZR piLow / IZR (2 ^ piBits) < PI < IZR piHigh / IZR (2 ^ piBits).
Proof.
  assert (Hp : (0 <= piBits + 32)%Z) by (unfold piBits; lia).
  assert (Hlo : 0 < cos (IZR piLow / IZR (2 ^ piBits) / 2)).
  { apply (Ipos_sound _ Hp (cosHalf piLow)); [|apply cosHalf_sound].
    vm_compute. reflexivity. }
  assert (Hhi : cos (IZR piHigh / IZR (2 ^ piBits) / 2) < 0).
  { apply (Ineg_sound _ Hp (cosHalf piHigh)); [|apply cosHalf_sound].
    vm_compute. reflexivity. }
  assert (Hu : 0 < IZR (2 ^ piBits)) by (apply IZR_lt; unfold piBits; lia).
  assert (B1 : 3 * IZR (2 ^ piBits) <= IZR piLow).
  { rewrite <- mult_IZR. apply IZR_le. vm_compute. discriminate. }
  assert (B2 : IZR piHigh <= 4 * IZR (2 ^ piBits)).
  { rewrite <- mult_IZR. apply IZR_le. vm_compute. discriminate. }
  assert (Hab : IZR piLow < IZR piHigh) by (apply IZR_lt; vm_compute; reflexivity).
  set (u := IZR (2 ^ piBits)) in *. set (a := IZR piLow) in *. set (b := IZR piHigh) in *.
  clearbody u a b.
  assert (Ha : 3 <= a / u).
  { apply Rmult_le_reg_r with u; [exact Hu|]. replace (a / u * u) with a by (field; lra). lra. }
  assert (Hb : b / u <= 4).
  { apply Rmult_le_reg_r with u; [exact Hu|]. replace (b / u * u) with b by (field; lra). lra. }
  split.
  - assert (a / u / 2 < PI / 2); [|lra].
    apply PI2_lower_bound; [|exact Hlo].
    assert (a / u < b / u).
    { apply Rmult_lt_reg_r with u; [exact Hu|].
      replace (a / u * u) with a by (field; lra). replace (b / u * u) with b by (field; lra).
      exact Hab. }
    lra.
  - destruct (Rlt_dec PI (b / u)) as [|Hn]; [assumption|exfalso].
    assert (0 <= cos (b / u / 2)) as H; [|exact (Rlt_irrefl _ (Rle_lt_trans _ _ _ H Hhi))].
    pose proof PI_RGT_0. assert (0 < b / u) by (apply Rdiv_lt_0_compat; lra).
    apply cos_ge_0; lra.
Qed.

Lemma Ipi_sound p : (0 <= p)%Z -> contains p (Ipi p) PI.
Proof.
  intros Hp. unfold Ipi. pose proof pi_bounds as [B1 B2].
  assert (Hd : (0 < 2 ^ piBits)%Z) by (unfold piBits; lia).
  apply (Ibetween_sound p Hp _ _ (IZR piLow / IZR (2 ^ piBits)) (IZR piHigh / IZR (2 ^ piBits)));
    [apply Iq_sound; assumption|apply Iq_sound; assumption|lra].
Qed.

(** ** Enclosures of the height field: soundness *)

Ltac enclose_step :=
  match goal with
  | |- contains _ (Iadd _ _) (_ + _) => apply Iadd_sound
  | |- contains _ (Isub _ _) (_ - _) => apply Isub_sound
  | |- contains _ (Imul _ _ _) (_ * _) => apply Imul_sound
  | |- contains _ (Idiv _ _ _) (_ / _) => apply Idiv_sound
  | |- contains _ (Iopp _) (- _) => apply Iopp_sound
  | |- contains _ (Isin _ _) (sin _) => apply Isin_sound
  | |- contains _ (Icos _ _) (cos _) => apply Icos_sound
  | |- contains _ (Isqrt _ _) (sqrt _) => apply Isqrt_sound
  | |- contains _ (Iabs _) (Rabs _) => apply Iabs_sound
  | |- contains _ (Ipi _) PI => apply Ipi_sound
  | |- contains _ (Iq _ ?n ?d) _ =>
      apply (contains_ext _ _ (IZR n / IZR d)); [lra|apply Iq_sound; lia]
  | |- contains _ (Iz _ ?n) _ =>
      apply (contains_ext _ _ (IZR n)); [lra|apply Iz_sound]
  | |- contains ?p (Iif (Ilt _ _) _ _) (if ltb _ _ then _ else _) =>
      apply Iif_sound; [intros ? ?; eapply (Ilt_sound p); [assumption|eassumption| |]| |]
  | |- (0 <= _)%Z => assumption
  | |- contains _ _ _ => eassumption
  end.

Ltac enclose := repeat enclose_step.

Section NoiseEnclosure.

Variable p : Z.
Hypothesis p_nonneg : (0 <= p)%Z.
Variables (Xi Zi : ival) (x z : R).
Hypothesis HX : contains p Xi x.
Hypothesis HZ : contains p Zi z.

Lemma pseudoNoiseI_sound : contains p (pseudoNoiseI p Xi Zi) (pseudoNoise x z).
Proof. unfold pseudoNoiseI, pseudoNoise. cbv zeta. enclose. Qed.

End NoiseEnclosure.

Section HeightEnclosure.

Variable p : Z.
Hypothesis p_nonneg : (0 <= p)%Z.
Variables (Xi Zi : ival) (x z : R).
Hypothesis HX : contains p Xi x.
Hypothesis HZ : contains p Zi z.

Lemma baseTerrainI_sound : contains p (baseTerrainI p Xi Zi) (baseTerrain x z).
Proof. unfold baseTerrainI, baseTerrain. enclose. now apply pseudoNoiseI_sound. Qed.

Lemma distFromMountainI_sound :
  contains p (distFromMountainI p Xi Zi) (distFromMountain x z).
Proof.
  unfold distFromMountainI, distFromMountain, warpFreq, warpAmp, mountainCenterX,
    mountainCenterZ. cbv zeta. enclose.
Qed.

Lemma lakeDistI_sound : contains p (lakeDistI p Xi Zi) (lakeDist x z).
Proof.
  unfold lakeDistI, lakeDist, lakeCenterX, lakeCenterZ, lakeRadiusX, lakeRadiusZ.
  cbv zeta. enclose.
Qed.

Lemma mountainRiseI_sound D d :
  contains p D d -> contains p (mountainRiseI p Xi Zi D) (mountainRise x z d).
Proof.
  intros HD. unfold mountainRiseI, mountainRise, mountainRadius, mountainHeight.
  cbv zeta. enclose; apply pseudoNoiseI_sound; enclose.
Qed.

Lemma groundCeilingI_sound :
  contains p (groundCeilingI p Xi Zi) (groundCeiling x z).
Proof.
  pose proof distFromMountainI_sound as HD.
  unfold groundCeilingI, groundCeiling, mountainRadius. cbv zeta. enclose.
Qed.

Lemma getHeightI_sound : contains p (getHeightI p Xi Zi) (getHeight x z).
Proof.
  pose proof baseTerrainI_sound as HB.
  pose proof distFromMountainI_sound as HD.
  pose proof lakeDistI_sound as HL.
  pose proof (mountainRiseI_sound _ _ HD) as HM.
  unfold getHeightI, getHeight, mountainRadius. cbv zeta. cbn [pow].
  enclose.
Qed.

End HeightEnclosure.

(** ** Enclosures of the frame callback: soundness *)

Lemma some_inj (A : Type) (x y : A) : Some x = Some y -> x = y.
Proof. now intros [= ->]. Qed.

Ltac literal :=
  match goal with
  | |- contains _ (Iz _ ?n) _ =>
      apply (contains_ext _ _ (IZR n)); [lra|apply Iz_sound; assumption]
  | |- contains _ (Iq _ ?n ?d) _ =>
      apply (contains_ext _ _ (IZR n / IZR d)); [lra|apply Iq_sound; [assumption|lia]]
  end.

(** *** The quick look at the terrain *)

Lemma safeAltitudeI_sound p s H S h :
  (0 <= p)%Z ->
  safeAltitudeI p s H = Some S -> contains p H h -> contains p S (safeAltitude s h).
Proof.
  intros p_nonneg E HH. unfold safeAltitudeI, safeAltitude, waterLevel in *. cbv zeta.
  destruct (Ilt H (Iz p (-2))) as [c|] eqn:Ec; [|discriminate].
  assert (L : ltb h (-2.0) = c).
  { eapply (Ilt_sound p p_nonneg); [exact Ec|exact HH|literal]. }
  rewrite L. destruct c; apply some_inj in E; subst S; destruct s;
    first [apply Isub_sound | apply Iadd_sound]; first [literal | exact HH].
Qed.

Lemma Icoarsen_sound p q A x :
  (0 <= q <= p)%Z -> contains p A x -> contains q (Icoarsen p q A) x.
Proof.
  intros Hq HA. unfold Icoarsen.
  pose proof (Ihalve_sound p (Z.to_nat (p - q)) A x HA) as H.
  destruct (Ihalve _ A) as [a|]; [|exact Logic.I].
  unfold contains, valueOf, zcontains, zwithin in *.
  replace (x * unitR q) with (x / 2 ^ Z.to_nat (p - q) * unitR p); [exact H|].
  assert (E : unitR p = unitR q * 2 ^ Z.to_nat (p - q)).
  { unfold unitR. rewrite pow_IZR, <- mult_IZR. apply f_equal.
    rewrite Z2Nat.id by lia. rewrite <- Z.pow_add_r by lia. f_equal. lia. }
  rewrite E.
  assert (Hn : 2 ^ Z.to_nat (p - q) <> 0) by (apply pow_nonzero; lra).
  field. exact Hn.
Qed.

(** West or south of the mountain's footprint the ground is nowhere above
    the hills. *)
Lemma warp_bound (a b : R) : -60 <= sin a * warpAmp + cos b * warpAmp * 0.5 <= 60.
Proof.
  pose proof (SIN_bound a). pose proof (COS_bound b). unfold warpAmp. lra.
Qed.

Lemma warp_bound' (a b : R) : -60 <= cos a * warpAmp + sin b * warpAmp * 0.5 <= 60.
Proof.
  pose proof (COS_bound a). pose proof (SIN_bound b). unfold warpAmp. lra.
Qed.

Lemma outside_mountain (x z : R) :
  x <= 30 \/ 100 <= z -> mountainRadius <= distFromMountain x z.
Proof.
  intros H. unfold distFromMountain, mountainRadius, mountainCenterX, mountainCenterZ.
  cbv zeta.
  pose proof (warp_bound (x * warpFreq) (z * warpFreq * 0.7)) as Hx.
  pose proof (warp_bound' (z * warpFreq * 0.8) (x * warpFreq * 0.5)) as Hz.
  set (wx := sin _ * warpAmp + _) in *. set (wz := cos _ * warpAmp + _) in *.
  clearbody wx wz.
  replace 160 with (sqrt (160 * 160)) by (rewrite sqrt_square; lra).
  apply sqrt_le_1_alt.
  set (dx := x - wx - 250). set (dz := z - wz - -120).
  pose proof (Rle_0_sqr dx) as Hdx. pose proof (Rle_0_sqr dz) as Hdz.
  unfold Rsqr in Hdx, Hdz.
  destruct H as [H|H].
  - assert (dx <= -160) by (unfold dx; lra). assert (160 * 160 <= dx * dx) by nra. lra.
  - assert (160 <= dz) by (unfold dz; lra). assert (160 * 160 <= dz * dz) by nra. lra.
Qed.

Lemma height_outside_mountain (x z : R) :
  x <= 30 \/ 100 <= z -> getHeight x z <= 22.
Proof.
  intros H. pose proof (outside_mountain x z H) as Hm.
  pose proof (hills_upper x z) as Hh.
  unfold getHeight; cbv zeta.
  assert (E : ltb (distFromMountain x z) mountainRadius = false) by (apply ltb_false; exact Hm).
  rewrite E. set (y := baseTerrain x z + _) in *.
  assert (Hc : 0 <= (1.0 - lakeDist x z) ^ 2 * 45).
  { apply Rmult_le_pos; [apply pow2_ge_0|lra]. }
  destruct (ltb (lakeDist x z) 1.0); [destruct (ltb (y - _) (-12))|destruct (ltb y (-12))]; lra.
Qed.

Lemma safeAltitude_upper s h c : h <= c -> -5 <= c -> safeAltitude s h <= c + 5.
Proof.
  intros H Hc. unfold safeAltitude, waterLevel; cbv zeta.
  destruct (ltb h (-2.0)); destruct s; lra.
Qed.

(** The ground is nowhere above its ceiling. *)
Lemma mountainRise_bell (x z d : R) :
  mountainRise x z d <= (0.5 + 0.5 * cos (d / mountainRadius * PI)) * 182.5.
Proof.
  unfold mountainRise, mountainHeight; cbv zeta.
  pose proof (COS_bound (d / mountainRadius * PI)) as Hc.
  pose proof (pseudoNoise_range (x * 0.15) (z * 0.15)) as Hn.
  pose proof (pseudoNoise_first_term x z) as Hr.
  set (c := cos _) in *. set (n := pseudoNoise _ _) in *. set (r := Rabs _) in *.
  set (s := 0.5 + 0.5 * c).
  assert (Hs : 0 <= s) by (unfold s; lra).
  clearbody s c n r.
  replace (s * 140 + (n * 15 + r * 20) * s) with (s * (140 + n * 15 + r * 20)) by ring.
  apply Rmult_le_compat_l; lra.
Qed.

Lemma height_under_ceiling (x z : R) :
  getHeight x z <= groundCeiling x z /\ 22 <= groundCeiling x z.
Proof.
  pose proof (hills_upper x z) as Hh.
  pose proof (mountainRise_bell x z (distFromMountain x z)) as Hm.
  pose proof (COS_bound (distFromMountain x z / mountainRadius * PI)) as Hc.
  unfold getHeight, groundCeiling; cbv zeta.
  set (y := baseTerrain x z + _) in *.
  assert (Hl : 0 <= (1.0 - lakeDist x z) ^ 2 * 45).
  { apply Rmult_le_pos; [apply pow2_ge_0|lra]. }
  destruct (ltb (distFromMountain x z) mountainRadius).
  - destruct (ltb (lakeDist x z) 1.0);
      match goal with |- (if ltb ?a _ then _ else _) <= _ /\ _ => destruct (ltb a (-12)) end;
      lra.
  - destruct (ltb (lakeDist x z) 1.0);
      match goal with |- (if ltb ?a _ then _ else _) <= _ /\ _ => destruct (ltb a (-12)) end;
      lra.
Qed.

Lemma holds_true c : holds c = true -> c = Some true.
Proof. destruct c as [[|]|]; cbn; congruence. Qed.

Lemma underCeiling_sound q s X Y Zi pos :
  (0 <= q)%Z -> underCeiling q X Y Zi = true ->
  contains q X (Vector3.x pos) -> contains q Y (Vector3.y pos) ->
  contains q Zi (Vector3.z pos) ->
  safeAltitude s (terrainHeightAt pos) <= Vector3.y pos.
Proof.
  intros Hq H Hx Hy Hz. unfold underCeiling in H. apply holds_true in H.
  pose proof (groundCeilingI_sound q Hq X Zi _ _ Hx Hz) as HC.
  assert (L : leb (groundCeiling (Vector3.x pos) (Vector3.z pos) + 5) (Vector3.y pos) = true).
  { eapply (Ile_sound q Hq); [exact H| |exact Hy].
    apply Iadd_sound; [exact HC|literal]. }
  apply leb_true in L.
  destruct (height_under_ceiling (Vector3.x pos) (Vector3.z pos)) as [H1 H2].
  pose proof (safeAltitude_upper s _ _ H1 ltac:(lra)) as Hs.
  unfold terrainHeightAt. lra.
Qed.

Lemma aboveHills_sound p P pos s :
  (0 <= p)%Z -> aboveHills p P = true -> containsV p P pos ->
  safeAltitude s (terrainHeightAt pos) <= Vector3.y pos.
Proof.
  intros p_nonneg H (Hx & Hy & Hz). unfold aboveHills in H.
  apply andb_true_iff in H as [H1 H2]. apply holds_true in H1.
  assert (L1 : leb 27 (Vector3.y pos) = true).
  { eapply (Ile_sound p p_nonneg); [exact H1|literal|exact Hy]. }
  apply leb_true in L1.
  assert (Hw : Vector3.x pos <= 30 \/ 100 <= Vector3.z pos).
  { apply orb_true_iff in H2 as [H2|H2]; apply holds_true in H2.
    - left. apply leb_true. eapply (Ile_sound p p_nonneg); [exact H2|exact Hx|literal].
    - right. apply leb_true. eapply (Ile_sound p p_nonneg); [exact H2|literal|exact Hz]. }
  pose proof (safeAltitude_upper s _ 22 (height_outside_mountain _ _ Hw) ltac:(lra)) as Hs.
  unfold terrainHeightAt. lra.
Qed.

Lemma clearAt_sound q s X Y Zi pos :
  (0 <= q)%Z -> clearAt q s X Y Zi = true ->
  contains q X (Vector3.x pos) -> contains q Y (Vector3.y pos) ->
  contains q Zi (Vector3.z pos) ->
  safeAltitude s (terrainHeightAt pos) <= Vector3.y pos.
Proof.
  intros Hq H Hx Hy Hz. unfold clearAt in H.
  destruct (safeAltitudeI q s (getHeightI q X Zi)) as [S|] eqn:ES; [|discriminate].
  assert (HS : contains q S (safeAltitude s (terrainHeightAt pos))).
  { eapply (safeAltitudeI_sound q); [exact Hq|exact ES|].
    unfold terrainHeightAt. now apply getHeightI_sound. }
  destruct (Ilt Y S) as [[|]|] eqn:Ec; try discriminate.
  apply ltb_false. eapply (Ilt_sound q Hq); [exact Ec|exact Hy|exact HS].
Qed.

Lemma clearOfTerrain_sound p s P pos :
  (0 <= p)%Z -> clearOfTerrain p s P = true -> containsV p P pos ->
  ltb (Vector3.y pos) (safeAltitude s (terrainHeightAt pos)) = false.
Proof.
  intros p_nonneg H HP. apply ltb_false. unfold clearOfTerrain in H.
  destruct (aboveHills p P) eqn:Ea; [now apply (aboveHills_sound p P)|].
  destruct (coarseBits <? p)%Z eqn:Eq; [|discriminate].
  apply Z.ltb_lt in Eq. destruct HP as (Hx & Hy & Hz).
  assert (Hr : (0 <= coarseBits <= p)%Z) by (unfold coarseBits in *; lia).
  assert (Hq : (0 <= coarseBits)%Z) by lia.
  cbv zeta in H.
  destruct (underCeiling coarseBits _ _ _) eqn:Eu.
  - apply (underCeiling_sound coarseBits s _ _ _ pos Hq Eu); now apply Icoarsen_sound.
  - apply (clearAt_sound coarseBits s _ _ _ pos Hq H); now apply Icoarsen_sound.
Qed.

Section FrameEnclosures.

Variable p : Z.
Hypothesis p_nonneg : (0 <= p)%Z.

Lemma ivecZ_sound (x y z : Z) : containsV p (ivecZ p x y z) (Vector3.mk (IZR x) (IZR y) (IZR z)).
Proof. split; [|split]; now apply Iz_sound. Qed.

Lemma containsV_ext V v w : v = w -> containsV p V v -> containsV p V w.
Proof. now intros ->. Qed.

Lemma IsetY_sound V Y v y :
  containsV p V v -> contains p Y y -> containsV p (IsetY V Y) (Vector3.setY v y).
Proof. intros (Hx & _ & Hz) Hy. split; [|split]; assumption. Qed.

Lemma IaddV_sound A B a b :
  containsV p A a -> containsV p B b -> containsV p (IaddV A B) (Vector3.add a b).
Proof.
  intros (Ax & Ay & Az) (Bx & By & Bz). split; [|split]; now apply Iadd_sound.
Qed.

Lemma IsubV_sound A B a b :
  containsV p A a -> containsV p B b -> containsV p (IsubV A B) (Vector3.sub a b).
Proof.
  intros (Ax & Ay & Az) (Bx & By & Bz). split; [|split]; now apply Isub_sound.
Qed.

Lemma IscaleV_sound V S v s :
  containsV p V v -> contains p S s -> containsV p (IscaleV p V S) (Vector3.multiplyScalar v s).
Proof. intros (Hx & Hy & Hz) Hs. split; [|split]; now apply Imul_sound. Qed.

Lemma IlengthSq_sound V v :
  containsV p V v -> contains p (IlengthSq p V) (Vector3.lengthSq v).
Proof.
  intros (Hx & Hy & Hz). unfold IlengthSq, Vector3.lengthSq.
  repeat apply Iadd_sound; now apply Imul_sound.
Qed.

Lemma Ilength_sound V v : containsV p V v -> contains p (Ilength p V) (Vector3.length v).
Proof. intros H. apply Isqrt_sound; [assumption|now apply IlengthSq_sound]. Qed.

Lemma IdistanceTo_sound A B a b :
  containsV p A a -> containsV p B b ->
  contains p (IdistanceTo p A B) (Vector3.distanceTo a b).
Proof.
  intros (Ax & Ay & Az) (Bx & By & Bz).
  unfold IdistanceTo, Vector3.distanceTo, Vector3.distanceToSquared. cbv zeta.
  apply Isqrt_sound; [assumption|].
  repeat apply Iadd_sound; apply Imul_sound; try assumption; now apply Isub_sound.
Qed.

Lemma IorOne_sound L l : contains p L l -> contains p (IorOne L) (orOne l).
Proof.
  intros H. unfold IorOne. destruct (Ipos L) eqn:E; [|apply contains_None].
  pose proof (Ipos_sound p p_nonneg L l E H) as Hl.
  unfold orOne. destruct (Req_dec_T l 0); [lra|exact H].
Qed.

Lemma Inormalize_sound V v :
  containsV p V v -> containsV p (Inormalize p V) (Vector3.normalize v).
Proof.
  intros H. unfold Inormalize, Vector3.normalize, Vector3.divideScalar.
  apply IscaleV_sound; [exact H|].
  apply Idiv_sound; [assumption|apply (Iz_sound p p_nonneg 1)|].
  apply IorOne_sound. now apply Ilength_sound.
Qed.

Lemma IsetLength_sound V L v l :
  containsV p V v -> contains p L l ->
  containsV p (IsetLength p V L) (Vector3.setLength v l).
Proof.
  intros HV HL. unfold IsetLength, Vector3.setLength.
  apply IscaleV_sound; [now apply Inormalize_sound|exact HL].
Qed.

(** *** State machine *)

Lemma branch_sound c s s' TG SP TU pl (a b : R) tgt speed turn fl last pool :
  branch c s s' TG SP TU = Some pl ->
  (forall c0, c = Some c0 -> ltb a b = c0) ->
  containsV p TG tgt -> contains p SP speed -> contains p TU turn ->
  let d := mkDecision (if ltb a b then s' else s) tgt speed turn fl last pool in
  nextState d = planState pl
  /\ containsV p (planTarget pl) (nextTarget d)
  /\ contains p (planSpeed pl) (desiredSpeed d)
  /\ contains p (planTurn pl) (turnSpeed d).
Proof.
  intros Hb Hc HT HS HU. destruct c as [c0|]; [|discriminate].
  injection Hb as <-. cbv zeta.
  cbn [nextState nextTarget desiredSpeed turnSpeed planState planTarget planSpeed planTurn].
  rewrite (Hc c0 eq_refl). split; [reflexivity|]. split; [assumption|]. split; assumption.
Qed.

Ltac literalV :=
  match goal with
  | |- containsV _ (ivecZ _ ?x ?y ?z) _ =>
      apply (containsV_ext _ (Vector3.mk (IZR x) (IZR y) (IZR z)));
      [unfold Vector3.set, Vector3.setY, MOUNTAIN_FIRE_CENTER, skimStart, LAKE_CENTER;
       cbn [Vector3.x Vector3.y Vector3.z]; f_equal; lra
      |apply ivecZ_sound]
  end.

Lemma stateMachineI_sound s P T pl pos time tgt rnd last pool :
  stateMachineI p s P T = Some pl ->
  containsV p P pos -> contains p T time ->
  let d := stateMachine s pos tgt time rnd last pool in
  nextState d = planState pl
  /\ containsV p (planTarget pl) (nextTarget d)
  /\ contains p (planSpeed pl) (desiredSpeed d)
  /\ contains p (planTurn pl) (turnSpeed d).
Proof.
  intros Hpl HP HT. destruct s; cbn [stateMachineI stateMachine] in *; cbv zeta in *.
  - eapply branch_sound; [exact Hpl| | | |]; try literal; try literalV.
    intros c0 Hc. eapply (Ilt_sound p p_nonneg); [exact Hc| |literal].
    apply IdistanceTo_sound; [exact HP|literalV].
  - eapply branch_sound; [exact Hpl| | | |]; try literal; try literalV.
    intros c0 Hc. eapply (Ilt_sound p p_nonneg); [exact Hc| |literal].
    apply IdistanceTo_sound; [exact HP|literalV].
  - set (tg := Vector3.set tgt (Vector3.x skimStart) (-3.0) (Vector3.z skimStart)) in *.
    assert (HTG : containsV p (ivecZ p (-180) (-3) 70) tg) by (unfold tg; literalV).
    destruct (Ile (iy P) (Iq p (-15) 10)) as [[|]|] eqn:E1; [| |discriminate].
    + injection Hpl as <-.
      assert (L : leb (Vector3.y pos) (-1.5) = true).
      { eapply (Ile_sound p p_nonneg); [exact E1|apply HP|literal]. }
      rewrite L. cbn [orb]. destruct (gtb (time - last) 2.0);
        cbn [nextState nextTarget desiredSpeed turnSpeed planState planTarget planSpeed planTurn];
        (split; [reflexivity|split; [exact HTG|split; literal]]).
    + assert (L : leb (Vector3.y pos) (-1.5) = false).
      { eapply (Ile_sound p p_nonneg); [exact E1|apply HP|literal]. }
      rewrite L. cbn [orb].
      destruct (Ilt (IdistanceTo p P (ivecZ p (-180) (-3) 70)) (Iz p 20)) as [c0|] eqn:E2;
        [|discriminate].
      injection Hpl as <-.
      assert (L2 : ltb (Vector3.distanceTo pos tg) 20 = c0).
      { eapply (Ilt_sound p p_nonneg); [exact E2| |literal].
        apply IdistanceTo_sound; [exact HP|exact HTG]. }
      rewrite L2. destruct c0; [destruct (gtb (time - last) 2.0)|];
        cbn [nextState nextTarget desiredSpeed turnSpeed planState planTarget planSpeed planTurn];
        (split; [reflexivity|split; [exact HTG|split; literal]]).
  - set (tg := Vector3.setY skimEnd (-1.2 + sin (time * 15) * 0.6)).
    set (TG := mkIvec (Iz p (-125)) _ (Iz p 50)) in *.
    assert (HTG : containsV p TG tg).
    { unfold TG, tg, skimEnd, LAKE_CENTER, Vector3.setY. cbn [Vector3.x Vector3.y Vector3.z].
      unfold containsV. cbn [ix iy iz Vector3.x Vector3.y Vector3.z].
      split; [literal|split; [|literal]].
      apply Iadd_sound; [literal|]. apply Imul_sound; [assumption| |literal].
      apply Isin_sound; [assumption|]. apply Imul_sound; [assumption|exact HT|literal]. }
    eapply branch_sound; [exact Hpl| |exact HTG| |]; try literal.
    intros c0 Hc. eapply (Ilt_sound p p_nonneg); [exact Hc| |literal].
    unfold Vector2.distanceTo. cbn [Vector2.x Vector2.y]. cbv zeta.
    destruct HP as (Px & Py & Pz). destruct HTG as (Tx & Ty & Tz).
    apply Isqrt_sound; [assumption|].
    apply Iadd_sound; apply Imul_sound; try assumption; now apply Isub_sound.
  - eapply branch_sound; [exact Hpl| | | |]; try literal; try literalV.
    intros c0 Hc. eapply (Ilt_sound p p_nonneg); [exact Hc| |literal].
    apply IdistanceTo_sound; [exact HP|literalV].
  - eapply branch_sound; [exact Hpl| | | |]; try literal; try literalV.
    intros c0 Hc. eapply (Ilt_sound p p_nonneg); [exact Hc| |literal].
    apply IdistanceTo_sound; [exact HP|literalV].
  - eapply branch_sound; [exact Hpl| | | |]; try literal; try literalV.
    intros c0 Hc. eapply (Ilt_sound p p_nonneg); [exact Hc|literal|apply HP].
Qed.

(** *** Steering, integration and collision *)

Lemma steerVelocityI_sound TG P V SP TU DT V1 tgt pos vel speed turn dt :
  steerVelocityI p TG P V SP TU DT = Some V1 ->
  containsV p TG tgt -> containsV p P pos -> containsV p V vel ->
  contains p SP speed -> contains p TU turn -> contains p DT dt ->
  containsV p V1 (steerVelocity tgt pos vel speed turn dt).
Proof.
  intros H HTG HP HV HS HU HD. unfold steerVelocityI, steerVelocity in *. cbv zeta in *.
  set (W := IaddV V _) in *. set (w := Vector3.add vel _).
  assert (HW : containsV p W w).
  { unfold W, w. apply IaddV_sound; [exact HV|].
    apply IscaleV_sound; [|now apply Imul_sound].
    apply IsubV_sound; [|exact HV].
    apply IscaleV_sound; [|exact HS].
    apply Inormalize_sound. now apply IsubV_sound. }
  destruct (Ilt SP (Ilength p W)) as [c|] eqn:E; [|discriminate].
  assert (L : gtb (Vector3.length w) speed = c).
  { eapply (Ilt_sound p p_nonneg); [exact E|exact HS|now apply Ilength_sound]. }
  rewrite L. destruct c; apply some_inj in H; subst V1; [now apply IsetLength_sound|exact HW].
Qed.

Lemma IlerpI_sound X Y T x y t :
  contains p X x -> contains p Y y -> contains p T t ->
  contains p (IlerpI p X Y T) (lerp x y t).
Proof.
  intros HX HY HT. unfold IlerpI, lerp.
  apply Iadd_sound; apply Imul_sound; try assumption.
  apply Isub_sound; [literal|exact HT].
Qed.

Lemma terrainCollisionI_sound s P V DT P' V' pos vel dt :
  terrainCollisionI p s P V DT = Some (P', V') ->
  containsV p P pos -> containsV p V vel -> contains p DT dt ->
  containsV p P' (fst (terrainCollision s pos vel dt))
  /\ containsV p V' (snd (terrainCollision s pos vel dt)).
Proof.
  intros H HP HV HD. unfold terrainCollisionI in H.
  destruct (clearOfTerrain p s P) eqn:Eclear.
  { pose proof (clearOfTerrain_sound p s P pos p_nonneg Eclear HP) as L.
    unfold terrainCollision; cbv zeta. rewrite L.
    apply some_inj in H. injection H as <- <-. cbn [fst snd]. split; assumption. }
  unfold terrainCollision, terrainHeightAt in *. cbv zeta.
  destruct (safeAltitudeI p s (getHeightI p (ix P) (iz P))) as [S|] eqn:ES; [|discriminate].
  assert (HS : contains p S (safeAltitude s (getHeight (Vector3.x pos) (Vector3.z pos)))).
  { eapply (safeAltitudeI_sound p); [exact p_nonneg|exact ES|].
    destruct HP as (Hx & _ & Hz). now apply getHeightI_sound. }
  set (sf := safeAltitude s _) in *.
  destruct (Ilt (iy P) S) as [c|] eqn:Ec; [|discriminate].
  assert (L : ltb (Vector3.y pos) sf = c).
  { eapply (Ilt_sound p p_nonneg); [exact Ec|apply HP|exact HS]. }
  rewrite L. destruct c.
  - destruct (Ilt (iy V) (Iz p 0)) as [d|] eqn:Ed; [|discriminate].
    assert (L2 : ltb (Vector3.y vel) 0 = d).
    { eapply (Ilt_sound p p_nonneg); [exact Ed|apply HV|literal]. }
    rewrite L2. apply some_inj in H. injection H as <- <-. cbn [fst snd]. split.
    + apply IsetY_sound; [exact HP|].
      apply IlerpI_sound; [apply HP|exact HS|].
      apply Imul_sound; [assumption|exact HD|literal].
    + destruct d; [|exact HV].
      apply IsetY_sound; [exact HV|]. apply Imul_sound; [assumption|apply HV|literal].
  - apply some_inj in H. injection H as <- <-. cbn [fst snd]. split; assumption.
Qed.

(** *** One frame *)

Lemma useFrameI_sound DT T k k' f v g a :
  useFrameI p DT T k = Some k' ->
  groupRef v = Some g ->
  contains p DT (frameDt f) -> contains p T (clock f) ->
  state a = kinState k ->
  containsV p (kinPos k) (position a) ->
  containsV p (kinVel k) (velocity a) ->
  let a' := snd (useFrame f v a) in
  state a' = kinState k'
  /\ containsV p (kinPos k') (position a')
  /\ containsV p (kinVel k') (velocity a').
Proof.
  intros H Hg HD HT Hs HP HV a'. unfold useFrameI in H.
  destruct (stateMachineI p (kinState k) (kinPos k) T) as [pl|] eqn:Epl; [|discriminate].
  destruct (steerVelocityI p (planTarget pl) (kinPos k) (kinVel k) (planSpeed pl)
              (planTurn pl) DT) as [V1|] eqn:EV; [|discriminate].
  cbv zeta in H.
  destruct (terrainCollisionI p (kinState k) _ V1 DT) as [[P2 V2]|] eqn:EC; [|discriminate].
  apply some_inj in H. subst k'. cbn [kinState kinPos kinVel].
  assert (Hdec : nextState (frameDecision f a) = planState pl
                 /\ containsV p (planTarget pl) (nextTarget (frameDecision f a))
                 /\ contains p (planSpeed pl) (desiredSpeed (frameDecision f a))
                 /\ contains p (planTurn pl) (turnSpeed (frameDecision f a))).
  { unfold frameDecision. destruct (rippleTrigger _ _ _ _ _) as [last pool].
    rewrite Hs. eapply stateMachineI_sound; [exact Epl|exact HP|exact HT]. }
  destruct Hdec as (Hst & Htg & Hsp & Htu).
  assert (HW : containsV p V1 (steeredVelocity f a)).
  { unfold steeredVelocity. eapply steerVelocityI_sound; eassumption. }
  assert (HQ : containsV p (IaddV (kinPos k) (IscaleV p V1 DT)) (integratedPosition f a)).
  { unfold integratedPosition, integrate. apply IaddV_sound; [exact HP|].
    now apply IscaleV_sound. }
  pose proof (useFrame_kinematics f v g a Hg) as Hk. fold a' in Hk.
  rewrite Hs in Hk.
  destruct (terrainCollisionI_sound _ _ _ _ _ _ _ _ _ EC HQ HW HD) as [HP2 HV2].
  rewrite <- Hk in HP2, HV2. cbn [fst snd] in HP2, HV2.
  split; [|split; assumption].
  unfold a'. rewrite (useFrame_state f v g a Hg). exact Hst.
Qed.

End FrameEnclosures.

(** ** A synthetic run *)

Lemma useFrame_mounted f v g a :
  groupRef v = Some g -> exists g', groupRef (fst (useFrame f v a)) = Some g'.
Proof.
  intros Hg. unfold useFrame. rewrite Hg.
  destruct (rippleTrigger _ _ _ _ _) as [last pool].
  destruct (terrainCollision _ _ _ _) as [cp cv].
  destruct (ripplesRef v) as [mesh|]; [destruct (updateRipples _ _ _)|]; eexists; reflexivity.
Qed.

Section SyntheticRun.

Variables (p rate : Z) (rnd : nat -> R).
Hypothesis p_nonneg : (0 <= p)%Z.
Hypothesis rate_min : (10 <= rate)%Z.

Lemma syntheticFrame_dt n :
  contains p (Iq p 1 rate) (frameDt (syntheticFrame rate rnd n)).
Proof.
  assert (HR : 10 <= IZR rate) by (apply IZR_le in rate_min; exact rate_min).
  assert (E : frameDt (syntheticFrame rate rnd n) = IZR 1 / IZR rate).
  { unfold frameDt, syntheticFrame. cbn [delta]. apply Rmin_left.
    apply Rmult_le_reg_r with (IZR rate); [lra|].
    replace (1 / IZR rate * IZR rate) with 1 by (field; lra). lra. }
  rewrite E. apply Iq_sound; [assumption|lia].
Qed.

Lemma syntheticFrame_clock n :
  contains p (Imul p (Iz p (Z.of_nat (S n))) (Iq p 1 rate)) (clock (syntheticFrame rate rnd n)).
Proof.
  unfold syntheticFrame. cbn [clock]. rewrite INR_IZR_INZ.
  apply Imul_sound; [assumption|now apply Iz_sound|].
  apply (contains_ext _ _ (IZR 1 / IZR rate)); [reflexivity|]. apply Iq_sound; [assumption|lia].
Qed.

Lemma runI_sound count : forall n k l v g a,
  runI p rate n count k = Some l ->
  groupRef v = Some g ->
  state a = kinState k ->
  containsV p (kinPos k) (position a) ->
  containsV p (kinVel k) (velocity a) ->
  stateTrace (syntheticFrames rate rnd n count) v a = l.
Proof.
  induction count as [|c IH]; intros n k l v g a H Hg Hs HP HV.
  - cbn in H. injection H as <-. reflexivity.
  - cbn [runI] in H. cbv zeta in H.
    destruct (useFrameI p (Iq p 1 rate) _ k) as [k'|] eqn:E; [|discriminate].
    destruct (runI p rate (S n) c k') as [l'|] eqn:E'; [|discriminate].
    apply some_inj in H. subst l.
    cbn [syntheticFrames stateTrace].
    pose proof (useFrameI_sound p p_nonneg _ _ _ _ (syntheticFrame rate rnd n) v g a E Hg
                  (syntheticFrame_dt n) (syntheticFrame_clock n) Hs HP HV) as (Hs' & HP' & HV').
    destruct (useFrame_mounted (syntheticFrame rate rnd n) v g a Hg) as [g' Hg'].
    destruct (useFrame (syntheticFrame rate rnd n) v a) as [v' a']. cbn [fst snd] in *.
    rewrite Hs'. f_equal. now apply (IH (S n) k' l' v' g' a').
Qed.

Lemma initialKin_sound :
  state initialActor = kinState (initialKin p)
  /\ containsV p (kinPos (initialKin p)) (position initialActor)
  /\ containsV p (kinVel (initialKin p)) (velocity initialActor).
Proof.
  split; [reflexivity|]. split; apply ivecZ_sound; assumption.
Qed.

Lemma run_visits count L v g :
  option_map (visits CINEMATIC_ENTRY) (runI p rate 0 count (initialKin p)) = Some L ->
  groupRef v = Some g ->
  visits (state initialActor) (stateTrace (syntheticFrames rate rnd 0 count) v initialActor) = L.
Proof.
  intros H Hg. destruct (runI p rate 0 count (initialKin p)) as [l|] eqn:E; [|discriminate].
  apply some_inj in H. destruct initialKin_sound as (Hs & HP & HV).
  rewrite (runI_sound count 0%nat _ l v g initialActor E Hg Hs HP HV). exact H.
Qed.

End SyntheticRun.

(** The runs at 10, 20, 30 and 60 frames per second, computed on
    enclosures. *)
Lemma run10_computed :
  option_map (visits CINEMATIC_ENTRY) (runI runBits 10 0 490 (initialKin runBits))
  = Some twoLaps.
Proof. vm_cast_no_check (eq_refl (Some twoLaps)). Qed.

Lemma run20_computed :
  option_map (visits CINEMATIC_ENTRY) (runI runBits 20 0 980 (initialKin runBits))
  = Some twoLaps.
Proof. vm_cast_no_check (eq_refl (Some twoLaps)). Qed.

Lemma run30_computed :
  option_map (visits CINEMATIC_ENTRY) (runI runBits 30 0 1470 (initialKin runBits))
  = Some twoLaps.
Proof. vm_cast_no_check (eq_refl (Some twoLaps)). Qed.

Lemma run60_computed :
  option_map (visits CINEMATIC_ENTRY) (runI runBits 60 0 2940 (initialKin runBits))
  = Some twoLaps.
Proof. vm_cast_no_check (eq_refl (Some twoLaps)). Qed.

Lemma visits_In l : forall s0 s, In s (visits s0 l) -> In s (s0 :: l).
Proof.
  induction l as [|s' l IH]; intros s0 s; cbn [visits].
  - auto.
  - destruct (BirdState_eqb s0 s').
    + intros H. apply IH in H. destruct H as [H|H]; [now left|now right; right].
    + intros [H|H]; [now left|]. right. now apply IH.
Qed.

Lemma twoLaps_complete s : In s twoLaps.
Proof. unfold twoLaps. destruct s; cbn; auto 20. Qed.

(** C6: every transition of the frame callback is an edge of the behaviour
    table (or leaves the state as it is); and the run from the initial actor
    with a fixed delta of 1/10, 1/20, 1/30 or 1/60 second, whatever the
    random draws, enters within 49 seconds the states in the order
    CINEMATIC_ENTRY, DIVE_BOMB, PULL_UP, and then twice APPROACH_LAKE,
    DIVE_LAKE, SKIM, CLIMB_MOUNTAIN, DIVE_BOMB, PULL_UP, ending in
    APPROACH_LAKE: every state is visited, the loop closes and it is gone
    round a second time. *)
Theorem C6_behaviour_cycle :
  (forall f v a,
      state (snd (useFrame f v a)) = state a
      \/ edge (state a) (state (snd (useFrame f v a))) = true)
  /\ (forall (rate : Z) (rnd : nat -> R) (v : View) (g : Group),
        In rate runRates ->
        groupRef v = Some g ->
        let trace :=
          stateTrace (syntheticFrames rate rnd 0 (runLength rate)) v initialActor in
        visits (state initialActor) trace = twoLaps
        /\ (forall s, In s (state initialActor :: trace))).
Proof.
  split; [apply useFrame_edge|].
  intros rate rnd v g Hin Hg trace.
  assert (Hp : (0 <= runBits)%Z) by (unfold runBits; lia).
  assert (H : visits (state initialActor) trace = twoLaps).
  { unfold trace. clear trace. unfold runRates in Hin.
    destruct Hin as [<-|[<-|[<-|[<-|[]]]]].
    - assert (Hr : (10 <= 10)%Z) by lia.
      exact (run_visits runBits 10 rnd Hp Hr 490 twoLaps v g run10_computed Hg).
    - assert (Hr : (10 <= 20)%Z) by lia.
      exact (run_visits runBits 20 rnd Hp Hr 980 twoLaps v g run20_computed Hg).
    - assert (Hr : (10 <= 30)%Z) by lia.
      exact (run_visits runBits 30 rnd Hp Hr 1470 twoLaps v g run30_computed Hg).
    - assert (Hr : (10 <= 60)%Z) by lia.
      exact (run_visits runBits 60 rnd Hp Hr 2940 twoLaps v g run60_computed Hg). }
  clearbody trace.
  split; [exact H|]. intros s. apply visits_In. rewrite H. apply twoLaps_complete.
Qed.

Lemma C6_behaviour_cycle_witness :
  let v := mkView (Some (mkGroup (position initialActor) (position initialActor) 0)) None None in
  visits (state initialActor)
         (stateTrace (syntheticFrames 60 (fun _ => 0.5) 0 (runLength 60)) v initialActor)
  = twoLaps.
Proof.
  intros v. destruct C6_behaviour_cycle as [_ H].
  destruct (H 60%Z (fun _ => 0.5) v (mkGroup (position initialActor) (position initialActor) 0)
              ltac:(cbn; auto) eq_refl)
    as [H60 _].
  exact H60.
Defined.

(** * Properties of the rest of the code *)

(** ** Height field: shape of the terrain *)

Lemma hills_lower (x z : R) :
  2 <= baseTerrain x z + sin (x * 0.5) * cos (z * 0.5) * 1.0.
Proof.
  pose proof (baseTerrain_range x z). pose proof (sin_cos_product_bound (x * 0.5) (z * 0.5)).
  lra.
Qed.

(** The bell profile of the mountain lies in [0, 1], so the mountain block
    adds between 0 and 182.5 to the elevation. *)
Lemma mountainRise_range (x z d : R) : 0 <= mountainRise x z d <= 182.5.
Proof.
  unfold mountainRise, mountainHeight; cbv zeta.
  pose proof (COS_bound (d / mountainRadius * PI)) as Hc.
  pose proof (pseudoNoise_range (x * 0.15) (z * 0.15)) as Hn.
  pose proof (Rabs_pos (sin (x * 0.05) * cos (z * 0.05))) as Ha.
  pose proof (pseudoNoise_first_term x z) as Hb.
  set (c := cos _) in *. set (n := pseudoNoise _ _) in *. set (r := Rabs _) in *.
  set (s := 0.5 + 0.5 * c).
  assert (Hs : 0 <= s <= 1) by (unfold s; lra).
  clearbody s c n r.
  replace (s * 140 + (n * 15 + r * 20) * s) with (s * (140 + n * 15 + r * 20)) by ring.
  split; [apply Rmult_le_pos; lra|].
  assert (s * (140 + n * 15 + r * 20) <= 1 * (140 + n * 15 + r * 20))
    by (apply Rmult_le_compat_r; lra).
  lra.
Qed.

Lemma lakeDist_nonneg (x z : R) : 0 <= lakeDist x z.
Proof. unfold lakeDist; cbv zeta. apply sqrt_pos. Qed.

(** The elevation before the lake is carved and the floor applied. *)
Lemma getHeight_uncarved (x z : R) :
  let y := baseTerrain x z + sin (x * 0.5) * cos (z * 0.5) * 1.0 in
  let d := distFromMountain x z in
  let y := if ltb d mountainRadius then y + mountainRise x z d else y in
  1 <= lakeDist x z -> getHeight x z = y.
Proof.
  cbv zeta. intros Hl. unfold getHeight; cbv zeta.
  assert (E : ltb (lakeDist x z) 1.0 = false) by (apply ltb_false; lra).
  rewrite E.
  pose proof (hills_lower x z) as Hh.
  pose proof (mountainRise_range x z (distFromMountain x z)) as Hm.
  match goal with |- (if ltb ?y _ then _ else _) = _ => destruct (ltb y (-12)) eqn:E2 end;
    [|reflexivity].
  apply ltb_true in E2. destruct (ltb (distFromMountain x z) mountainRadius); lra.
Qed.

(** X1: the elevation never exceeds 204.5: the rolling hills reach at most
    22 and the mountain adds at most 182.5. *)
Theorem X1_height_ceiling (x z : R) : getHeight x z <= 204.5.
Proof.
  unfold getHeight; cbv zeta.
  pose proof (hills_upper x z) as Hh.
  pose proof (mountainRise_range x z (distFromMountain x z)) as Hm.
  pose proof (lakeDist_nonneg x z) as Hl.
  set (h := baseTerrain x z + _) in *.
  set (y1 := if ltb _ mountainRadius then _ else _).
  assert (Hy1 : y1 <= 204.5) by (unfold y1; destruct (ltb _ mountainRadius); lra).
  clearbody y1.
  set (y2 := if ltb _ 1.0 then _ else _).
  assert (Hy2 : y2 <= 204.5).
  { unfold y2. destruct (ltb _ 1.0); [|lra].
    assert (0 <= (1.0 - lakeDist x z) ^ 2) by (apply pow2_ge_0). lra. }
  clearbody y2. destruct (ltb y2 (-12)); lra.
Qed.

(** The lake's ellipse of influence ends west of x = 20. *)
Lemma lakeDist_east (x z : R) : 20 <= x -> 1 <= lakeDist x z.
Proof.
  intros Hx. unfold lakeDist, lakeCenterX, lakeCenterZ, lakeRadiusX, lakeRadiusZ; cbv zeta.
  replace 1 with (sqrt (1 * 1)) at 1 by (rewrite sqrt_square; lra).
  apply sqrt_le_1_alt.
  pose proof (SIN_bound (z * 0.1)) as Ha.
  set (a := sin _) in *. set (lz := z - 80 + _).
  pose proof (Rle_0_sqr lz) as Hz. unfold Rsqr in Hz. clearbody lz a.
  assert (205 * 205 <= (x - -200 + a * 15) * (x - -200 + a * 15)) by nra.
  lra.
Qed.

(** Outside the lake's ellipse the ground is at least 2 high. *)
Lemma height_dry_outside_lake (x z : R) : 1 <= lakeDist x z -> 2 <= getHeight x z.
Proof.
  intros Hl. rewrite (getHeight_uncarved x z Hl).
  pose proof (hills_lower x z) as Hh.
  pose proof (mountainRise_range x z (distFromMountain x z)) as Hm.
  destruct (ltb _ mountainRadius); lra.
Qed.

(** X2: outside the lake's ellipse of influence the ground is dry: wherever
    the normalised lake distance is at least 1 the elevation is at least 2,
    four units above the water plane; so the elevation is below the water
    plane only inside the ellipse. *)
Theorem X2_dry_outside_lake (x z : R) :
  (1 <= lakeDist x z -> 2 <= getHeight x z)
  /\ (getHeight x z < waterLevel -> lakeDist x z < 1).
Proof.
  split; [apply height_dry_outside_lake|].
  intros Hw. unfold waterLevel in Hw.
  destruct (Rlt_le_dec (lakeDist x z) 1) as [Hl|Hl]; [exact Hl|].
  pose proof (height_dry_outside_lake x z Hl). lra.
Qed.

Lemma X2_dry_outside_lake_witness : 2 <= getHeight 200 0.
Proof.
  apply (X2_dry_outside_lake 200 0). apply lakeDist_east. lra.
Defined.

(** X3: high ground is on the mountain only: a point whose warped distance
    from the mountain centre is at least the mountain radius has an
    elevation of at most 22, and at such a point outside the lake's ellipse
    the elevation is the rolling-hill value, between 2 and 22. *)
Theorem X3_hills_outside_mountain (x z : R) :
  mountainRadius <= distFromMountain x z ->
  getHeight x z <= 22
  /\ (1 <= lakeDist x z ->
      getHeight x z = baseTerrain x z + sin (x * 0.5) * cos (z * 0.5) * 1.0
      /\ 2 <= getHeight x z).
Proof.
  intros Hd.
  assert (E : ltb (distFromMountain x z) mountainRadius = false) by (apply ltb_false; exact Hd).
  pose proof (hills_upper x z) as Hu. pose proof (hills_lower x z) as Hl.
  split.
  - unfold getHeight; cbv zeta. rewrite E.
    set (h := baseTerrain x z + _) in *.
    set (y2 := if ltb _ 1.0 then _ else _).
    assert (Hy2 : y2 <= 22).
    { unfold y2. destruct (ltb _ 1.0); [|lra].
      assert (0 <= (1.0 - lakeDist x z) ^ 2) by (apply pow2_ge_0). lra. }
    clearbody y2. destruct (ltb y2 (-12)); lra.
  - intros Hk. pose proof (getHeight_uncarved x z Hk) as Hg. cbv zeta in Hg.
    rewrite E in Hg. rewrite Hg. split; [reflexivity|lra].
Qed.

Lemma X3_hills_outside_mountain_witness :
  getHeight (Vector3.x LAKE_CENTER) (Vector3.z LAKE_CENTER) <= 22.
Proof.
  apply (X3_hills_outside_mountain (Vector3.x LAKE_CENTER) (Vector3.z LAKE_CENTER)).
  apply lake_center_outside_mountain.
Defined.

(** ** Flight controller: speed, step and visual updates *)

Lemma length_le_of_sq v s : 0 <= s -> Vector3.lengthSq v <= s * s -> Vector3.length v <= s.
Proof.
  intros Hs H. unfold Vector3.length.
  replace s with (sqrt (s * s)) by (apply sqrt_square; exact Hs).
  apply sqrt_le_1_alt. exact H.
Qed.

Lemma sq_le_of_length v s : Vector3.length v <= s -> Vector3.lengthSq v <= s * s.
Proof.
  intros H. pose proof (length_nonneg v). pose proof (length_sqr v). nra.
Qed.

Lemma setLength_length v s :
  0 < Vector3.length v -> 0 <= s -> Vector3.length (Vector3.setLength v s) = s.
Proof.
  intros HL Hs.
  assert (E : Vector3.lengthSq (Vector3.setLength v s) = s * s).
  { unfold Vector3.setLength, Vector3.normalize, Vector3.divideScalar, Vector3.multiplyScalar,
      orOne.
    destruct (Req_dec_T (Vector3.length v) 0) as [E|_]; [lra|].
    pose proof (length_sqr v) as HS.
    set (L := Vector3.length v) in *.
    unfold Vector3.lengthSq in *. cbn [Vector3.x Vector3.y Vector3.z].
    set (a := Vector3.x v) in *. set (b := Vector3.y v) in *. set (c := Vector3.z v) in *.
    replace (a * (1 / L) * s * (a * (1 / L) * s) + b * (1 / L) * s * (b * (1 / L) * s)
             + c * (1 / L) * s * (c * (1 / L) * s))
      with ((a * a + b * b + c * c) * (s * s) / (L * L)) by (field; lra).
    rewrite <- HS. field. lra. }
  unfold Vector3.length at 1. rewrite E. apply sqrt_square. exact Hs.
Qed.

(** Steering never leaves the velocity longer than the desired speed. *)
Lemma steerVelocity_length tgt p vel ds ts dt :
  0 <= ds -> Vector3.length (steerVelocity tgt p vel ds ts dt) <= ds.
Proof.
  intros Hs. unfold steerVelocity; cbv zeta.
  match goal with |- context [gtb ?l ds] => destruct (gtb l ds) eqn:E end.
  - apply gtb_true in E. rewrite setLength_length; lra.
  - apply gtb_false in E. exact E.
Qed.

(** The collision step never lengthens the velocity. *)
Lemma terrainCollision_velocity s p vel dt :
  Vector3.lengthSq (snd (terrainCollision s p vel dt)) <= Vector3.lengthSq vel
  /\ Vector3.x (snd (terrainCollision s p vel dt)) = Vector3.x vel
  /\ Vector3.z (snd (terrainCollision s p vel dt)) = Vector3.z vel.
Proof.
  unfold terrainCollision; cbv zeta.
  destruct (ltb (Vector3.y p) _); cbn [snd]; [|repeat split; lra].
  destruct (ltb (Vector3.y vel) 0) eqn:E; [|repeat split; lra].
  unfold Vector3.setY, Vector3.lengthSq; cbn [Vector3.x Vector3.y Vector3.z].
  repeat split; nra.
Qed.

Lemma stateMachine_desiredSpeed s p tgt time rnd last pool :
  40 <= desiredSpeed (stateMachine s p tgt time rnd last pool) <= 100.
Proof.
  destruct s; cbn [stateMachine desiredSpeed]; try lra.
  destruct (_ || _); [destruct (gtb _ _)|]; cbn [desiredSpeed]; lra.
Qed.

Lemma frameDecision_desiredSpeed f a : 40 <= desiredSpeed (frameDecision f a) <= 100.
Proof.
  unfold frameDecision. destruct (rippleTrigger _ _ _ _ _) as [last pool].
  apply stateMachine_desiredSpeed.
Qed.

Lemma steeredVelocity_length f a :
  Vector3.length (steeredVelocity f a) <= desiredSpeed (frameDecision f a).
Proof.
  unfold steeredVelocity; cbv zeta. apply steerVelocity_length.
  pose proof (frameDecision_desiredSpeed f a). lra.
Qed.

Lemma frameDt_range f : 0 <= delta f -> 0 <= frameDt f <= 0.1.
Proof. intros H. unfold frameDt, Rmin. destruct (Rle_dec _ _); lra. Qed.

Lemma frameDt_upper f : frameDt f <= 0.1.
Proof. unfold frameDt, Rmin. destruct (Rle_dec _ _); lra. Qed.

(** X4: at the end of every frame the speed of the parrot is at most the
    desired speed of the state the frame started in, which is one of 40, 60,
    70, 90 and 100; so the parrot never flies faster than 100. *)
Theorem X4_speed_cap (f : Frame) (v : View) (g : Group) (a : Actor) :
  groupRef v = Some g ->
  Vector3.length (velocity (snd (useFrame f v a))) <= desiredSpeed (frameDecision f a)
  /\ desiredSpeed (frameDecision f a) <= 100.
Proof.
  intros Hg. pose proof (useFrame_kinematics f v g a Hg) as Hk.
  pose proof (frameDecision_desiredSpeed f a) as Hd.
  split; [|lra].
  assert (Hv : velocity (snd (useFrame f v a))
               = snd (terrainCollision (state a) (integratedPosition f a)
                        (steeredVelocity f a) (frameDt f))) by (now rewrite <- Hk).
  rewrite Hv. apply length_le_of_sq; [lra|].
  destruct (terrainCollision_velocity (state a) (integratedPosition f a)
              (steeredVelocity f a) (frameDt f)) as (Hl & _).
  pose proof (sq_le_of_length _ _ (steeredVelocity_length f a)). lra.
Qed.

Lemma X4_speed_cap_witness :
  let v := mkView (Some (mkGroup (position initialActor) (position initialActor) 0)) None None in
  let f := mkFrame (1 / 60) 0.5 0.5 in
  Vector3.length (velocity (snd (useFrame f v initialActor))) <= 100.
Proof.
  intros v f.
  destruct (X4_speed_cap f v (mkGroup (position initialActor) (position initialActor) 0)
              initialActor eq_refl) as [H1 H2].
  exact (Rle_trans _ _ _ H1 H2).
Defined.

(** X5: a frame with a non-negative delta moves the parrot horizontally by
    at most the desired speed times the clamped time step, hence by at most
    10 units, whatever the frame rate. *)
Theorem X5_horizontal_step (f : Frame) (v : View) (g : Group) (a : Actor) :
  groupRef v = Some g ->
  0 <= delta f ->
  let a' := snd (useFrame f v a) in
  let step :=
    Vector2.distanceTo (Vector2.mk (Vector3.x (position a')) (Vector3.z (position a')))
                       (Vector2.mk (Vector3.x (position a)) (Vector3.z (position a))) in
  step <= desiredSpeed (frameDecision f a) * frameDt f /\ step <= 10.
Proof.
  intros Hg Hd. cbv zeta.
  pose proof (useFrame_kinematics f v g a Hg) as Hk.
  pose proof (frameDecision_desiredSpeed f a) as Hs.
  pose proof (frameDt_range f Hd) as Ht.
  assert (Hp : position (snd (useFrame f v a))
               = fst (terrainCollision (state a) (integratedPosition f a)
                        (steeredVelocity f a) (frameDt f))) by (now rewrite <- Hk).
  destruct (terrainCollision_horizontal (state a) (integratedPosition f a)
              (steeredVelocity f a) (frameDt f)) as (Hx & Hz).
  rewrite <- Hp in Hx, Hz.
  unfold Vector2.distanceTo; cbn [Vector2.x Vector2.y]. rewrite Hx, Hz.
  unfold integratedPosition, integrate, Vector3.add, Vector3.multiplyScalar.
  cbn [Vector3.x Vector3.y Vector3.z].
  pose proof (sq_le_of_length _ _ (steeredVelocity_length f a)) as Hl.
  unfold Vector3.lengthSq in Hl.
  set (w := steeredVelocity f a) in *. set (s := desiredSpeed (frameDecision f a)) in *.
  set (t := frameDt f) in *.
  set (wx := Vector3.x w) in *. set (wy := Vector3.y w) in *. set (wz := Vector3.z w) in *.
  clearbody wx wy wz s t.
  assert (Hb : sqrt ((Vector3.x (position a) + wx * t - Vector3.x (position a))
                     * (Vector3.x (position a) + wx * t - Vector3.x (position a))
                     + (Vector3.z (position a) + wz * t - Vector3.z (position a))
                       * (Vector3.z (position a) + wz * t - Vector3.z (position a)))
               <= s * t).
  { replace (s * t) with (sqrt ((s * t) * (s * t)))
      by (apply sqrt_square; apply Rmult_le_pos; lra).
    apply sqrt_le_1_alt.
    replace (Vector3.x (position a) + wx * t - Vector3.x (position a)) with (wx * t) by ring.
    replace (Vector3.z (position a) + wz * t - Vector3.z (position a)) with (wz * t) by ring.
    assert (0 <= wy * wy) by nra. assert (0 <= t * t) by nra.
    replace (wx * t * (wx * t) + wz * t * (wz * t)) with ((wx * wx + wz * wz) * (t * t)) by ring.
    replace (s * t * (s * t)) with ((s * s) * (t * t)) by ring.
    apply Rmult_le_compat_r; lra. }
  split; [exact Hb|].
  assert (s * t <= 100 * 0.1) by (apply Rmult_le_compat; lra).
  lra.
Qed.

Lemma X5_horizontal_step_witness :
  let v := mkView (Some (mkGroup (position initialActor) (position initialActor) 0)) None None in
  let f := mkFrame (1 / 60) 0.5 0.5 in
  let a' := snd (useFrame f v initialActor) in
  Vector2.distanceTo (Vector2.mk (Vector3.x (position a')) (Vector3.z (position a')))
                     (Vector2.mk (Vector3.x (position initialActor))
                                 (Vector3.z (position initialActor))) <= 10.
Proof.
  intros v f a'.
  assert (Hd : 0 <= delta f) by (cbn; lra).
  destruct (X5_horizontal_step f v (mkGroup (position initialActor) (position initialActor) 0)
              initialActor eq_refl Hd) as [_ H].
  exact H.
Defined.

(** The roll computed from the velocity is zero: the cross product of any
    vector with the vertical has no vertical component. *)
Lemma bankOf_zero vel : bankOf vel = 0.
Proof.
  unfold bankOf; cbv zeta.
  destruct (gtb _ _); cbn [Vector3.y]; [|lra].
  unfold Vector3.normalize at 1, Vector3.divideScalar, Vector3.multiplyScalar,
    Vector3.crossVectors.
  cbn [Vector3.x Vector3.y Vector3.z]. lra.
Qed.

(** X6: the visual update of a frame puts the model's group at the new
    position of the parrot and turns it towards position plus velocity; the
    roll it then applies is zero for every velocity, so the model never
    banks. *)
Theorem X6_group_pose (f : Frame) (v : View) (g : Group) (a : Actor) :
  groupRef v = Some g ->
  let a' := snd (useFrame f v a) in
  groupRef (fst (useFrame f v a))
  = Some (mkGroup (position a') (Vector3.add (position a') (velocity a')) 0)
  /\ prevY a' = Vector3.y (position a')
  /\ forall vel, bankOf vel = 0.
Proof.
  intros Hg. cbv zeta. split; [|split; [|exact bankOf_zero]].
  - unfold useFrame. rewrite Hg.
    destruct (rippleTrigger _ _ _ _ _) as [last pool].
    destruct (terrainCollision _ _ _ _) as [cp cv].
    destruct (ripplesRef v) as [mesh|]; [destruct (updateRipples _ _ _)|];
      cbn [fst snd groupRef position velocity]; now rewrite bankOf_zero.
  - unfold useFrame. rewrite Hg.
    destruct (rippleTrigger _ _ _ _ _) as [last pool].
    destruct (terrainCollision _ _ _ _) as [cp cv].
    destruct (ripplesRef v) as [mesh|]; [destruct (updateRipples _ _ _)|]; reflexivity.
Qed.

Lemma X6_group_pose_witness :
  let v := mkView (Some (mkGroup (position initialActor) (position initialActor) 0)) None None in
  let f := mkFrame (1 / 60) 0.5 0.5 in
  prevY (snd (useFrame f v initialActor))
  = Vector3.y (position (snd (useFrame f v initialActor))).
Proof.
  intros v f.
  destruct (X6_group_pose f v (mkGroup (position initialActor) (position initialActor) 0)
              initialActor eq_refl) as (_ & H & _).
  exact H.
Defined.

(** ** Flight controller: splashes, pool and refs over whole frames *)

(** The cooldown stamp after the trigger and the state machine: unchanged,
    or the frame's time, and then more than 2.0 after the stamp before. *)
Lemma frameDecision_stamp f a :
  nextLast (frameDecision f a) = lastSplashTime a
  \/ (nextLast (frameDecision f a) = clock f /\ clock f - lastSplashTime a > 2.0).
Proof.
  unfold frameDecision, rippleTrigger.
  destruct (rippleTriggerFires _ _ _ _) eqn:E.
  - right. unfold rippleTriggerFires in E.
    apply andb_true_iff in E as [_ E]. apply gtb_true in E.
    split; [|lra].
    destruct (state a); cbn [stateMachine nextLast]; try reflexivity.
    destruct (_ || _); [destruct (gtb _ _)|]; reflexivity.
  - destruct (state a); cbn [stateMachine nextLast]; try (now left).
    destruct (_ || _); [|now left].
    destruct (gtb _ _) eqn:E2; [|now left].
    right. apply gtb_true in E2. cbn [nextLast]. split; [reflexivity|lra].
Qed.

Lemma useFrame_stamp f v a :
  lastSplashTime (snd (useFrame f v a)) = lastSplashTime a
  \/ (lastSplashTime (snd (useFrame f v a)) = clock f
      /\ clock f - lastSplashTime a > 2.0).
Proof.
  destruct (groupRef v) as [g|] eqn:Hg.
  - rewrite (useFrame_lastSplashTime f v g a Hg). apply frameDecision_stamp.
  - rewrite useFrame_unmounted by exact Hg. now left.
Qed.

(** X7: a frame leaves the cooldown stamp [lastSplashTime] as it is, or
    sets it to the frame's clock time, and this only when the clock is more
    than 2.0 past the old stamp; so the stamp never decreases over a run of
    frames, whatever the clock, the deltas and the random draws are. *)
Theorem X7_splash_stamp_monotone :
  (forall f v a,
      lastSplashTime (snd (useFrame f v a)) = lastSplashTime a
      \/ (lastSplashTime (snd (useFrame f v a)) = clock f
          /\ clock f - lastSplashTime a > 2.0))
  /\ (forall fs v a, lastSplashTime a <= lastSplashTime (snd (runFrames fs v a))).
Proof.
  split; [exact useFrame_stamp|].
  induction fs as [|f fs IH]; intros v a; cbn [runFrames]; [cbn; lra|].
  pose proof (useFrame_stamp f v a) as H.
  destruct (useFrame f v a) as [v' a']. cbn [snd] in H.
  specialize (IH v' a'). destruct H as [H|[H1 H2]]; lra.
Qed.

(** X8: ripples are spawned by frames that start in [DIVE_LAKE] or [SKIM]
    only: in every other state the pool reaches the update pass as it was,
    and outside [DIVE_LAKE] the cooldown stamp is not touched. A [SKIM]
    frame spawns exactly when the random draw exceeds 0.85, with
    [SKIM_SCALE], without consulting the cooldown. *)
Theorem X8_spawn_sites (f : Frame) (a : Actor) :
  (state a <> DIVE_LAKE -> nextLast (frameDecision f a) = lastSplashTime a)
  /\ (state a <> DIVE_LAKE -> state a <> SKIM -> framePool f a = rippleData a)
  /\ (state a = SKIM ->
      framePool f a
      = if gtb (random f) 0.85
        then spawnRipple (Vector3.x (position a)) (Vector3.z (position a))
                         RIPPLE_CONFIG.SKIM_SCALE (rippleData a)
        else rippleData a).
Proof.
  unfold framePool, frameDecision, rippleTrigger, rippleTriggerFires.
  destruct (state a) eqn:Hs; cbn [BirdState_eqb andb stateMachine nextLast nextPool];
    repeat split; try reflexivity; try congruence; intros; discriminate.
Qed.

Lemma X8_spawn_sites_witness :
  let a := mkActor SKIM (Vector3.mk 30 0 (-10)) (Vector3.mk (-165) (-2) 75) (-2)
                   (Vector3.mk (-125) (-1.2) 50) 0 initialPool in
  let f := mkFrame (1 / 60) 18.5 0.5 in
  nextLast (frameDecision f a) = lastSplashTime a.
Proof.
  intros a f. apply (X8_spawn_sites f a). cbn. discriminate.
Defined.

(** Spawns and update passes of a frame keep the pool reachable. *)
Lemma framePool_reachable f a :
  reachablePool (rippleData a) -> reachablePool (framePool f a).
Proof.
  intros H. unfold framePool, frameDecision, rippleTrigger.
  set (pool1 := if rippleTriggerFires _ _ _ _ then _ else _).
  assert (H1 : reachablePool (snd pool1))
    by (unfold pool1; destruct (rippleTriggerFires _ _ _ _); cbn [snd];
        [apply reach_spawn|]; exact H).
  destruct pool1 as [last pool]. cbn [snd] in H1.
  destruct (state a); cbn [stateMachine nextPool]; try exact H1.
  - destruct (_ || _); [destruct (gtb _ _)|]; cbn [nextPool];
      [apply reach_spawn| |]; exact H1.
  - destruct (gtb _ _); [apply reach_spawn|]; exact H1.
Qed.

Lemma useFrame_reachable f v a :
  reachablePool (rippleData a) -> reachablePool (rippleData (snd (useFrame f v a))).
Proof.
  intros H. destruct (groupRef v) as [g|] eqn:Hg.
  - rewrite (useFrame_rippleData f v g a Hg).
    pose proof (framePool_reachable f a H) as Hp.
    destruct (ripplesRef v); [apply reach_tick|]; exact Hp.
  - rewrite useFrame_unmounted by exact Hg. exact H.
Qed.

Lemma runFrames_reachable fs : forall v a,
  reachablePool (rippleData a) -> reachablePool (rippleData (snd (runFrames fs v a))).
Proof.
  induction fs as [|f fs IH]; intros v a H; cbn [runFrames]; [exact H|].
  pose proof (useFrame_reachable f v a H) as H1.
  destruct (useFrame f v a) as [v' a']. now apply IH.
Qed.

(** X9: over any run of frames from the initial actor, whatever the host
    passes in and whichever refs are mounted, the ripple pool is one that
    spawns and update passes can make of the initial pool; it always holds
    exactly 5 entries, of which at most 5 are active. *)
Theorem X9_pool_along_runs (fs : list Frame) (v : View) :
  let pool := rippleData (snd (runFrames fs v initialActor)) in
  reachablePool pool /\ List.length pool = 5%nat /\ (activeCount pool <= 5)%nat.
Proof.
  cbv zeta.
  assert (H : reachablePool (rippleData (snd (runFrames fs v initialActor))))
    by (apply runFrames_reachable; apply reach_init).
  pose proof (reachablePool_length _ H) as HL.
  pose proof (activeCount_le_length (rippleData (snd (runFrames fs v initialActor)))) as HA.
  change RIPPLE_CONFIG.MAX_COUNT with 5%nat in HL.
  repeat split; [exact H|exact HL|lia].
Qed.

(** *** Life of one ripple *)

Lemma tickMany_entry dts : forall pool k,
  nth_error (tickMany dts pool) k = option_map (tickEntry dts) (nth_error pool k).
Proof.
  unfold tickMany, tickEntry.
  induction dts as [|dt dts IH]; intros pool k; cbn [fold_left].
  - now destruct (nth_error pool k).
  - rewrite IH, nth_error_map. now destruct (nth_error pool k).
Qed.

Lemma tickEntry_inactive dts p : active p = false -> tickEntry dts p = p.
Proof.
  unfold tickEntry. induction dts as [|dt dts IH]; intros H; cbn [fold_left]; [reflexivity|].
  rewrite tickRipple_inactive by exact H. now apply IH.
Qed.

Lemma tickRipple_active dt p :
  active p = true ->
  tickRipple dt p
  = if leb (life p - dt * RIPPLE_CONFIG.FADE_SPEED) 0
    then mkRipple (pos p) 0 (life p - dt * RIPPLE_CONFIG.FADE_SPEED) (maxLife p) false
    else mkRipple (pos p) (scale p + dt * RIPPLE_CONFIG.EXPANSION_SPEED)
                  (life p - dt * RIPPLE_CONFIG.FADE_SPEED) (maxLife p) true.
Proof.
  intros H. unfold tickRipple, ageRipple. rewrite H.
  cbn [life pos scale maxLife active fst].
  destruct (leb _ 0); reflexivity.
Qed.

Lemma sumR_nonneg dts : Forall (fun dt => 0 <= dt) dts -> 0 <= sumR dts.
Proof. induction 1; cbn [sumR fold_right]; [lra|]. fold (sumR l). lra. Qed.

Lemma tickEntry_alive dts : forall p,
  active p = true -> Forall (fun dt => 0 <= dt) dts -> sumR dts < life p ->
  tickEntry dts p
  = mkRipple (pos p) (scale p + sumR dts * RIPPLE_CONFIG.EXPANSION_SPEED)
             (life p - sumR dts * RIPPLE_CONFIG.FADE_SPEED) (maxLife p) true.
Proof.
  unfold RIPPLE_CONFIG.EXPANSION_SPEED, RIPPLE_CONFIG.FADE_SPEED.
  induction dts as [|dt dts IH]; intros p Ha Hd Hs.
  - destruct p as [ps sc li ml ac]. cbn in *. subst ac. f_equal; lra.
  - inversion Hd as [|? ? Hdt Hd']; subst.
    pose proof (sumR_nonneg dts Hd') as Hn.
    cbn [sumR fold_right] in Hs |- *. fold (sumR dts) in Hs |- *.
    change (tickEntry (dt :: dts) p) with (tickEntry dts (tickRipple dt p)).
    rewrite (tickRipple_active dt p Ha).
    unfold RIPPLE_CONFIG.EXPANSION_SPEED, RIPPLE_CONFIG.FADE_SPEED.
    assert (E : leb (life p - dt * 1.0) 0 = false) by (apply leb_false; lra).
    rewrite E. rewrite IH; cbn [active life pos scale maxLife]; [|reflexivity|exact Hd'|lra].
    f_equal; lra.
Qed.

Lemma tickEntry_fixed dts p : pos (tickEntry dts p) = pos p /\ maxLife (tickEntry dts p) = maxLife p.
Proof.
  unfold tickEntry. revert p. induction dts as [|dt dts IH]; intros p; cbn [fold_left];
    [now split|].
  destruct (IH (tickRipple dt p)) as [H1 H2]. rewrite H1, H2.
  unfold tickRipple, ageRipple.
  destruct (active p); [destruct (leb _ 0)|]; cbn [fst pos maxLife]; now split.
Qed.

(** Whatever the steps are, an entry that is active after the passes has
    lived through all of them, and one that is not has scale 0 (if it was
    active before). *)
Lemma tickEntry_outcome dts : forall p,
  active p = true ->
  (active (tickEntry dts p) = true ->
   tickEntry dts p
   = mkRipple (pos p) (scale p + sumR dts * RIPPLE_CONFIG.EXPANSION_SPEED)
              (life p - sumR dts * RIPPLE_CONFIG.FADE_SPEED) (maxLife p) true)
  /\ (active (tickEntry dts p) = false -> scale (tickEntry dts p) = 0).
Proof.
  unfold RIPPLE_CONFIG.EXPANSION_SPEED, RIPPLE_CONFIG.FADE_SPEED.
  induction dts as [|dt dts IH]; intros p Ha.
  - split; [intros _|intros H; cbn in H; congruence].
    destruct p as [ps sc li ml ac]. cbn in *. subst ac. f_equal; lra.
  - change (tickEntry (dt :: dts) p) with (tickEntry dts (tickRipple dt p)).
    rewrite (tickRipple_active dt p Ha).
    unfold RIPPLE_CONFIG.EXPANSION_SPEED, RIPPLE_CONFIG.FADE_SPEED.
    destruct (leb (life p - dt * 1.0) 0) eqn:E.
    + rewrite tickEntry_inactive by reflexivity. cbn [active scale].
      split; [discriminate|reflexivity].
    + match goal with |- context [tickEntry dts ?q] => destruct (IH q eq_refl) as [H1 H2] end.
      cbn [active life pos scale maxLife] in H1, H2.
      split; [|exact H2].
      intros H. rewrite (H1 H). cbn [sumR fold_right]. fold (sumR dts). f_equal; lra.
Qed.

(** X10: what update passes do to an active ripple, read off the entry
    after them. If the entry is still active, the passes have composed by
    adding their time steps: it has lost the sum of the steps (times
    [FADE_SPEED]) of life and gained the sum times [EXPANSION_SPEED] of
    scale. If the entry is no longer active, its scale is 0. In both cases
    its position and its [maxLife] are what they were. *)
Theorem X10_ripple_lifetime (dts : list R) (pool : list Ripple) (k : nat) (p q : Ripple) :
  nth_error pool k = Some p ->
  active p = true ->
  nth_error (tickMany dts pool) k = Some q ->
  (active q = true ->
   q = mkRipple (pos p) (scale p + sumR dts * RIPPLE_CONFIG.EXPANSION_SPEED)
                (life p - sumR dts * RIPPLE_CONFIG.FADE_SPEED) (maxLife p) true)
  /\ (active q = false -> scale q = 0)
  /\ pos q = pos p /\ maxLife q = maxLife p.
Proof.
  intros Hk Ha Hq. rewrite tickMany_entry, Hk in Hq. cbn [option_map] in Hq.
  apply some_inj in Hq. subst q.
  destruct (tickEntry_outcome dts p Ha) as [H1 H2].
  destruct (tickEntry_fixed dts p) as [H3 H4].
  repeat split; assumption.
Qed.

Lemma X10_ripple_lifetime_witness :
  let p := mkRipple (Vector3.mk 1 (-1.9) 2) 0.96 2 2 true in
  let q := mkRipple (Vector3.mk 1 (-1.9) 2) (0.96 + (0.5 + (0.25 + 0)) * 25)
                    (2 - (0.5 + (0.25 + 0)) * 1.0) 2 true in
  nth_error (tickMany [0.5; 0.25] [freshRipple; p]) 1 = Some q
  /\ scale q = 0.96 + (0.5 + (0.25 + 0)) * 25
  /\ pos q = pos p /\ maxLife q = maxLife p.
Proof.
  intros p q.
  assert (Hq : nth_error (tickMany [0.5; 0.25] [freshRipple; p]) 1 = Some q).
  { rewrite tickMany_entry. cbn [nth_error option_map]. f_equal.
    apply tickEntry_alive; [reflexivity|repeat constructor; lra|cbn; lra]. }
  split; [exact Hq|].
  destruct (X10_ripple_lifetime [0.5; 0.25] [freshRipple; p] 1 p q eq_refl eq_refl Hq)
    as (H1 & _ & H3 & H4).
  split; [|split; [exact H3|exact H4]].
  rewrite (H1 eq_refl). reflexivity.
Defined.

(** *** The ring mesh follows the pool *)

Lemma ageRipple_instance dt p m :
  let p' := fst (ageRipple dt p m) in
  let m' := snd (ageRipple dt p m) in
  (active p' = false -> matrix m' = None)
  /\ (active p' = true ->
      matrix m' = Some (pos p', scale p') /\ brightness m' = opacity p').
Proof.
  cbv zeta. unfold ageRipple, opacity.
  destruct (active p) eqn:Ha; cbn [life pos scale maxLife active].
  - destruct (leb _ 0); cbn [fst snd active matrix brightness pos scale life maxLife].
    + split; [reflexivity|discriminate].
    + split; [discriminate|]. intros _. split; reflexivity.
  - cbn [fst snd matrix]. rewrite Ha. split; [reflexivity|discriminate].
Qed.

(** X11: after the update pass of a frame the ring mesh shows exactly the
    active ripples: the instance of an entry that is inactive after the
    pass has the zero matrix, and the instance of an entry that is active
    after the pass is placed at the ripple's position with the ripple's
    scale and coloured with its opacity. *)
Theorem X11_mesh_follows_pool (dt : R) (pool : list Ripple) (mesh : list Instance)
    (k : nat) (p' : Ripple) (m' : Instance) :
  nth_error (fst (updateRipples dt pool mesh)) k = Some p' ->
  nth_error (snd (updateRipples dt pool mesh)) k = Some m' ->
  (active p' = false -> matrix m' = None)
  /\ (active p' = true ->
      matrix m' = Some (pos p', scale p') /\ brightness m' = opacity p').
Proof.
  revert mesh k. induction pool as [|p pool IH]; intros mesh k Hp Hm.
  - cbn in Hp. destruct k; discriminate.
  - destruct mesh as [|m mesh].
    + cbn [updateRipples] in Hm.
      assert (E : snd (updateRipples dt pool []) = []).
      { clear. induction pool as [|q pool IH]; [reflexivity|].
        cbn [updateRipples]. destruct (updateRipples dt pool []) as [ps ms].
        cbn [snd] in *. exact IH. }
      destruct (updateRipples dt pool []) as [ps ms]. cbn [snd] in *. subst ms.
      destruct k; discriminate.
    + cbn [updateRipples] in Hp, Hm.
      pose proof (ageRipple_instance dt p m) as Ha. cbv zeta in Ha.
      destruct (ageRipple dt p m) as [q n].
      specialize (IH mesh).
      destruct (updateRipples dt pool mesh) as [ps ms]. cbn [fst snd] in *.
      destruct k as [|k]; cbn [nth_error] in Hp, Hm.
      * apply some_inj in Hp. apply some_inj in Hm. subst. exact Ha.
      * now apply (IH k).
Qed.

Lemma X11_mesh_follows_pool_witness :
  let p := mkRipple (Vector3.mk 1 (-1.9) 2) 0.96 2 2 true in
  let p' := mkRipple (Vector3.mk 1 (-1.9) 2) (0.96 + 0.5 * 25) (2 - 0.5 * 1.0) 2 true in
  let pass := updateRipples 0.5 [freshRipple; p]
                [mkInstance (Some (Vector3.mk 0 0 0, 1)) 1; mkInstance None 0] in
  nth_error (fst pass) 1 = Some p'
  /\ exists m', nth_error (snd pass) 1 = Some m'
                /\ matrix m' = Some (Vector3.mk 1 (-1.9) 2, 0.96 + 0.5 * 25)
                /\ brightness m' = opacity p'.
Proof.
  intros p p' pass.
  assert (Hp : nth_error (fst pass) 1 = Some p').
  { unfold pass. rewrite updateRipples_pool. cbn [map nth_error]. f_equal.
    rewrite (tickRipple_active 0.5 p eq_refl).
    unfold RIPPLE_CONFIG.EXPANSION_SPEED, RIPPLE_CONFIG.FADE_SPEED. cbn [life pos scale maxLife p].
    assert (E : leb (2 - 0.5 * 1.0) 0 = false) by (apply leb_false; lra).
    rewrite E. reflexivity. }
  split; [exact Hp|].
  destruct (nth_error (snd pass) 1) as [m'|] eqn:Hm.
  - exists m'. split; [reflexivity|].
    exact (proj2 (X11_mesh_follows_pool 0.5 [freshRipple; p] _ 1 p' m' Hp Hm) eq_refl).
  - exfalso. unfold pass in Hm. cbn [updateRipples] in Hm.
    destruct (ageRipple 0.5 p _) as [q1 n1]. destruct (ageRipple 0.5 freshRipple _) as [q0 n0].
    cbn in Hm. discriminate.
Defined.

(** *** Refs that are not mounted *)

Lemma useFrame_view f v g a :
  groupRef v = Some g ->
  ripplesRef (fst (useFrame f v a))
  = match ripplesRef v with
    | Some mesh => Some (snd (updateRipples (frameDt f) (framePool f a) mesh))
    | None => None
    end
  /\ action (fst (useFrame f v a))
     = match action v with
       | Some s => Some (lerp s (flapSpeed (frameDecision f a)) (frameDt f * 5))
       | None => None
       end.
Proof.
  intros Hg. unfold useFrame, framePool, frameDecision, frameDt. rewrite Hg.
  destruct (rippleTrigger _ _ _ _ _) as [last pool].
  destruct (terrainCollision _ _ _ _) as [cp cv].
  destruct (ripplesRef v) as [mesh|]; [destruct (updateRipples _ _ _)|]; split; reflexivity.
Qed.

(** X12: what a frame does when a ref is not mounted. Without the model's
    group the callback returns at once: nothing is written, not even the
    cooldown stamp or the pool. Without the ring mesh the rest of the frame
    runs but the update pass is skipped altogether, so the pool is not aged:
    ripples spawned in such frames keep their full life. Without the
    animation clip the wing-beat rate is left alone. *)
Theorem X12_missing_refs (f : Frame) (v : View) (a : Actor) :
  (groupRef v = None -> useFrame f v a = (v, a))
  /\ (forall g, groupRef v = Some g -> ripplesRef v = None ->
        rippleData (snd (useFrame f v a)) = framePool f a
        /\ ripplesRef (fst (useFrame f v a)) = None)
  /\ (forall g, groupRef v = Some g -> action v = None ->
        action (fst (useFrame f v a)) = None).
Proof.
  split; [apply useFrame_unmounted|]. split.
  - intros g Hg Hr. rewrite (useFrame_rippleData f v g a Hg).
    destruct (useFrame_view f v g a Hg) as [H _]. rewrite H, Hr. split; reflexivity.
  - intros g Hg Ha. destruct (useFrame_view f v g a Hg) as [_ H]. now rewrite H, Ha.
Qed.

Lemma X12_missing_refs_witness :
  useFrame (mkFrame (1 / 60) 0.5 0.5) (mkView None None None) initialActor
  = (mkView None None None, initialActor).
Proof.
  exact (proj1 (X12_missing_refs (mkFrame (1 / 60) 0.5 0.5) (mkView None None None)
                  initialActor) eq_refl).
Defined.

(** *** Opacity of the ripples *)

Lemma wellAged_fresh : Forall wellAged initialPool.
Proof.
  unfold initialPool; cbn [repeat RIPPLE_CONFIG.MAX_COUNT].
  repeat (apply Forall_cons; [intros H; discriminate|]). apply Forall_nil.
Qed.

Lemma wellAged_activate i x z s p : i = 0%nat -> wellAged (activate i x z s p).
Proof.
  intros -> _. unfold activate; cbn [life maxLife].
  unfold RIPPLE_CONFIG.LIFE_DURATION. cbn [INR]. lra.
Qed.

Lemma Forall_updateAt (P : Ripple -> Prop) k g l :
  Forall P l -> (forall p, P (g p)) -> Forall P (updateAt k g l).
Proof.
  intros H Hg. revert k. induction H as [|p l Hp Hl IH]; intros k; [destruct k; constructor|].
  destruct k; cbn [updateAt]; constructor; auto.
Qed.

Lemma wellAged_spawnRipple x z s pool :
  Forall wellAged pool -> Forall wellAged (spawnRipple x z s pool).
Proof.
  intros H. rewrite spawnRipple_unfold. unfold spawnWave.
  destruct (findIndex _ pool); [|exact H].
  apply Forall_updateAt; [exact H|]. intros p. now apply wellAged_activate.
Qed.

Lemma wellAged_tickRipple dt p : 0 <= dt -> wellAged p -> wellAged (tickRipple dt p).
Proof.
  intros Hd Hp. destruct (active p) eqn:Ha.
  - rewrite (tickRipple_active dt p Ha). specialize (Hp Ha).
    unfold RIPPLE_CONFIG.FADE_SPEED in *.
    destruct (leb _ 0) eqn:E; intros H; cbn [active life maxLife] in *; [discriminate|].
    apply leb_false in E. lra.
  - now rewrite tickRipple_inactive.
Qed.

Lemma wellAged_framePool f a :
  Forall wellAged (rippleData a) -> Forall wellAged (framePool f a).
Proof.
  intros H. unfold framePool, frameDecision, rippleTrigger.
  set (pool1 := if rippleTriggerFires _ _ _ _ then _ else _).
  assert (H1 : Forall wellAged (snd pool1))
    by (unfold pool1; destruct (rippleTriggerFires _ _ _ _); cbn [snd];
        [apply wellAged_spawnRipple|]; exact H).
  destruct pool1 as [last pool]. cbn [snd] in H1.
  destruct (state a); cbn [stateMachine nextPool]; try exact H1.
  - destruct (_ || _); [destruct (gtb _ _)|]; cbn [nextPool];
      [apply wellAged_spawnRipple| |]; exact H1.
  - destruct (gtb _ _); [apply wellAged_spawnRipple|]; exact H1.
Qed.

Lemma wellAged_useFrame f v a :
  0 <= delta f ->
  Forall wellAged (rippleData a) -> Forall wellAged (rippleData (snd (useFrame f v a))).
Proof.
  intros Hd H. destruct (groupRef v) as [g|] eqn:Hg.
  - rewrite (useFrame_rippleData f v g a Hg).
    pose proof (wellAged_framePool f a H) as Hp.
    destruct (ripplesRef v); [|exact Hp].
    apply Forall_map. eapply Forall_impl; [|exact Hp].
    intros p. apply wellAged_tickRipple. now apply frameDt_range.
  - rewrite useFrame_unmounted by exact Hg. exact H.
Qed.

Lemma wellAged_runFrames fs : forall v a,
  Forall (fun f => 0 <= delta f) fs ->
  Forall wellAged (rippleData a) -> Forall wellAged (rippleData (snd (runFrames fs v a))).
Proof.
  induction fs as [|f fs IH]; intros v a Hd H; cbn [runFrames]; [exact H|].
  inversion Hd as [|? ? Hf Hd']; subst.
  pose proof (wellAged_useFrame f v a Hf H) as H1.
  destruct (useFrame f v a) as [v' a']. now apply IH.
Qed.

Lemma wellAged_opacity p :
  wellAged p -> active p = true -> 0 < opacity p <= RIPPLE_CONFIG.BASE_OPACITY.
Proof.
  intros H Ha. destruct (H Ha) as [[H1 H2] H3].
  unfold opacity, RIPPLE_CONFIG.BASE_OPACITY, RIPPLE_CONFIG.LIFE_DURATION in *.
  rewrite H3 in *.
  assert (0 < life p / 2.0 <= 1).
  { split; [apply Rdiv_lt_0_compat; lra|]. apply Rmult_le_reg_r with 2.0; [lra|].
    unfold Rdiv. rewrite Rmult_assoc, Rinv_l; lra. }
  unfold Rmax. destruct (Rle_dec 0 (life p / 2.0)); lra.
Qed.

(** Where a frame spawns: outside [DIVE_LAKE] and [SKIM] nowhere; in
    [SKIM] when the random draw exceeds 0.85. *)
Lemma framePool_sites (f : Frame) (a : Actor) :
  (state a <> DIVE_LAKE -> state a <> SKIM -> framePool f a = rippleData a)
  /\ (state a = SKIM ->
      framePool f a
      = if gtb (random f) 0.85
        then spawnRipple (Vector3.x (position a)) (Vector3.z (position a))
                         RIPPLE_CONFIG.SKIM_SCALE (rippleData a)
        else rippleData a).
Proof.
  unfold framePool, frameDecision, rippleTrigger, rippleTriggerFires.
  destruct (state a) eqn:Hs; cbn [BirdState_eqb andb stateMachine nextLast nextPool];
    repeat split; try reflexivity; try congruence; intros; discriminate.
Qed.

(** X13: over any run of frames with non-negative deltas, from an actor
    whose active ripples are within their life span (as those of the
    initial actor are), every active ripple of the pool has a life strictly
    between 0 and its full life of 2.0 (inclusive), so it is drawn with an
    opacity in (0, BASE_OPACITY]: never brighter than 0.1 and never with a
    negative ratio. *)
Theorem X13_ripple_opacity (fs : list Frame) (v : View) (a : Actor) (p : Ripple) :
  Forall wellAged (rippleData a) ->
  Forall (fun f => 0 <= delta f) fs ->
  In p (rippleData (snd (runFrames fs v a))) ->
  active p = true ->
  0 < life p <= RIPPLE_CONFIG.LIFE_DURATION
  /\ maxLife p = RIPPLE_CONFIG.LIFE_DURATION
  /\ 0 < opacity p <= RIPPLE_CONFIG.BASE_OPACITY
  /\ Forall wellAged (rippleData initialActor).
Proof.
  intros Ha Hd Hin Hp.
  pose proof (wellAged_runFrames fs v a Hd Ha) as H.
  rewrite Forall_forall in H. specialize (H p Hin).
  destruct (H Hp) as [[H1 H2] H3].
  repeat split; try lra; try exact H3.
  - apply wellAged_opacity; assumption.
  - apply wellAged_opacity; assumption.
  - exact wellAged_fresh.
Qed.

Lemma X13_ripple_opacity_witness :
  let a := mkActor SKIM (Vector3.mk 30 0 (-10)) (Vector3.mk (-165) (-2) 75) (-2)
                   (Vector3.mk (-125) (-1.2) 50) 0 initialPool in
  let v := mkView (Some (mkGroup (Vector3.mk 0 0 0) (Vector3.mk 0 0 0) 0))
                  (Some (repeat (mkInstance None 0) 5)) None in
  let fs := [mkFrame (1 / 60) 18.5 0.9; mkFrame (1 / 60) (18.5 + 1 / 60) 0.1] in
  exists p, In p (rippleData (snd (runFrames fs v a)))
            /\ active p = true
            /\ life p < RIPPLE_CONFIG.LIFE_DURATION
            /\ 0 < opacity p <= RIPPLE_CONFIG.BASE_OPACITY.
Proof.
  intros a v fs.
  assert (Ha : Forall wellAged (rippleData a)) by exact wellAged_fresh.
  assert (Hd : Forall (fun f => 0 <= delta f) fs)
    by (repeat constructor; cbn [delta]; lra).
  assert (Hdt : Rmin (1 / 60) 0.1 = 1 / 60)
    by (unfold Rmin; destruct (Rle_dec (1 / 60) 0.1); lra).
  (* the first frame spawns a ripple in slot 0 and ages it *)
  set (p1 := mkRipple (Vector3.mk (-165) (-1.9) 75)
               (RIPPLE_CONFIG.SKIM_SCALE * (0.8 + 0 * 0.2) + 1 / 60 * 25)
               (2.0 - 1 / 60 * 1.0) 2.0 true).
  assert (H1 : nth_error (rippleData (snd (useFrame (mkFrame (1 / 60) 18.5 0.9) v a))) 0
               = Some p1).
  { rewrite (useFrame_rippleData _ v _ a eq_refl). cbn [ripplesRef v].
    rewrite nth_error_map.
    destruct (framePool_sites (mkFrame (1 / 60) 18.5 0.9) a) as [_ Hs].
    rewrite (Hs eq_refl). cbn [random].
    assert (E : gtb 0.9 0.85 = true) by (apply gtb_true; lra). rewrite E.
    cbn [a position rippleData Vector3.x Vector3.z].
    rewrite spawnRipple_unfold. unfold spawnWave, initialPool, RIPPLE_CONFIG.MAX_COUNT.
    cbn [repeat findIndex freshRipple active negb updateAt nth_error option_map].
    rewrite tickRipple_active by reflexivity.
    unfold frameDt. cbn [delta]. rewrite Hdt.
    cbn [life pos scale maxLife activate Vector3.set INR active].
    unfold RIPPLE_CONFIG.LIFE_DURATION, RIPPLE_CONFIG.FADE_SPEED, RIPPLE_CONFIG.EXPANSION_SPEED.
    assert (E2 : leb (2.0 + 0 * 0.5 - 1 / 60 * 1.0) 0 = false) by (apply leb_false; lra).
    rewrite E2. unfold p1. f_equal. f_equal; try reflexivity; lra. }
  (* the second frame spawns nothing; slot 0 stays active *)
  assert (H2 : exists p, nth_error (rippleData (snd (runFrames fs v a))) 0 = Some p
                         /\ active p = true /\ life p < RIPPLE_CONFIG.LIFE_DURATION).
  { unfold fs. cbn [runFrames].
    pose proof (useFrame_edge (mkFrame (1 / 60) 18.5 0.9) v a) as He.
    destruct (useFrame (mkFrame (1 / 60) 18.5 0.9) v a) as [v1 a1].
    cbn [snd] in H1, He |- *. cbn [state a] in He.
    assert (Er : forall f2, snd (let (v', a') := useFrame f2 v1 a1 in runFrames [] v' a')
                            = snd (useFrame f2 v1 a1))
      by (intros f2; destruct (useFrame f2 v1 a1); reflexivity).
    rewrite Er. clear Er.
    assert (Hp : framePool (mkFrame (1 / 60) (18.5 + 1 / 60) 0.1) a1 = rippleData a1).
    { destruct (framePool_sites (mkFrame (1 / 60) (18.5 + 1 / 60) 0.1) a1) as [Hn Hs].
      assert (E : gtb 0.1 0.85 = false) by (apply gtb_false; lra).
      destruct (state a1) eqn:Es;
        try (apply Hn; discriminate);
        try (destruct He as [He|He]; discriminate).
      rewrite (Hs eq_refl). cbn [random]. now rewrite E. }
    destruct (groupRef v1) as [g1|] eqn:Hg.
    - rewrite (useFrame_rippleData _ v1 g1 a1 Hg), Hp.
      destruct (ripplesRef v1).
      + rewrite nth_error_map, H1. cbn [option_map].
        rewrite tickRipple_active by reflexivity.
        unfold frameDt. cbn [delta]. rewrite Hdt.
        unfold RIPPLE_CONFIG.LIFE_DURATION, RIPPLE_CONFIG.FADE_SPEED. cbn [life p1].
        assert (E2 : leb (2.0 - 1 / 60 * 1.0 - 1 / 60 * 1.0) 0 = false)
          by (apply leb_false; lra).
        rewrite E2. eexists. split; [reflexivity|]. cbn [active life]. split; [reflexivity|lra].
      + exists p1. split; [exact H1|]. split; [reflexivity|].
        unfold RIPPLE_CONFIG.LIFE_DURATION. cbn [life p1]. lra.
    - rewrite useFrame_unmounted by exact Hg. cbn [snd].
      exists p1. split; [exact H1|]. split; [reflexivity|].
      unfold RIPPLE_CONFIG.LIFE_DURATION. cbn [life p1]. lra. }
  destruct H2 as (p & Hn & Hact & Hlife).
  exists p. apply nth_error_In in Hn. split; [exact Hn|]. split; [exact Hact|].
  split; [exact Hlife|].
  destruct (X13_ripple_opacity fs v a p Ha Hd Hn Hact) as (_ & _ & H & _).
  exact H.
Defined.

(** *** Wing-beat rate *)

Lemma stateMachine_flapSpeed s p tgt time rnd last pool :
  0.5 <= flapSpeed (stateMachine s p tgt time rnd last pool) <= 4.
Proof.
  destruct s; cbn [stateMachine flapSpeed]; try lra.
  destruct (_ || _); [destruct (gtb _ _)|]; cbn [flapSpeed]; lra.
Qed.

Lemma frameDecision_flapSpeed f a : 0.5 <= flapSpeed (frameDecision f a) <= 4.
Proof.
  unfold frameDecision. destruct (rippleTrigger _ _ _ _ _) as [last pool].
  apply stateMachine_flapSpeed.
Qed.

(** X14: with the animation clip loaded, a frame with a non-negative delta
    moves the clip's time scale towards the flap speed of the state by the
    fraction 5 * dt (at most one half) of the gap; a time scale between 0.5
    and 4.0 therefore stays between 0.5 and 4.0. *)
Theorem X14_flap_rate (f : Frame) (v : View) (g : Group) (a : Actor) (s : R) :
  groupRef v = Some g ->
  action v = Some s ->
  0 <= delta f ->
  let s' := s + (flapSpeed (frameDecision f a) - s) * (5 * frameDt f) in
  action (fst (useFrame f v a)) = Some (lerp s (flapSpeed (frameDecision f a)) (frameDt f * 5))
  /\ lerp s (flapSpeed (frameDecision f a)) (frameDt f * 5) = s'
  /\ (0.5 <= s <= 4 -> 0.5 <= s' <= 4).
Proof.
  intros Hg Ha Hd. cbv zeta.
  destruct (useFrame_view f v g a Hg) as [_ H]. rewrite Ha in H.
  pose proof (frameDecision_flapSpeed f a) as Hf.
  pose proof (frameDt_range f Hd) as Ht.
  set (w := flapSpeed (frameDecision f a)) in *. set (t := frameDt f) in *.
  clearbody w t.
  split; [exact H|]. split; [unfold lerp; ring|].
  intros Hs. split; nra.
Qed.

Lemma X14_flap_rate_witness :
  let v := mkView (Some (mkGroup (position initialActor) (position initialActor) 0)) None
                  (Some 1.5) in
  let f := mkFrame (1 / 60) 0.5 0.5 in
  0.5 <= 1.5 + (flapSpeed (frameDecision f initialActor) - 1.5) * (5 * frameDt f) <= 4.
Proof.
  intros v f.
  assert (Hd : 0 <= delta f) by (cbn; lra).
  destruct (X14_flap_rate f v (mkGroup (position initialActor) (position initialActor) 0)
              initialActor 1.5 eq_refl eq_refl Hd) as (_ & _ & H).
  apply H. lra.
Defined.

(** *** Refs that are written but never read *)

Lemma stateMachine_target s p t1 t2 time rnd last pool :
  stateMachine s p t1 time rnd last pool = stateMachine s p t2 time rnd last pool.
Proof. destruct s; reflexivity. Qed.

(** X15: the refs [target] and [prevY] are write-only: every state sets
    the target anew before steering reads it, and nothing reads [prevY];
    so a frame gives the same view and the same actor whatever these two
    refs held before it. *)
Theorem X15_write_only_refs (f : Frame) (v : View) (g : Group) (a : Actor)
    (t' : Vector3.t) (y' : R) :
  groupRef v = Some g ->
  useFrame f v (mkActor (state a) (velocity a) (position a) y' t' (lastSplashTime a)
                        (rippleData a))
  = useFrame f v a.
Proof.
  intros Hg. unfold useFrame. rewrite Hg.
  cbn [state velocity position target lastSplashTime rippleData].
  destruct (rippleTrigger _ _ _ _ _) as [last pool].
  now rewrite (stateMachine_target (state a) (position a) t' (target a)).
Qed.

Lemma X15_write_only_refs_witness :
  let v := mkView (Some (mkGroup (position initialActor) (position initialActor) 0)) None None in
  let f := mkFrame (1 / 60) 0.5 0.5 in
  useFrame f v (mkActor CINEMATIC_ENTRY (Vector3.mk 0 0 0) (Vector3.mk (-200) 100 100) 0
                        (Vector3.mk 7 8 9) 0 initialPool)
  = useFrame f v initialActor.
Proof.
  intros v f.
  exact (X15_write_only_refs f v (mkGroup (position initialActor) (position initialActor) 0)
           initialActor (Vector3.mk 7 8 9) 0 eq_refl).
Defined.

(** ** Tree instances *)

Lemma plant_index rnd s :
  Trees.index (Trees.plant rnd s)
  = if ltb (getHeight (Trees.sampleX rnd (Trees.cursor s)) (Trees.sampleZ rnd (Trees.cursor s)))
           (-1.5)
    then Trees.index s else S (Trees.index s).
Proof.
  unfold Trees.plant, Trees.sampleX, Trees.sampleZ; cbv zeta.
  destruct (ltb _ (-1.5)); reflexivity.
Qed.

Lemma plant_cursor rnd s :
  Trees.cursor (Trees.plant rnd s)
  = (Trees.cursor s + 2 + 15 * (Trees.index (Trees.plant rnd s) - Trees.index s))%nat.
Proof.
  rewrite plant_index. unfold Trees.plant, Trees.sampleX, Trees.sampleZ; cbv zeta.
  destruct (ltb _ (-1.5)); cbn [Trees.cursor]; lia.
Qed.

Lemma planted_S rnd n r :
  Trees.planted rnd (S n) r = Trees.plant rnd (Trees.planted rnd n r).
Proof. reflexivity. Qed.

Lemma planted_index_le rnd n r : (Trees.index (Trees.planted rnd n r) <= n)%nat.
Proof.
  induction n as [|n IH]; [cbn; lia|].
  rewrite planted_S, plant_index. destruct (ltb _ _); lia.
Qed.

Lemma planted_cursor rnd n r :
  Trees.cursor (Trees.planted rnd n r) = (2 * n + 15 * Trees.index (Trees.planted rnd n r))%nat.
Proof.
  induction n as [|n IH]; [reflexivity|].
  rewrite planted_S, plant_cursor, IH.
  pose proof (plant_index rnd (Trees.planted rnd n r)) as H.
  destruct (ltb _ _); rewrite H; lia.
Qed.

Lemma hasInstance_setMatrixAt_same r j t :
  Trees.hasInstance (option_map (Trees.setMatrixAt j t) r) j (Trees.position t) (Trees.scale t).
Proof.
  destruct r as [m|]; [|exact I]. cbn. rewrite Nat.eqb_refl. now exists t.
Qed.

Lemma hasInstance_setMatrixAt_other r i j t pos scl :
  j <> i -> Trees.hasInstance r j pos scl ->
  Trees.hasInstance (option_map (Trees.setMatrixAt i t) r) j pos scl.
Proof.
  intros Hj. destruct r as [m|]; [|trivial]. cbn.
  destruct (Nat.eqb_spec j i); [contradiction|trivial].
Qed.

Lemma hasInstance_setColorAt r i j c pos scl :
  Trees.hasInstance r j pos scl ->
  Trees.hasInstance (option_map (Trees.setColorAt i c) r) j pos scl.
Proof. destruct r as [m|]; trivial. Qed.

Lemma hasInstance_finishRef r n b j pos scl :
  Trees.hasInstance r j pos scl ->
  Trees.hasInstance (snd (Trees.finishRef n b r)) j pos scl.
Proof.
  destruct r as [m|]; [|trivial]. unfold Trees.finishRef, Trees.finishMesh; cbv zeta.
  cbn [Trees.instanceColor]. destruct b; [destruct (Trees.instanceColor m)|]; trivial.
Qed.

Lemma untouched_refl r j : Trees.untouched r r j.
Proof. destruct r; cbn; auto. Qed.

Lemma untouched_trans r1 r2 r3 j :
  Trees.untouched r1 r2 j -> Trees.untouched r2 r3 j -> Trees.untouched r1 r3 j.
Proof.
  destruct r1, r2, r3; cbn [Trees.untouched]; try tauto. intros [-> ->] [-> ->]. auto.
Qed.

Lemma untouched_setMatrixAt r i j t :
  j <> i -> Trees.untouched r (option_map (Trees.setMatrixAt i t) r) j.
Proof.
  intros Hj. destruct r as [m|]; cbn; [|trivial].
  destruct (Nat.eqb_spec j i); [contradiction|auto].
Qed.

Lemma untouched_setColorAt r i j c :
  j <> i -> Trees.untouched r (option_map (Trees.setColorAt i c) r) j.
Proof.
  intros Hj. destruct r as [m|]; cbn [option_map Trees.untouched]; [|trivial].
  split; [reflexivity|]. unfold Trees.colorOf, Trees.setColorAt; cbv zeta.
  cbn [Trees.instanceColor Trees.colorAt].
  destruct (Nat.eqb_spec j i); [contradiction|].
  destruct (Trees.instanceColor m); reflexivity.
Qed.

Lemma untouched_finishRef r n b j : Trees.untouched r (snd (Trees.finishRef n b r)) j.
Proof.
  destruct r as [m|]; [|exact I]. unfold Trees.finishRef, Trees.finishMesh; cbv zeta.
  cbn [Trees.instanceColor Trees.matrixAt].
  destruct b; [destruct (Trees.instanceColor m) eqn:E|];
    cbn [snd Trees.untouched]; unfold Trees.colorOf; cbn [Trees.instanceColor Trees.matrixAt];
    rewrite ?E; split; reflexivity.
Qed.

(** The final [forEach], ref by ref. *)
Lemma finishRef_returned r n b :
  Trees.hasColor r = true \/ b = false -> fst (Trees.finishRef n b r) = Trees.Returned.
Proof.
  destruct r as [m|]; [|reflexivity]. unfold Trees.finishRef, Trees.finishMesh; cbv zeta.
  cbn [Trees.instanceColor Trees.hasColor].
  intros [H| ->]; [|reflexivity].
  destruct b; [|reflexivity]. destruct (Trees.instanceColor m); [reflexivity|discriminate].
Qed.

Lemma finishRef_threw r n :
  Trees.hasColor r = false -> fst (Trees.finishRef n true r) = Trees.Threw.
Proof.
  destruct r as [m|]; [|discriminate]. unfold Trees.finishRef, Trees.finishMesh; cbv zeta.
  cbn [Trees.instanceColor Trees.hasColor].
  destruct (Trees.instanceColor m); [discriminate|reflexivity].
Qed.

Lemma finishRef_hasCount r n b : Trees.hasCount (snd (Trees.finishRef n b r)) n.
Proof.
  destruct r as [m|]; [|exact I]. unfold Trees.finishRef, Trees.finishMesh; cbv zeta.
  cbn [Trees.instanceColor Trees.count Trees.matrixNeedsUpdate].
  destruct b; [destruct (Trees.instanceColor m)|]; split; reflexivity.
Qed.

Lemma finishAll_completion n r :
  fst (Trees.finishAll n r)
  = if Trees.hasColor (Trees.foliageBottomRef r) && Trees.hasColor (Trees.foliageMidRef r)
       && Trees.hasColor (Trees.foliageTopRef r)
    then Trees.Returned else Trees.Threw.
Proof.
  unfold Trees.finishAll; cbv zeta.
  pose proof (finishRef_returned (Trees.trunkMeshRef r) n false (or_intror eq_refl)) as H0.
  destruct (Trees.finishRef n false (Trees.trunkMeshRef r)) as [c0 trunk].
  cbn [fst] in H0. subst c0.
  cbn [Trees.trunkMeshRef Trees.foliageBottomRef Trees.foliageMidRef Trees.foliageTopRef].
  destruct (Trees.hasColor (Trees.foliageBottomRef r)) eqn:E1.
  2:{ pose proof (finishRef_threw _ n E1) as H.
      destruct (Trees.finishRef n true (Trees.foliageBottomRef r)) as [c b].
      cbn [fst] in H. subst c. reflexivity. }
  pose proof (finishRef_returned _ n true (or_introl E1)) as H1.
  destruct (Trees.finishRef n true (Trees.foliageBottomRef r)) as [c1 bottom].
  cbn [fst] in H1. subst c1.
  cbn [Trees.trunkMeshRef Trees.foliageBottomRef Trees.foliageMidRef Trees.foliageTopRef].
  destruct (Trees.hasColor (Trees.foliageMidRef r)) eqn:E2.
  2:{ pose proof (finishRef_threw _ n E2) as H.
      destruct (Trees.finishRef n true (Trees.foliageMidRef r)) as [c b].
      cbn [fst] in H. subst c. reflexivity. }
  pose proof (finishRef_returned _ n true (or_introl E2)) as H2.
  destruct (Trees.finishRef n true (Trees.foliageMidRef r)) as [c2 mid].
  cbn [fst] in H2. subst c2.
  cbn [Trees.trunkMeshRef Trees.foliageBottomRef Trees.foliageMidRef Trees.foliageTopRef].
  destruct (Trees.hasColor (Trees.foliageTopRef r)) eqn:E3.
  - pose proof (finishRef_returned _ n true (or_introl E3)) as H3.
    destruct (Trees.finishRef n true (Trees.foliageTopRef r)) as [c3 top].
    cbn [fst] in H3. subst c3. reflexivity.
  - pose proof (finishRef_threw _ n E3) as H3.
    destruct (Trees.finishRef n true (Trees.foliageTopRef r)) as [c3 top].
    cbn [fst] in H3. subst c3. reflexivity.
Qed.

(** Each ref after the final [forEach] is as the callback left it, or, when
    an earlier ref threw, as it was. *)
Lemma finishAll_refs n r :
  let r' := snd (Trees.finishAll n r) in
  Trees.trunkMeshRef r' = snd (Trees.finishRef n false (Trees.trunkMeshRef r))
  /\ Trees.foliageBottomRef r' = snd (Trees.finishRef n true (Trees.foliageBottomRef r))
  /\ Trees.foliageMidRef r'
     = (if Trees.hasColor (Trees.foliageBottomRef r)
        then snd (Trees.finishRef n true (Trees.foliageMidRef r))
        else Trees.foliageMidRef r)
  /\ Trees.foliageTopRef r'
     = (if Trees.hasColor (Trees.foliageBottomRef r) && Trees.hasColor (Trees.foliageMidRef r)
        then snd (Trees.finishRef n true (Trees.foliageTopRef r))
        else Trees.foliageTopRef r).
Proof.
  cbv zeta. unfold Trees.finishAll; cbv zeta.
  pose proof (finishRef_returned (Trees.trunkMeshRef r) n false (or_intror eq_refl)) as H0.
  destruct (Trees.finishRef n false (Trees.trunkMeshRef r)) as [c0 trunk].
  cbn [fst] in H0. subst c0.
  cbn [Trees.trunkMeshRef Trees.foliageBottomRef Trees.foliageMidRef Trees.foliageTopRef].
  destruct (Trees.hasColor (Trees.foliageBottomRef r)) eqn:E1.
  2:{ pose proof (finishRef_threw _ n E1) as H.
      destruct (Trees.finishRef n true (Trees.foliageBottomRef r)) as [c b].
      cbn [fst] in H. subst c.
      cbn [snd Trees.trunkMeshRef Trees.foliageBottomRef Trees.foliageMidRef
             Trees.foliageTopRef andb].
      repeat split. }
  pose proof (finishRef_returned _ n true (or_introl E1)) as H1.
  destruct (Trees.finishRef n true (Trees.foliageBottomRef r)) as [c1 bottom].
  cbn [fst] in H1. subst c1.
  cbn [Trees.trunkMeshRef Trees.foliageBottomRef Trees.foliageMidRef Trees.foliageTopRef].
  destruct (Trees.hasColor (Trees.foliageMidRef r)) eqn:E2.
  2:{ pose proof (finishRef_threw _ n E2) as H.
      destruct (Trees.finishRef n true (Trees.foliageMidRef r)) as [c b].
      cbn [fst] in H. subst c.
      cbn [snd Trees.trunkMeshRef Trees.foliageBottomRef Trees.foliageMidRef
             Trees.foliageTopRef andb].
      repeat split. }
  pose proof (finishRef_returned _ n true (or_introl E2)) as H2.
  destruct (Trees.finishRef n true (Trees.foliageMidRef r)) as [c2 mid].
  cbn [fst] in H2. subst c2.
  cbn [Trees.trunkMeshRef Trees.foliageBottomRef Trees.foliageMidRef Trees.foliageTopRef].
  destruct (Trees.finishRef n true (Trees.foliageTopRef r)) as [c3 top].
  cbn [snd Trees.trunkMeshRef Trees.foliageBottomRef Trees.foliageMidRef Trees.foliageTopRef
         andb].
  repeat split.
Qed.

Lemma finishAll_untouched n r j : Trees.untouchedAll r (snd (Trees.finishAll n r)) j.
Proof.
  destruct (finishAll_refs n r) as (H1 & H2 & H3 & H4). unfold Trees.untouchedAll.
  rewrite H1, H2, H3, H4. repeat split; try apply untouched_finishRef.
  - destruct (Trees.hasColor _); [apply untouched_finishRef|apply untouched_refl].
  - destruct (_ && _); [apply untouched_finishRef|apply untouched_refl].
Qed.

Lemma finishAll_treeAt n r j x y z s h :
  Trees.treeAt r j x y z s h -> Trees.treeAt (snd (Trees.finishAll n r)) j x y z s h.
Proof.
  intros (A1 & A2 & A3 & A4).
  destruct (finishAll_refs n r) as (H1 & H2 & H3 & H4). unfold Trees.treeAt.
  rewrite H1, H2, H3, H4. repeat split; try (now apply hasInstance_finishRef).
  - destruct (Trees.hasColor _); [now apply hasInstance_finishRef|exact A3].
  - destruct (_ && _); [now apply hasInstance_finishRef|exact A4].
Qed.

Lemma finishAll_hasCount n r :
  let out := Trees.finishAll n r in
  Trees.hasCount (Trees.trunkMeshRef (snd out)) n
  /\ (fst out = Trees.Returned ->
      Trees.hasCount (Trees.foliageBottomRef (snd out)) n
      /\ Trees.hasCount (Trees.foliageMidRef (snd out)) n
      /\ Trees.hasCount (Trees.foliageTopRef (snd out)) n).
Proof.
  cbv zeta. destruct (finishAll_refs n r) as (H1 & H2 & H3 & H4).
  rewrite H1, H2, H3, H4, finishAll_completion. split; [apply finishRef_hasCount|].
  destruct (Trees.hasColor (Trees.foliageBottomRef r));
    [|intros H; discriminate].
  destruct (Trees.hasColor (Trees.foliageMidRef r)); [|intros H; discriminate].
  cbn [andb]. intros _. repeat split; apply finishRef_hasCount.
Qed.

(** One pass of the loop: a sample on ground below -1.5 changes nothing but
    the stream of random numbers; any other sample writes one tree at the
    free index and leaves every other index alone. *)
Lemma plant_step rnd s :
  let x := Trees.sampleX rnd (Trees.cursor s) in
  let z := Trees.sampleZ rnd (Trees.cursor s) in
  let s' := Trees.plant rnd s in
  (getHeight x z < -1.5 -> Trees.index s' = Trees.index s /\ Trees.refs s' = Trees.refs s)
  /\ (-1.5 <= getHeight x z ->
      Trees.index s' = S (Trees.index s)
      /\ Trees.treeAt (Trees.refs s') (Trees.index s) x (getHeight x z) z
           (0.4 + rnd (Trees.cursor s + 2)%nat * 0.4)
           (3 + rnd (Trees.cursor s + 3)%nat * 4)
      /\ (forall j x0 y0 z0 s0 h0, j <> Trees.index s ->
            Trees.treeAt (Trees.refs s) j x0 y0 z0 s0 h0 ->
            Trees.treeAt (Trees.refs s') j x0 y0 z0 s0 h0)
      /\ (forall j, j <> Trees.index s -> Trees.untouchedAll (Trees.refs s) (Trees.refs s') j)).
Proof.
  cbv zeta. unfold Trees.plant, Trees.sampleX, Trees.sampleZ; cbv zeta.
  destruct (ltb _ (-1.5)) eqn:E.
  - apply ltb_true in E. split; [intros _; split; reflexivity|intros H; lra].
  - apply ltb_false in E. split; [intros H; lra|]. intros _.
    cbn [Trees.index Trees.refs]. split; [reflexivity|]. split; [|split].
    + unfold Trees.treeAt;
        cbn [Trees.trunkMeshRef Trees.foliageBottomRef Trees.foliageMidRef Trees.foliageTopRef].
      repeat split.
      * apply (hasInstance_setMatrixAt_same (Trees.trunkMeshRef (Trees.refs s))).
      * apply (hasInstance_setMatrixAt_same
                 (option_map _ (Trees.foliageBottomRef (Trees.refs s)))).
      * apply (hasInstance_setMatrixAt_same
                 (option_map _ (Trees.foliageMidRef (Trees.refs s)))).
      * apply (hasInstance_setMatrixAt_same
                 (option_map _ (Trees.foliageTopRef (Trees.refs s)))).
    + intros j x0 y0 z0 s0 h0 Hj (H1 & H2 & H3 & H4). unfold Trees.treeAt;
        cbn [Trees.trunkMeshRef Trees.foliageBottomRef Trees.foliageMidRef Trees.foliageTopRef].
      repeat split; repeat first
        [ apply hasInstance_setMatrixAt_other; [exact Hj|]
        | apply hasInstance_setColorAt ]; assumption.
    + intros j Hj. unfold Trees.untouchedAll;
        cbn [Trees.trunkMeshRef Trees.foliageBottomRef Trees.foliageMidRef Trees.foliageTopRef].
      repeat split.
      * now apply untouched_setMatrixAt.
      * eapply untouched_trans; [apply untouched_setColorAt|apply untouched_setMatrixAt];
          exact Hj.
      * eapply untouched_trans; [apply untouched_setColorAt|apply untouched_setMatrixAt];
          exact Hj.
      * eapply untouched_trans; [apply untouched_setColorAt|apply untouched_setMatrixAt];
          exact Hj.
Qed.

Lemma untouchedAll_refl r j : Trees.untouchedAll r r j.
Proof. repeat split; apply untouched_refl. Qed.

Lemma untouchedAll_trans r1 r2 r3 j :
  Trees.untouchedAll r1 r2 j -> Trees.untouchedAll r2 r3 j -> Trees.untouchedAll r1 r3 j.
Proof.
  intros (A1 & A2 & A3 & A4) (B1 & B2 & B3 & B4).
  repeat split; eapply untouched_trans; eassumption.
Qed.

(** The loop after [n] passes: every index below the free index holds a
    tree that stands on a sampled point with ground at -1.5 or above, and no
    index from the free index on has been written. *)
Lemma planted_trees rnd r n :
  let s := Trees.planted rnd n r in
  (forall j, (j < Trees.index s)%nat ->
     exists c, -1.5 <= getHeight (Trees.sampleX rnd c) (Trees.sampleZ rnd c)
               /\ Trees.treeAt (Trees.refs s) j
                    (Trees.sampleX rnd c)
                    (getHeight (Trees.sampleX rnd c) (Trees.sampleZ rnd c))
                    (Trees.sampleZ rnd c)
                    (0.4 + rnd (c + 2)%nat * 0.4) (3 + rnd (c + 3)%nat * 4))
  /\ (forall j, (Trees.index s <= j)%nat -> Trees.untouchedAll r (Trees.refs s) j).
Proof.
  cbv zeta. induction n as [|n [IH1 IH2]].
  - split; [intros j Hj; cbn in Hj; lia|]. intros j _. apply untouchedAll_refl.
  - rewrite planted_S. set (s := Trees.planted rnd n r) in *.
    pose proof (plant_step rnd s) as [Hskip Hplant].
    destruct (Rlt_le_dec (getHeight (Trees.sampleX rnd (Trees.cursor s))
                                    (Trees.sampleZ rnd (Trees.cursor s))) (-1.5)) as [Hw|Hd].
    + destruct (Hskip Hw) as [Ei Er]. rewrite Ei, Er. split; assumption.
    + destruct (Hplant Hd) as (Ei & Ht & Hkeep & Hun). rewrite Ei. split.
      * intros j Hj. destruct (Nat.eq_dec j (Trees.index s)) as [->|Hne].
        -- exists (Trees.cursor s). split; assumption.
        -- destruct (IH1 j ltac:(lia)) as (c & Hc & Hc2). exists c. split; [exact Hc|].
           now apply Hkeep.
      * intros j Hj. eapply untouchedAll_trans; [apply IH2; lia|]. apply Hun. lia.
Qed.

Lemma treeAt_generate rnd r j x y z s h :
  Trees.treeAt (Trees.refs (Trees.planted rnd Trees.TREE_COUNT r)) j x y z s h ->
  Trees.treeAt (snd (Trees.generate rnd r)) j x y z s h.
Proof. unfold Trees.generate; cbv zeta. apply finishAll_treeAt. Qed.

(** A pass that places a tree colours the three canopy meshes, so their
    colour attribute exists from then on; while no tree has been placed the
    meshes are as they were. *)
Lemma hasColor_colored r i c t :
  Trees.hasColor (option_map (Trees.setMatrixAt i t) (option_map (Trees.setColorAt i c) r))
  = true.
Proof. destruct r as [m|]; reflexivity. Qed.

Lemma plant_hasColor rnd s :
  (Trees.index (Trees.plant rnd s) = Trees.index s
   /\ Trees.refs (Trees.plant rnd s) = Trees.refs s)
  \/ (Trees.index (Trees.plant rnd s) = S (Trees.index s)
      /\ Trees.hasColor (Trees.foliageBottomRef (Trees.refs (Trees.plant rnd s))) = true
      /\ Trees.hasColor (Trees.foliageMidRef (Trees.refs (Trees.plant rnd s))) = true
      /\ Trees.hasColor (Trees.foliageTopRef (Trees.refs (Trees.plant rnd s))) = true).
Proof.
  unfold Trees.plant; cbv zeta. destruct (ltb _ (-1.5)); [left; split; reflexivity|].
  right. cbn [Trees.index Trees.refs Trees.foliageBottomRef Trees.foliageMidRef
                Trees.foliageTopRef].
  repeat split; apply hasColor_colored.
Qed.

Lemma planted_hasColor rnd r n :
  let s := Trees.planted rnd n r in
  (Trees.index s = 0%nat -> Trees.refs s = r)
  /\ ((0 < Trees.index s)%nat ->
      Trees.hasColor (Trees.foliageBottomRef (Trees.refs s)) = true
      /\ Trees.hasColor (Trees.foliageMidRef (Trees.refs s)) = true
      /\ Trees.hasColor (Trees.foliageTopRef (Trees.refs s)) = true).
Proof.
  cbv zeta. induction n as [|n [IH1 IH2]].
  - split; [reflexivity|]. cbn. lia.
  - rewrite planted_S.
    destruct (plant_hasColor rnd (Trees.planted rnd n r)) as [[Ei Er]|[Ei Hc]].
    + rewrite Ei, Er. split; assumption.
    + rewrite Ei. split; [discriminate|]. intros _. exact Hc.
Qed.

Lemma sample_range rnd c :
  0 <= rnd c < 1 -> 0 <= rnd (c + 1)%nat < 1 ->
  -400 <= Trees.sampleX rnd c < 400 /\ -400 <= Trees.sampleZ rnd c < 400.
Proof.
  unfold Trees.sampleX, Trees.sampleZ, Trees.TERRAIN_WIDTH, Trees.TERRAIN_DEPTH. lra.
Qed.

(** X16: every tree the effect places stands on dry ground. When at least
    one tree is placed the effect returns (the canopy meshes are coloured
    by then), and each index below the number of trees placed holds, in the
    four meshes that are mounted, the trunk and the three canopy layers of
    one tree: all on the same sampled point, where the ground is at -1.5 or
    above, the trunk foot 0.2 below the ground (so above the water plane at
    -2) and the layers at 50, 75 and 95 percent of the trunk height. With
    random numbers in [0, 1) the point lies on the 800 x 800 terrain, the
    girth factor in [0.4, 0.8) and the trunk height in [3, 7). *)
Theorem X16_trees_on_dry_ground (rnd : nat -> R) (r : Trees.Refs) (j : nat) :
  (j < Trees.index (Trees.planted rnd Trees.TREE_COUNT r))%nat ->
  fst (Trees.generate rnd r) = Trees.Returned
  /\ exists x z s h,
    Trees.treeAt (snd (Trees.generate rnd r)) j x (getHeight x z) z s h
    /\ -1.5 <= getHeight x z
    /\ waterLevel < getHeight x z - 0.2
    /\ ((forall k, 0 <= rnd k < 1) ->
        -400 <= x < 400 /\ -400 <= z < 400 /\ 0.4 <= s < 0.8 /\ 3 <= h < 7).
Proof.
  intros Hj. split.
  - unfold Trees.generate; cbv zeta. rewrite finishAll_completion.
    destruct (planted_hasColor rnd r Trees.TREE_COUNT) as [_ H].
    destruct (H ltac:(lia)) as (H1 & H2 & H3). now rewrite H1, H2, H3.
  - destruct (planted_trees rnd r Trees.TREE_COUNT) as [H _].
    destruct (H j Hj) as (c & Hc & Ht).
    exists (Trees.sampleX rnd c), (Trees.sampleZ rnd c),
      (0.4 + rnd (c + 2)%nat * 0.4), (3 + rnd (c + 3)%nat * 4).
    split; [apply treeAt_generate; exact Ht|]. split; [exact Hc|].
    split; [unfold waterLevel; lra|].
    intros Hr. pose proof (sample_range rnd c (Hr _) (Hr _)) as [Hx Hz].
    pose proof (Hr (c + 2)%nat). pose proof (Hr (c + 3)%nat).
    repeat split; lra.
Qed.

Lemma TREE_COUNT_pos : (1 <= Trees.TREE_COUNT)%nat.
Proof. unfold Trees.TREE_COUNT. lia. Qed.

Lemma planted_index_mono rnd r n m :
  (n <= m)%nat -> (Trees.index (Trees.planted rnd n r) <= Trees.index (Trees.planted rnd m r))%nat.
Proof.
  induction 1 as [|m _ IH]; [lia|].
  rewrite planted_S, plant_index. destruct (ltb _ _); lia.
Qed.

(** A first sample on ground at -1.5 or above is planted, so at least one
    tree is placed. *)
Lemma planted_first rnd r n :
  (1 <= n)%nat -> -1.5 <= getHeight (Trees.sampleX rnd 0) (Trees.sampleZ rnd 0) ->
  (0 < Trees.index (Trees.planted rnd n r))%nat.
Proof.
  intros Hn Hd. pose proof (planted_index_mono rnd r 1 n Hn) as H.
  assert (E : Trees.index (Trees.planted rnd 1 r) = 1%nat).
  { change (Trees.planted rnd 1 r) with (Trees.plant rnd (Trees.mkLoop 0 0 r)).
    rewrite plant_index. cbn [Trees.cursor Trees.index].
    assert (E : ltb (getHeight (Trees.sampleX rnd 0) (Trees.sampleZ rnd 0)) (-1.5) = false)
      by (apply ltb_false; exact Hd).
    now rewrite E. }
  lia.
Qed.

Lemma X16_trees_on_dry_ground_witness :
  let rnd := fun _ : nat => 0.9 in
  let r := Trees.mkRefs (Some Trees.blankMesh) (Some Trees.blankMesh) None
                        (Some Trees.blankMesh) in
  fst (Trees.generate rnd r) = Trees.Returned
  /\ exists x z s h,
    Trees.treeAt (snd (Trees.generate rnd r)) 0 x (getHeight x z) z s h
    /\ -1.5 <= getHeight x z
    /\ -400 <= x < 400 /\ -400 <= z < 400 /\ 0.4 <= s < 0.8 /\ 3 <= h < 7.
Proof.
  intros rnd r.
  assert (H0 : (0 < Trees.index (Trees.planted rnd Trees.TREE_COUNT r))%nat).
  { apply planted_first; [exact TREE_COUNT_pos|].
    assert (H : 2 <= getHeight (Trees.sampleX rnd 0) (Trees.sampleZ rnd 0)).
    { apply height_dry_outside_lake, lakeDist_east.
      unfold Trees.sampleX, Trees.TERRAIN_WIDTH, rnd. lra. }
    lra. }
  destruct (X16_trees_on_dry_ground rnd r 0 H0) as (Hret & x & z & s & h & Ht & Hd & _ & Hr).
  split; [exact Hret|].
  exists x, z, s, h. split; [exact Ht|]. split; [exact Hd|].
  apply Hr. intros k. unfold rnd. lra.
Defined.

(** Samples that all fall on the lake centre: no tree is placed. *)
Lemma lake_center_wet : getHeight (-200) 80 < -1.5.
Proof.
  pose proof lake_center_outside_mountain as Hm.
  pose proof lake_center_dist as Hl.
  pose proof (hills_upper (Vector3.x LAKE_CENTER) (Vector3.z LAKE_CENTER)) as Hh.
  unfold LAKE_CENTER in Hm, Hl, Hh; cbn [Vector3.x Vector3.z] in Hm, Hl, Hh.
  unfold getHeight; cbv zeta.
  assert (E1 : ltb (distFromMountain (-200) 80) mountainRadius = false)
    by (apply ltb_false; exact Hm).
  rewrite E1.
  assert (Hd : 0 <= lakeDist (-200) 80) by apply lakeDist_nonneg.
  assert (E2 : ltb (lakeDist (-200) 80) 1.0 = true) by (apply ltb_true; lra).
  rewrite E2.
  set (y := baseTerrain (-200) 80 + _ - _).
  assert (Hy : y < -2.0).
  { unfold y. set (d := lakeDist (-200) 80) in *.
    assert (0.7 <= (1.0 - d) ^ 2) by nra. lra. }
  destruct (ltb y (-12)); lra.
Qed.

Lemma planted_none rnd r n :
  (forall k, rnd (2 * k)%nat = 0.25 /\ rnd (2 * k + 1)%nat = 0.6) ->
  Trees.index (Trees.planted rnd n r) = 0%nat.
Proof.
  intros Hr. induction n as [|n IH]; [reflexivity|].
  rewrite planted_S, plant_index, IH, planted_cursor, IH.
  replace (2 * n + 15 * 0)%nat with (2 * n)%nat by lia.
  unfold Trees.sampleX, Trees.sampleZ, Trees.TERRAIN_WIDTH, Trees.TERRAIN_DEPTH.
  destruct (Hr n) as [-> ->].
  replace ((0.25 - 0.5) * 800) with (-200) by lra.
  replace ((0.6 - 0.5) * 800) with 80 by lra.
  assert (E : ltb (getHeight (-200) 80) (-1.5) = true)
    by (apply ltb_true; exact lake_center_wet).
  now rewrite E.
Qed.

(** X17: the effect fills the instance slots without gaps and within the
    meshes' capacity, and it throws when it places no tree. The number of
    trees placed is at most TREE_COUNT, and the effect draws two random
    numbers per sample and fifteen more per tree placed. However the effect
    ends, no slot from that number on is written (matrix and colour are as
    before the effect), a ref that is not mounted stays so, and the trunk
    mesh has that number as its instance count. When the effect returns,
    the three canopy meshes have it too, and it does return when at least
    one tree is placed. When no tree is placed the final loop throws at the
    first mounted canopy mesh whose [instanceColor] is still [null], as it
    is on a new mesh; if that is the bottom layer, the middle and top
    layers are left as they were, without their count. *)
Theorem X17_tree_slots (rnd : nat -> R) (r : Trees.Refs) :
  let s := Trees.planted rnd Trees.TREE_COUNT r in
  let out := Trees.generate rnd r in
  (Trees.index s <= Trees.TREE_COUNT)%nat
  /\ Trees.cursor s = (2 * Trees.TREE_COUNT + 15 * Trees.index s)%nat
  /\ (forall j, (Trees.index s <= j)%nat -> Trees.untouchedAll r (snd out) j)
  /\ Trees.hasCount (Trees.trunkMeshRef (snd out)) (Trees.index s)
  /\ (fst out = Trees.Returned ->
      Trees.hasCount (Trees.foliageBottomRef (snd out)) (Trees.index s)
      /\ Trees.hasCount (Trees.foliageMidRef (snd out)) (Trees.index s)
      /\ Trees.hasCount (Trees.foliageTopRef (snd out)) (Trees.index s))
  /\ ((0 < Trees.index s)%nat -> fst out = Trees.Returned)
  /\ (Trees.index s = 0%nat ->
      fst out
      = if Trees.hasColor (Trees.foliageBottomRef r) && Trees.hasColor (Trees.foliageMidRef r)
           && Trees.hasColor (Trees.foliageTopRef r)
        then Trees.Returned else Trees.Threw)
  /\ (Trees.index s = 0%nat -> Trees.hasColor (Trees.foliageBottomRef r) = false ->
      Trees.foliageMidRef (snd out) = Trees.foliageMidRef r
      /\ Trees.foliageTopRef (snd out) = Trees.foliageTopRef r).
Proof.
  cbv zeta. split; [apply planted_index_le|]. split; [apply planted_cursor|].
  unfold Trees.generate; cbv zeta.
  generalize (planted_trees rnd r Trees.TREE_COUNT).
  generalize (planted_hasColor rnd r Trees.TREE_COUNT). cbv zeta.
  generalize (Trees.planted rnd Trees.TREE_COUNT r). intros s [Hz Hc] [_ H].
  destruct (finishAll_hasCount (Trees.index s) (Trees.refs s)) as [Ht Hf].
  split; [|split; [exact Ht|split; [exact Hf|split; [|split]]]].
  - intros j Hj. eapply untouchedAll_trans; [apply (H j Hj)|apply finishAll_untouched].
  - intros Hp. rewrite finishAll_completion.
    destruct (Hc Hp) as (H1 & H2 & H3). now rewrite H1, H2, H3.
  - intros H0. rewrite finishAll_completion, (Hz H0). reflexivity.
  - intros H0 Hb. rewrite (Hz H0).
    destruct (finishAll_refs (Trees.index s) r) as (_ & _ & H3 & H4).
    rewrite Hb in H3, H4. cbn [andb] in H4. split; assumption.
Qed.

Lemma X17_tree_slots_witness :
  let rnd := fun k : nat => if Nat.even k then 0.25 else 0.6 in
  let r := Trees.mkRefs (Some Trees.blankMesh) (Some Trees.blankMesh)
                        (Some Trees.blankMesh) (Some Trees.blankMesh) in
  fst (Trees.generate rnd r) = Trees.Threw
  /\ Trees.foliageMidRef (snd (Trees.generate rnd r)) = Some Trees.blankMesh
  /\ Trees.foliageTopRef (snd (Trees.generate rnd r)) = Some Trees.blankMesh.
Proof.
  intros rnd r.
  assert (H0 : Trees.index (Trees.planted rnd Trees.TREE_COUNT r) = 0%nat).
  { apply planted_none. intros k. unfold rnd.
    replace (2 * k + 1)%nat with (S (2 * k)) by lia.
    rewrite Nat.even_succ, <- Nat.negb_even, Nat.even_mul. cbn. split; reflexivity. }
  destruct (X17_tree_slots rnd r) as (_ & _ & _ & _ & _ & _ & Hc & Hm).
  split; [rewrite (Hc H0); reflexivity|].
  exact (Hm H0 eq_refl).
Defined.

(** X18: a pass of the loop skips its sample exactly when the ground there
    is below -1.5, which happens only inside the lake's ellipse of
    influence; a skipped sample costs two random numbers and changes no
    mesh, and every other sample takes the next free index and seventeen
    random numbers. *)
Theorem X18_trees_skip_only_in_lake (rnd : nat -> R) (s : Trees.Loop) :
  let x := Trees.sampleX rnd (Trees.cursor s) in
  let z := Trees.sampleZ rnd (Trees.cursor s) in
  let s' := Trees.plant rnd s in
  (getHeight x z < -1.5 ->
   lakeDist x z < 1
   /\ Trees.index s' = Trees.index s /\ Trees.refs s' = Trees.refs s
   /\ Trees.cursor s' = (Trees.cursor s + 2)%nat)
  /\ (-1.5 <= getHeight x z ->
      Trees.index s' = S (Trees.index s) /\ Trees.cursor s' = (Trees.cursor s + 17)%nat)
  /\ (1 <= lakeDist x z -> Trees.index s' = S (Trees.index s)).
Proof.
  cbv zeta. pose proof (plant_step rnd s) as [Hskip Hplant].
  pose proof (plant_cursor rnd s) as Hc.
  split; [|split].
  - intros Hw. destruct (Hskip Hw) as [Ei Er]. rewrite Ei in Hc.
    repeat split; try assumption; [|lia].
    destruct (Rlt_le_dec (lakeDist (Trees.sampleX rnd (Trees.cursor s))
                                   (Trees.sampleZ rnd (Trees.cursor s))) 1) as [Hl|Hl];
      [exact Hl|].
    pose proof (height_dry_outside_lake _ _ Hl). lra.
  - intros Hd. destruct (Hplant Hd) as (Ei & _). rewrite Ei in Hc. split; [exact Ei|lia].
  - intros Hl. pose proof (height_dry_outside_lake _ _ Hl) as Hh.
    destruct (Hplant ltac:(lra)) as (Ei & _). exact Ei.
Qed.

Lemma X18_trees_skip_only_in_lake_witness :
  let rnd := fun _ : nat => 0.9 in
  let s := Trees.mkLoop 0 0 (Trees.mkRefs (Some Trees.blankMesh) None None None) in
  Trees.index (Trees.plant rnd s) = 1%nat.
Proof.
  intros rnd s.
  destruct (X18_trees_skip_only_in_lake rnd s) as (_ & _ & H).
  apply H. apply lakeDist_east.
  unfold Trees.sampleX, Trees.TERRAIN_WIDTH, rnd, s; cbn [Trees.cursor]. lra.
Defined.

(** ** JavaScript number operations *)

Lemma Int_part_bounds (x : R) : IZR (Int_part x) <= x < IZR (Int_part x) + 1.
Proof. destruct (base_Int_part x). lra. Qed.

Lemma Int_part_nonneg (x : R) : 0 <= x -> (0 <= Int_part x)%Z.
Proof.
  intros H. pose proof (Int_part_bounds x) as [_ H2].
  assert (H3 : -1 < IZR (Int_part x)) by lra.
  apply lt_IZR in H3. lia.
Qed.

Lemma Int_part_lt (x : R) (n : Z) : x < IZR n -> (Int_part x < n)%Z.
Proof.
  intros H. pose proof (Int_part_bounds x) as [H1 _].
  apply lt_IZR. lra.
Qed.

(** The remainder of a division by 1 is, in absolute value, below 1, and
    it differs from the dividend by an integer. *)
Lemma jsRem_one (a : R) :
  -1 < jsRem a 1 < 1
  /\ (0 <= a -> 0 <= jsRem a 1)
  /\ jsRem a 1 = a - IZR (trunc a).
Proof.
  unfold jsRem. replace (a / 1) with a by field.
  unfold trunc. destruct (Rle_dec 0 a) as [H|H].
  - pose proof (Int_part_bounds a). repeat split; try lra.
  - pose proof (Int_part_bounds (- a)). rewrite opp_IZR. repeat split; try lra.
Qed.

(** The remainder of a non-negative number by a positive one lies between
    0 and the divisor. *)
Lemma jsRem_range (a b : R) : 0 <= a -> 0 < b -> 0 <= jsRem a b < b.
Proof.
  intros Ha Hb. unfold jsRem, trunc.
  assert (Hq : 0 <= a / b) by (apply Rmult_le_pos; [lra|left; now apply Rinv_0_lt_compat]).
  destruct (Rle_dec 0 (a / b)) as [_|H]; [|contradiction].
  pose proof (Int_part_bounds (a / b)) as [H1 H2].
  set (q := IZR (Int_part (a / b))) in *. clearbody q.
  assert (E : a = b * (a / b)) by (field; lra).
  assert (b * q <= b * (a / b)) by (apply Rmult_le_compat_l; lra).
  assert (b * (a / b) < b * (q + 1)) by (apply Rmult_lt_compat_l; lra).
  lra.
Qed.

(** ** Water surface *)

Lemma water_useFrame_offset delta w o :
  Terrain.bumpOffset w = Some o ->
  Terrain.bumpOffset (Terrain.useFrame delta w)
  = Some (Vector2.mk (jsRem (Vector2.x o + delta * 0.04) 1)
                     (jsRem (Vector2.y o + delta * 0.02) 1)).
Proof.
  unfold Terrain.bumpOffset, Terrain.useFrame.
  destruct w as [[m]|]; [|discriminate]. destruct m as [[b]|]; [|discriminate].
  destruct b as [[o0]|]; [|discriminate]. cbn.
  intros H. apply some_inj in H. now subst.
Qed.

Lemma water_useFrame_none delta w :
  Terrain.bumpOffset w = None -> Terrain.useFrame delta w = w.
Proof.
  unfold Terrain.bumpOffset, Terrain.useFrame.
  destruct w as [[m]|]; [|reflexivity]. destruct m as [[b]|]; [|reflexivity].
  destruct b as [[o0]|]; [discriminate|reflexivity].
Qed.

Lemma water_runFrames_unit deltas : forall w o,
  Forall (fun d => 0 <= d) deltas ->
  Terrain.bumpOffset w = Some o ->
  0 <= Vector2.x o < 1 /\ 0 <= Vector2.y o < 1 ->
  exists o', Terrain.bumpOffset (Terrain.runFrames deltas w) = Some o'
             /\ 0 <= Vector2.x o' < 1 /\ 0 <= Vector2.y o' < 1.
Proof.
  unfold Terrain.runFrames.
  induction deltas as [|d deltas IH]; intros w o Hd Ho Hu; cbn [fold_left].
  - now exists o.
  - inversion Hd as [|? ? H0 Hd']; subst.
    apply (IH _ _ Hd' (water_useFrame_offset d w o Ho)).
    destruct Hu as [Hx Hy]. cbn [Vector2.x Vector2.y].
    pose proof (jsRem_range (Vector2.x o + d * 0.04) 1) as H1.
    pose proof (jsRem_range (Vector2.y o + d * 0.02) 1) as H2.
    split; [apply H1|apply H2]; lra.
Qed.

(** X19: the flow of the water's bump map. A frame adds 0.04 and 0.02
    times the delta to the two offsets and takes the remainder by 1, so
    each new offset differs from the sum by a whole number and is below 1
    in absolute value; over any run of frames with non-negative deltas,
    offsets that start in [0, 1) stay in [0, 1). A water mesh without a
    material or without a bump map is left as it is. *)
Theorem X19_water_flow :
  (forall delta w o,
      Terrain.bumpOffset w = Some o ->
      exists o' kx ky,
        Terrain.bumpOffset (Terrain.useFrame delta w) = Some o'
        /\ Vector2.x o' = Vector2.x o + delta * 0.04 - IZR kx
        /\ Vector2.y o' = Vector2.y o + delta * 0.02 - IZR ky
        /\ -1 < Vector2.x o' < 1 /\ -1 < Vector2.y o' < 1)
  /\ (forall deltas w o,
        Forall (fun d => 0 <= d) deltas ->
        Terrain.bumpOffset w = Some o ->
        0 <= Vector2.x o < 1 /\ 0 <= Vector2.y o < 1 ->
        exists o', Terrain.bumpOffset (Terrain.runFrames deltas w) = Some o'
                   /\ 0 <= Vector2.x o' < 1 /\ 0 <= Vector2.y o' < 1)
  /\ (forall delta w, Terrain.bumpOffset w = None -> Terrain.useFrame delta w = w).
Proof.
  split; [|split].
  - intros delta w o Ho.
    exists (Vector2.mk (jsRem (Vector2.x o + delta * 0.04) 1)
                       (jsRem (Vector2.y o + delta * 0.02) 1)),
      (trunc (Vector2.x o + delta * 0.04)), (trunc (Vector2.y o + delta * 0.02)).
    cbn [Vector2.x Vector2.y].
    destruct (jsRem_one (Vector2.x o + delta * 0.04)) as (A1 & _ & A2).
    destruct (jsRem_one (Vector2.y o + delta * 0.02)) as (B1 & _ & B2).
    repeat split; try lra; [now apply water_useFrame_offset].
  - intros deltas w o Hd Ho Hu.
    exact (water_runFrames_unit deltas w o Hd Ho Hu).
  - exact water_useFrame_none.
Qed.

Lemma X19_water_flow_witness :
  let w := Some (Terrain.mkMesh (Some (Terrain.mkMaterial
                   (Some (Terrain.mkTexture (Vector2.mk 0.99 0.5)))))) in
  exists o', Terrain.bumpOffset (Terrain.runFrames [0.5; 0.25] w) = Some o'
             /\ 0 <= Vector2.x o' < 1 /\ 0 <= Vector2.y o' < 1.
Proof.
  intros w. destruct X19_water_flow as (_ & H & _).
  apply (H [0.5; 0.25] w (Vector2.mk 0.99 0.5)).
  - repeat constructor; lra.
  - reflexivity.
  - cbn. lra.
Defined.

(** ** Clouds *)

(** X20: the drift of a cloud. After a frame the cloud is never beyond
    the far edge of the world (z at most 400); a cloud that would pass the
    edge re-enters at the near edge z = -400, at a new x in [-400, 400) and
    a new height in [50, 80) for random numbers in [0, 1); otherwise only z
    changes, by speed times delta. With a non-negative speed times delta a
    cloud that is inside the world's depth stays inside. An unmounted group
    is left alone. *)
Theorem X20_cloud_drift (speed delta : R) (rnd : nat -> R) (p : Vector3.t) :
  exists p', Clouds.useFrame speed delta rnd (Some p) = Some p'
    /\ Vector3.z p' <= 400
    /\ (Vector3.z p + speed * delta <= 400 ->
        p' = Vector3.mk (Vector3.x p) (Vector3.y p) (Vector3.z p + speed * delta))
    /\ (400 < Vector3.z p + speed * delta ->
        Vector3.z p' = -400
        /\ Vector3.x p' = (rnd 0%nat - 0.5) * 800
        /\ Vector3.y p' = 50 + rnd 1%nat * 30
        /\ (0 <= rnd 0%nat < 1 -> -400 <= Vector3.x p' < 400)
        /\ (0 <= rnd 1%nat < 1 -> 50 <= Vector3.y p' < 80))
    /\ (0 <= speed * delta -> -400 <= Vector3.z p -> -400 <= Vector3.z p')
    /\ Clouds.useFrame speed delta rnd None = None.
Proof.
  unfold Clouds.useFrame, Clouds.WORLD_DEPTH, Clouds.WORLD_WIDTH; cbv zeta.
  cbn [Vector3.x Vector3.y Vector3.z].
  destruct (gtb _ _) eqn:E.
  - apply gtb_true in E. eexists. split; [reflexivity|].
    cbn [Vector3.x Vector3.y Vector3.z].
    repeat split; try lra; intros; lra.
  - apply gtb_false in E. eexists. split; [reflexivity|].
    cbn [Vector3.x Vector3.y Vector3.z].
    repeat split; try lra; intros; lra.
Qed.

Lemma X20_cloud_drift_witness :
  let rnd := fun _ : nat => 0.25 in
  exists p', Clouds.useFrame 12 0.1 rnd (Some (Vector3.mk 0 60 399)) = Some p'
             /\ Vector3.z p' = -400.
Proof.
  intros rnd.
  destruct (X20_cloud_drift 12 0.1 rnd (Vector3.mk 0 60 399)) as (p' & E & _ & _ & H & _).
  exists p'. split; [exact E|]. apply H. cbn. lra.
Defined.

Lemma sin_cos_sqr (a : R) : sin a * sin a + cos a * cos a = 1.
Proof. pose proof (sin2_cos2 a) as H. unfold Rsqr in H. exact H. Qed.

Lemma particle_ellipsoid rnd size c :
  let q := Clouds.particle rnd size c in
  let r := rnd (c + 2)%nat * size * 0.45 in
  (Clouds.x q / 2.5) * (Clouds.x q / 2.5) + (Clouds.y q / 0.8) * (Clouds.y q / 0.8)
  + (Clouds.z q / 1.5) * (Clouds.z q / 1.5) = r * r.
Proof.
  cbv zeta. unfold Clouds.particle; cbv zeta. cbn [Clouds.x Clouds.y Clouds.z].
  set (r := rnd (c + 2)%nat * size * 0.45).
  pose proof (sin_cos_sqr (rnd (c + 1)%nat * PI)) as Hp.
  pose proof (sin_cos_sqr (rnd c * PI * 2)) as Ht.
  set (sp := sin (rnd (c + 1)%nat * PI)) in *. set (cp := cos (rnd (c + 1)%nat * PI)) in *.
  set (st := sin (rnd c * PI * 2)) in *. set (ct := cos (rnd c * PI * 2)) in *.
  clearbody r sp cp st ct.
  replace (r * sp * ct * 2.5 / 2.5) with (r * sp * ct) by (field; lra).
  replace (r * cp * 0.8 / 0.8) with (r * cp) by (field; lra).
  replace (r * sp * st * 1.5 / 1.5) with (r * sp * st) by (field; lra).
  replace (r * sp * ct * (r * sp * ct) + r * cp * (r * cp) + r * sp * st * (r * sp * st))
    with (r * r * (sp * sp * (st * st + ct * ct) + cp * cp)) by ring.
  rewrite Ht. replace (sp * sp * 1 + cp * cp) with (sp * sp + cp * cp) by ring.
  rewrite Hp. ring.
Qed.

(** X21: the puffs of a cloud. With random numbers in [0, 1) a cloud has
    between 60 and 89 particles, and for a non-negative size every
    particle lies in the ellipsoid with half-axes 2.5, 0.8 and 1.5 times
    0.45 times the size about the cloud's centre, with a scale of at least
    0.2 and less than 0.5 times the size. *)
Theorem X21_cloud_particles (rnd : nat -> R) (size : R) :
  (forall k, 0 <= rnd k < 1) ->
  0 <= size ->
  (60 <= List.length (Clouds.particles rnd size) <= 89)%nat
  /\ forall q, In q (Clouds.particles rnd size) ->
       (Clouds.x q / 2.5) * (Clouds.x q / 2.5) + (Clouds.y q / 0.8) * (Clouds.y q / 0.8)
       + (Clouds.z q / 1.5) * (Clouds.z q / 1.5) <= (0.45 * size) * (0.45 * size)
       /\ 0.2 * size <= Clouds.scale q <= 0.5 * size.
Proof.
  intros Hr Hs. split.
  - unfold Clouds.particles. rewrite length_map, length_seq.
    unfold Clouds.particleCount, Math_floor.
    pose proof (Hr 0%nat) as H0.
    assert (H1 : (0 <= Int_part (rnd 0%nat * 30))%Z) by (apply Int_part_nonneg; lra).
    assert (H2 : (Int_part (rnd 0%nat * 30) < 30)%Z) by (apply Int_part_lt; lra).
    lia.
  - intros q Hq. unfold Clouds.particles in Hq. apply in_map_iff in Hq as (i & <- & _).
    rewrite particle_ellipsoid. pose proof (Hr (1 + 4 * i + 2)%nat) as H2.
    pose proof (Hr (1 + 4 * i + 3)%nat) as H3.
    split.
    + set (u := rnd (1 + 4 * i + 2)%nat) in *. clearbody u.
      replace (u * size * 0.45 * (u * size * 0.45)) with ((u * u) * (0.45 * size * (0.45 * size)))
        by ring.
      assert (u * u <= 1) by nra.
      assert (0 <= 0.45 * size * (0.45 * size)) by nra.
      nra.
    + unfold Clouds.particle; cbv zeta. cbn [Clouds.scale].
      set (u := rnd (1 + 4 * i + 3)%nat) in *. clearbody u. split; nra.
Qed.

Lemma X21_cloud_particles_witness :
  let rnd := fun _ : nat => 0.5 in
  (60 <= List.length (Clouds.particles rnd 40) <= 89)%nat.
Proof.
  intros rnd.
  assert (Hr : forall k : nat, 0 <= rnd k < 1) by (intros k; unfold rnd; lra).
  assert (Hs : 0 <= 40) by lra.
  exact (proj1 (X21_cloud_particles rnd 40 Hr Hs)).
Defined.

(** X29: the cloud field. With random numbers in [0, 1) the scene has
    three clouds; each starts inside the world (x in [-200, 200), height
    in [60, 80), z in [-200, 100)), drifts towards positive z at a speed in
    [10, 15) and has a size in [30, 50). With such a speed a frame with a
    non-negative delta keeps a cloud that is within the world's depth
    within it, wrapping it round at the far edge. *)
Theorem X29_cloud_field (rnd : nat -> R) :
  (forall k, 0 <= rnd k < 1) ->
  List.length (Clouds.clouds rnd) = 3%nat
  /\ forall c, In c (Clouds.clouds rnd) ->
       -200 <= Clouds.cx c < 200 /\ 60 <= Clouds.cy c < 80 /\ -200 <= Clouds.cz c < 100
       /\ 10 <= Clouds.speed c < 15 /\ 30 <= Clouds.size c < 50
       /\ forall delta rnd' p,
            0 <= delta -> -400 <= Vector3.z p <= 400 ->
            exists p', Clouds.useFrame (Clouds.speed c) delta rnd' (Some p) = Some p'
                       /\ -400 <= Vector3.z p' <= 400.
Proof.
  intros Hr. split; [unfold Clouds.clouds; now rewrite length_map, length_seq|].
  intros c Hc. unfold Clouds.clouds in Hc. apply in_map_iff in Hc as (i & <- & _).
  unfold Clouds.cloud; cbv zeta.
  cbn [Clouds.cx Clouds.cy Clouds.cz Clouds.speed Clouds.size].
  pose proof (Hr (5 * i)%nat). pose proof (Hr (5 * i + 1)%nat). pose proof (Hr (5 * i + 2)%nat).
  pose proof (Hr (5 * i + 3)%nat) as H3. pose proof (Hr (5 * i + 4)%nat).
  repeat split; try lra.
  intros delta rnd' p Hd Hp.
  set (v := 10 + rnd (5 * i + 3)%nat * 5) in *.
  assert (Hv : 0 <= v * delta) by (apply Rmult_le_pos; unfold v; lra).
  unfold Clouds.useFrame, Clouds.WORLD_DEPTH, Clouds.WORLD_WIDTH; cbv zeta.
  cbn [Vector3.x Vector3.y Vector3.z].
  destruct (gtb _ _) eqn:E.
  - eexists. split; [reflexivity|]. cbn [Vector3.z]. lra.
  - apply gtb_false in E. eexists. split; [reflexivity|]. cbn [Vector3.z]. lra.
Qed.

Lemma X29_cloud_field_witness :
  let rnd := fun _ : nat => 0.5 in
  List.length (Clouds.clouds rnd) = 3%nat.
Proof.
  intros rnd.
  assert (Hr : forall k : nat, 0 <= rnd k < 1) by (intros k; unfold rnd; lra).
  exact (proj1 (X29_cloud_field rnd Hr)).
Defined.

(** ** Forest fire *)

Lemma progressOf_range (localT lifeTime : R) :
  0 <= localT -> 0 < lifeTime -> 0 <= ForestFire.progressOf localT lifeTime < 1.
Proof.
  intros Ht Hl. unfold ForestFire.progressOf.
  pose proof (jsRem_range localT lifeTime Ht Hl) as [H1 H2].
  set (m := jsRem localT lifeTime) in *. clearbody m.
  assert (Hi : 0 < / lifeTime) by (now apply Rinv_0_lt_compat).
  split.
  - apply Rmult_le_pos; lra.
  - apply Rmult_lt_reg_r with lifeTime; [exact Hl|].
    unfold Rdiv. rewrite Rmult_assoc, Rinv_l; lra.
Qed.

(** *** The shared material *)

Lemma forEachSprite_unmounted {D : Type} (update : D -> ForestFire.Sprite * R) sprites :
  forall data o,
  Forall (fun s => s = None) sprites ->
  ForestFire.forEachSprite update sprites data o = Some (sprites, o).
Proof.
  induction sprites as [|s sprites IH]; intros data o H; [reflexivity|].
  inversion H as [|? ? Hs Hr]; subst. cbn [ForestFire.forEachSprite].
  now rewrite IH.
Qed.

Lemma forEachSprite_last {D : Type} (update : D -> ForestFire.Sprite * R) l :
  forall dl s d o r,
  List.length l = List.length dl ->
  ForestFire.forEachSprite update (l ++ [Some s]) (dl ++ [d]) o = Some r ->
  snd r = snd (update d).
Proof.
  induction l as [|x l IH]; intros dl s d o r Hl H.
  - destruct dl; [|discriminate]. cbn in H.
    destruct (update d) as [s' a]. apply some_inj in H. now subst.
  - destruct dl as [|d0 dl]; [discriminate|]. injection Hl as Hl.
    cbn [app ForestFire.forEachSprite tl] in H. destruct x as [s0|].
    + destruct (update d0) as [s' a].
      destruct (ForestFire.forEachSprite update (l ++ [Some s]) (dl ++ [d]) a)
        as [[l' o']|] eqn:E; [|discriminate].
      apply some_inj in H. subst r. cbn [snd].
      now rewrite <- (IH dl s d a (l', o') Hl E).
    + destruct (ForestFire.forEachSprite update (l ++ [Some s]) (dl ++ [d]) o)
        as [[l' o']|] eqn:E; [|discriminate].
      apply some_inj in H. subst r. cbn [snd].
      now rewrite <- (IH dl s d o (l', o') Hl E).
Qed.

Lemma forEachSprite_total {D : Type} (update : D -> ForestFire.Sprite * R) sprites :
  forall data o,
  (List.length sprites <= List.length data)%nat ->
  exists r, ForestFire.forEachSprite update sprites data o = Some r
            /\ List.length (fst r) = List.length sprites.
Proof.
  induction sprites as [|x sprites IH]; intros data o Hl.
  - eexists. split; reflexivity.
  - destruct data as [|d data]; [cbn in Hl; lia|]. cbn in Hl.
    cbn [ForestFire.forEachSprite tl]. destruct x as [s0|].
    + destruct (update d) as [s' a].
      destruct (IH data a ltac:(lia)) as ([l' o'] & E & El). rewrite E.
      eexists. split; [reflexivity|]. cbn in *. now rewrite El.
    + destruct (IH data o ltac:(lia)) as ([l' o'] & E & El). rewrite E.
      eexists. split; [reflexivity|]. cbn in *. now rewrite El.
Qed.

(** X22: the sprites of a layer of the fire share one material, and each
    pass of the layer's loop writes its own opacity to that material: when
    the loop is over the material has the opacity computed for the last
    sprite, whatever was computed for the others; if no sprite is mounted
    the loop changes nothing. With a datum for every sprite the loop does
    not fail and keeps the number of sprites. *)
Theorem X22_fire_shared_opacity (D : Type) (update : D -> ForestFire.Sprite * R)
    (data : list D) (l : ForestFire.Layer) :
  (Forall (fun s => s = None) (ForestFire.sprites l) ->
   ForestFire.updateLayer update data l = Some l)
  /\ ((List.length (ForestFire.sprites l) <= List.length data)%nat ->
      exists l', ForestFire.updateLayer update data l = Some l'
                 /\ List.length (ForestFire.sprites l') = List.length (ForestFire.sprites l))
  /\ (forall front s dfront d l',
        ForestFire.sprites l = front ++ [Some s] ->
        data = dfront ++ [d] ->
        List.length front = List.length dfront ->
        ForestFire.updateLayer update data l = Some l' ->
        ForestFire.materialOpacity l' = snd (update d)).
Proof.
  unfold ForestFire.updateLayer. split; [|split].
  - intros H. rewrite (forEachSprite_unmounted _ _ data _ H). now destruct l.
  - intros H.
    destruct (forEachSprite_total update _ data (ForestFire.materialOpacity l) H)
      as ([ss o] & E & El).
    rewrite E. eexists. split; [reflexivity|exact El].
  - intros front s dfront d l' Hs Hd Hl H. rewrite Hs, Hd in H.
    destruct (ForestFire.forEachSprite _ _ _ _) as [[ss o]|] eqn:E; [|discriminate].
    apply some_inj in H. subst l'. cbn [ForestFire.materialOpacity].
    exact (forEachSprite_last _ front dfront s d _ (ss, o) Hl E).
Qed.

Lemma X22_fire_shared_opacity_witness :
  let s := ForestFire.mkSprite (Vector3.mk 0 0 0) (Vector3.mk 1 1 1) in
  let l := ForestFire.mkLayer [Some s; Some s] 1 in
  let d1 := ForestFire.mkParticle 1 2 4 10 0.8 40 in
  let d2 := ForestFire.mkParticle 3 1 3.5 20 0.7 35 in
  exists l', ForestFire.updateLayer (ForestFire.updateCore 2) [d1; d2] l = Some l'
             /\ ForestFire.materialOpacity l' = snd (ForestFire.updateCore 2 d2).
Proof.
  intros s l d1 d2.
  destruct (X22_fire_shared_opacity _ (ForestFire.updateCore 2) [d1; d2] l) as (_ & H1 & H2).
  destruct (H1 (le_n 2)) as (l' & E & _).
  exists l'. split; [exact E|].
  exact (H2 [Some s] s [d1] d2 l' eq_refl eq_refl eq_refl E).
Defined.

(** *** Ranges of the particles *)

Lemma pow2_mul (x : R) : x ^ 2 = x * x.
Proof. ring. Qed.

Lemma pow3_mul (x : R) : x ^ 3 = x * (x * x).
Proof. ring. Qed.

Section FireRanges.

Variable rnd : nat -> R.
Hypothesis rnd_range : forall k, 0 <= rnd k < 1.
Variable t : R.
Hypothesis t_nonneg : 0 <= t.

Lemma core_ranges d :
  In d (ForestFire.coreData rnd) ->
  let r := ForestFire.updateCore t d in
  0 <= snd r <= 1
  /\ ForestFire.BASE_HEIGHT <= Vector3.y (ForestFire.position (fst r)) < 155
  /\ 0 <= Vector3.x (ForestFire.scale (fst r)) < 50.
Proof.
  intros Hd. unfold ForestFire.coreData in Hd. apply in_map_iff in Hd as (i & <- & _).
  cbv zeta. unfold ForestFire.updateCore; cbv zeta.
  cbn [fst snd ForestFire.position ForestFire.scale ForestFire.setScalar Vector3.x Vector3.y
       ForestFire.phase ForestFire.lifeTime ForestFire.speed ForestFire.maxScale].
  pose proof (rnd_range (6 * i + 2)%nat) as H2. pose proof (rnd_range (6 * i + 3)%nat) as H3.
  pose proof (rnd_range (6 * i + 4)%nat) as H4. pose proof (rnd_range (6 * i + 5)%nat) as H5.
  pose proof (progressOf_range (t + rnd (6 * i + 3)%nat * 100)
                (0.6 + rnd (6 * i + 4)%nat * 0.4) ltac:(lra) ltac:(lra)) as Hp.
  set (p := ForestFire.progressOf _ _) in *. clearbody p.
  assert (Hs : 0 <= sin (p * PI) <= 1).
  { pose proof PI_RGT_0. split; [|apply SIN_bound].
    apply sin_ge_0; [apply Rmult_le_pos; lra|].
    assert (p * PI <= 1 * PI) by (apply Rmult_le_compat_r; lra). lra. }
  set (a := sin (p * PI)) in *. clearbody a.
  unfold ForestFire.BASE_HEIGHT.
  set (u2 := rnd (6 * i + 2)%nat) in *. set (u5 := rnd (6 * i + 5)%nat) in *.
  clearbody u2 u5.
  repeat split; try lra; nra.
Qed.

Lemma flame_ranges d :
  In d (ForestFire.flameData rnd) ->
  let r := ForestFire.updateFlame t d in
  0 < snd r <= 0.9
  /\ ForestFire.BASE_HEIGHT <= Vector3.y (ForestFire.position (fst r)) < 355
  /\ 0 < Vector3.x (ForestFire.scale (fst r)) < 70.
Proof.
  intros Hd. unfold ForestFire.flameData in Hd. apply in_map_iff in Hd as (i & <- & _).
  cbv zeta. unfold ForestFire.updateFlame; cbv zeta.
  cbn [fst snd ForestFire.position ForestFire.scale ForestFire.setScalar Vector3.x Vector3.y
       ForestFire.flamePhase ForestFire.flameLifeTime ForestFire.flameSpeed
       ForestFire.flameMaxScale].
  pose proof (rnd_range (6 * i + 2)%nat) as H2. pose proof (rnd_range (6 * i + 3)%nat) as H3.
  pose proof (rnd_range (6 * i + 4)%nat) as H4. pose proof (rnd_range (6 * i + 5)%nat) as H5.
  pose proof (progressOf_range (t + rnd (6 * i + 3)%nat * 100)
                (1.2 + rnd (6 * i + 4)%nat * 1.2) ltac:(lra) ltac:(lra)) as Hp.
  set (p := ForestFire.progressOf _ _) in *. clearbody p.
  rewrite pow2_mul, pow3_mul.
  assert (Hpp : 0 <= p * p <= p) by (split; nra).
  assert (Hc : 0 <= p * (p * p) < 1).
  { split; [apply Rmult_le_pos; lra|].
    apply Rle_lt_trans with (1 * (p * p)); [apply Rmult_le_compat_r; lra|lra]. }
  assert (Hq : 0.36 < 1 - (p - 0.2) * (p - 0.2) <= 1).
  { pose proof (Rle_0_sqr (p - 0.2)) as Hsq. unfold Rsqr in Hsq. split; lra. }
  set (q := 1 - (p - 0.2) * (p - 0.2)) in *. set (c := p * (p * p)) in *.
  unfold ForestFire.BASE_HEIGHT.
  set (u2 := rnd (6 * i + 2)%nat) in *. set (u5 := rnd (6 * i + 5)%nat) in *.
  clearbody u2 u5 q c.
  assert (Ha : Rmax 0 (1 - c) = 1 - c) by (apply Rmax_right; lra). rewrite Ha.
  assert (Hh : 0.5 < 1 - p * 0.5 <= 1) by lra.
  set (h := 1 - p * 0.5) in *. clearbody h.
  assert (Hm : 45 <= 45 + u5 * 25 < 70) by lra.
  set (m := 45 + u5 * 25) in *. clearbody m.
  assert (0 < m * q) by nra. assert (m * q < 70) by nra.
  repeat split; try lra; nra.
Qed.

Lemma ember_ranges d :
  In d (ForestFire.emberData rnd) ->
  let r := ForestFire.updateEmber t d in
  0 <= snd r <= 1
  /\ ForestFire.BASE_HEIGHT <= Vector3.y (ForestFire.position (fst r)) < 895
  /\ 0 < Vector3.x (ForestFire.scale (fst r)) < 2.5.
Proof.
  intros Hd. unfold ForestFire.emberData in Hd. apply in_map_iff in Hd as (i & <- & _).
  cbv zeta. unfold ForestFire.updateEmber; cbv zeta.
  cbn [fst snd ForestFire.position ForestFire.scale ForestFire.setScalar Vector3.x Vector3.y
       ForestFire.phase ForestFire.lifeTime ForestFire.speed ForestFire.maxScale].
  pose proof (rnd_range (6 * i + 2)%nat) as H2. pose proof (rnd_range (6 * i + 3)%nat) as H3.
  pose proof (rnd_range (6 * i + 4)%nat) as H4. pose proof (rnd_range (6 * i + 5)%nat) as H5.
  pose proof (progressOf_range (t + rnd (6 * i + 3)%nat * 100)
                (1.5 + rnd (6 * i + 4)%nat * 1.5) ltac:(lra) ltac:(lra)) as Hp.
  set (p := ForestFire.progressOf _ _) in *. clearbody p.
  pose proof (SIN_bound ((t + rnd (6 * i + 3)%nat * 100) * 40)) as Hs.
  set (a := sin _) in *. clearbody a.
  unfold ForestFire.BASE_HEIGHT.
  set (u2 := rnd (6 * i + 2)%nat) in *. set (u5 := rnd (6 * i + 5)%nat) in *.
  clearbody u2 u5.
  repeat split; try lra; nra.
Qed.

Lemma smoke_ranges d :
  In d (ForestFire.smokeData rnd) ->
  let r := ForestFire.updateSmoke t d in
  0 < snd r <= 0.5
  /\ ForestFire.BASE_HEIGHT + 30 <= Vector3.y (ForestFire.position (fst r)) < 285
  /\ 40 <= Vector3.x (ForestFire.scale (fst r)) < 260.
Proof.
  intros Hd. unfold ForestFire.smokeData in Hd. apply in_map_iff in Hd as (i & <- & _).
  cbv zeta. unfold ForestFire.updateSmoke; cbv zeta.
  cbn [fst snd ForestFire.position ForestFire.scale ForestFire.setScalar Vector3.x Vector3.y
       ForestFire.phase ForestFire.lifeTime ForestFire.speed ForestFire.maxScale].
  pose proof (rnd_range (6 * i + 2)%nat) as H2. pose proof (rnd_range (6 * i + 3)%nat) as H3.
  pose proof (rnd_range (6 * i + 4)%nat) as H4. pose proof (rnd_range (6 * i + 5)%nat) as H5.
  pose proof (progressOf_range (t + rnd (6 * i + 3)%nat * 100)
                (5.0 + rnd (6 * i + 4)%nat * 3.0) ltac:(lra) ltac:(lra)) as Hp.
  set (p := ForestFire.progressOf _ _) in *. clearbody p.
  unfold ForestFire.BASE_HEIGHT.
  set (u2 := rnd (6 * i + 2)%nat) in *. set (u5 := rnd (6 * i + 5)%nat) in *.
  clearbody u2 u5.
  repeat split; try lra; nra.
Qed.

End FireRanges.

(** X23: the particles of the fire stay in range. For particle data
    generated from random numbers in [0, 1) and a clock that is not
    negative, the life-cycle progress of every particle is in [0, 1), and
    so: a core sprite gets an opacity in [0, 1], a height in [55, 155) and a
    scale in [0, 50); a flame an opacity in (0, 0.9], a height in [55, 355)
    and a scale in (0, 70); an ember an opacity in [0, 1], a height in
    [55, 895) and a scale in (0, 2.5); a smoke puff an opacity in (0, 0.5],
    a height in [85, 285) and a scale in [40, 260). No sprite is ever below
    the base of the fire. *)
Theorem X23_fire_particles (rnd : nat -> R) (t : R) :
  (forall k, 0 <= rnd k < 1) ->
  0 <= t ->
  (forall d, In d (ForestFire.coreData rnd) ->
     let r := ForestFire.updateCore t d in
     0 <= snd r <= 1
     /\ ForestFire.BASE_HEIGHT <= Vector3.y (ForestFire.position (fst r)) < 155
     /\ 0 <= Vector3.x (ForestFire.scale (fst r)) < 50)
  /\ (forall d, In d (ForestFire.flameData rnd) ->
     let r := ForestFire.updateFlame t d in
     0 < snd r <= 0.9
     /\ ForestFire.BASE_HEIGHT <= Vector3.y (ForestFire.position (fst r)) < 355
     /\ 0 < Vector3.x (ForestFire.scale (fst r)) < 70)
  /\ (forall d, In d (ForestFire.emberData rnd) ->
     let r := ForestFire.updateEmber t d in
     0 <= snd r <= 1
     /\ ForestFire.BASE_HEIGHT <= Vector3.y (ForestFire.position (fst r)) < 895
     /\ 0 < Vector3.x (ForestFire.scale (fst r)) < 2.5)
  /\ (forall d, In d (ForestFire.smokeData rnd) ->
     let r := ForestFire.updateSmoke t d in
     0 < snd r <= 0.5
     /\ ForestFire.BASE_HEIGHT + 30 <= Vector3.y (ForestFire.position (fst r)) < 285
     /\ 40 <= Vector3.x (ForestFire.scale (fst r)) < 260).
Proof.
  intros Hr Ht. split; [|split; [|split]].
  - exact (core_ranges rnd Hr t Ht).
  - exact (flame_ranges rnd Hr t Ht).
  - exact (ember_ranges rnd Hr t Ht).
  - exact (smoke_ranges rnd Hr t Ht).
Qed.

Lemma X23_fire_particles_witness :
  let rnd := fun _ : nat => 0.5 in
  let d := ForestFire.mkParticle ((0.5 - 0.5) * 50) ((0.5 - 0.5) * 50) (1.0 + 0.5 * 1.0)
                                 (0.5 * 100) (5.0 + 0.5 * 3.0) (80 + 0.5 * 50) in
  0 < snd (ForestFire.updateSmoke 3 d) <= 0.5.
Proof.
  intros rnd d.
  assert (Hr : forall k : nat, 0 <= rnd k < 1) by (intros k; unfold rnd; lra).
  assert (Ht : 0 <= 3) by lra.
  assert (Hd : In d (ForestFire.smokeData rnd)) by (left; reflexivity).
  destruct (X23_fire_particles rnd 3 Hr Ht) as (_ & _ & _ & H).
  exact (proj1 (H d Hd)).
Defined.

(** X24: the fire's light never goes dark: with a random number in
    [0, 1) the intensity the frame sets is at least 120 and below 200, and
    the hue stays between 0.03 and 0.13, at full saturation and half
    lightness, whatever the clock shows and whatever the light was before.
    A frame that does not fail gives a mounted light these values and
    leaves an unmounted one unmounted. *)
Theorem X24_fire_light (t rnd : R) (l : ForestFire.Light) :
  0 <= rnd < 1 ->
  let l' := ForestFire.updateLight t rnd l in
  120 <= ForestFire.intensity l' < 200
  /\ 0.03 <= ForestFire.hue l' <= 0.13
  /\ ForestFire.saturation l' = 1.0 /\ ForestFire.lightness l' = 0.5
  /\ forall cd fd ed sd f f',
       ForestFire.useFrame t rnd cd fd ed sd f = Some f' ->
       ForestFire.lightRef f'
       = option_map (ForestFire.updateLight t rnd) (ForestFire.lightRef f).
Proof.
  intros Hr. cbv zeta. unfold ForestFire.updateLight at 1 2 3 4; cbv zeta.
  cbn [ForestFire.intensity ForestFire.hue ForestFire.saturation ForestFire.lightness].
  pose proof (SIN_bound (t * 20)). pose proof (SIN_bound (t * 45)).
  pose proof (SIN_bound (t * 3)).
  repeat split; try lra.
  intros cd fd ed sd f f' Hf. unfold ForestFire.useFrame in Hf.
  destruct (ForestFire.updateLayer _ cd _); [|discriminate].
  destruct (ForestFire.updateLayer _ fd _); [|discriminate].
  destruct (ForestFire.updateLayer _ ed _); [|discriminate].
  destruct (ForestFire.updateLayer _ sd _); [|discriminate].
  apply some_inj in Hf. now subst.
Qed.

Lemma X24_fire_light_witness :
  120 <= ForestFire.intensity (ForestFire.updateLight 7 0.5 (ForestFire.mkLight 0 0 0 0)) < 200.
Proof.
  assert (Hr : 0 <= 0.5 < 1) by lra.
  exact (proj1 (X24_fire_light 7 0.5 (ForestFire.mkLight 0 0 0 0) Hr)).
Defined.

(** ** Camera rig *)

Lemma easeOf_range (time : R) : 3 <= time < 8.5 -> 0 <= CameraRig.easeOf time < 1.
Proof.
  intros H. unfold CameraRig.easeOf; cbv zeta.
  assert (Hp : 0 <= (time - 3.0) / 5.5 < 1).
  { split.
    - apply Rmult_le_pos; lra.
    - apply Rmult_lt_reg_r with 5.5; [lra|]. unfold Rdiv. rewrite Rmult_assoc, Rinv_l; lra. }
  set (p := (time - 3.0) / 5.5) in *. clearbody p.
  assert (0 <= p * p <= p) by (split; nra).
  split.
  - apply Rmult_le_pos; [nra|lra].
  - assert (E : 1 - p * p * (3 - 2 * p) = (1 - p) * (1 - p) * (1 + 2 * p)) by ring.
    assert (0 < (1 - p) * (1 - p) * (1 + 2 * p)).
    { apply Rmult_lt_0_compat; [apply Rmult_lt_0_compat|]; lra. }
    lra.
Qed.

Lemma easeOf_start : CameraRig.easeOf 3 = 0.
Proof.
  unfold CameraRig.easeOf; cbv zeta.
  assert (E : (3 - 3.0) / 5.5 = 0) by lra. rewrite E. ring.
Qed.

Lemma lerp_between (a b e : R) :
  0 <= e <= 1 -> Rmin a b <= a + (b - a) * e <= Rmax a b.
Proof.
  intros He. unfold Rmin, Rmax. destruct (Rle_dec a b); split; nra.
Qed.

(** X25: the path the camera is steered along in free mode. For the
    first 3 seconds the desired position is the high view. From 3 to 8.5
    seconds it is the point of the segment from the high view to the low
    view at the smoothstep fraction of the elapsed part, which starts at 0
    (so the swoop starts at the high view without a jump) and stays below
    1; every coordinate is between those of the two views. From 8.5
    seconds on, in auto flight, it circles the low view: 10 units away
    horizontally and within 3 units vertically, looking at the end target.
    Without auto flight nothing is desired and the camera is left to the
    controls. *)
Theorem X25_camera_path (time : R) (isAutoFlying : bool) :
  (time < 3 -> CameraRig.desired time isAutoFlying
               = Some (CameraRig.START_POS, Vector3.mk 0 0 0))
  /\ CameraRig.desired 3 isAutoFlying = Some (CameraRig.START_POS, Vector3.mk 0 0 0)
  /\ (3 <= time < 8.5 ->
      exists e p, 0 <= e < 1
        /\ CameraRig.desired time isAutoFlying
           = Some (p, CameraRig.lerpVectors (Vector3.mk 0 0 0) CameraRig.END_LOOK_TARGET e)
        /\ p = CameraRig.lerpVectors CameraRig.START_POS CameraRig.END_POS e
        /\ -308 <= Vector3.x p <= -163
        /\ 35 <= Vector3.y p <= 253
        /\ 42 <= Vector3.z p <= 206)
  /\ (8.5 <= time ->
      CameraRig.desired time false = None
      /\ exists p, CameraRig.desired time true = Some (p, CameraRig.END_LOOK_TARGET)
           /\ (Vector3.x p - -308) * (Vector3.x p - -308)
              + (Vector3.z p - 206) * (Vector3.z p - 206) = 100
           /\ 32 <= Vector3.y p <= 38).
Proof.
  split; [|split; [|split]].
  - intros H. unfold CameraRig.desired.
    assert (E : ltb time 3.0 = true) by (apply ltb_true; lra). now rewrite E.
  - unfold CameraRig.desired.
    assert (E1 : ltb 3 3.0 = false) by (apply ltb_false; lra).
    assert (E2 : ltb 3 8.5 = true) by (apply ltb_true; lra).
    rewrite E1, E2. cbv zeta. rewrite easeOf_start.
    unfold CameraRig.lerpVectors, CameraRig.START_POS, CameraRig.END_POS,
      CameraRig.END_LOOK_TARGET; cbn [Vector3.x Vector3.y Vector3.z].
    do 2 f_equal; f_equal; lra.
  - intros H. pose proof (easeOf_range time H) as He.
    exists (CameraRig.easeOf time),
      (CameraRig.lerpVectors CameraRig.START_POS CameraRig.END_POS (CameraRig.easeOf time)).
    split; [exact He|]. split.
    + unfold CameraRig.desired.
      assert (E1 : ltb time 3.0 = false) by (apply ltb_false; lra).
      assert (E2 : ltb time 8.5 = true) by (apply ltb_true; lra).
      now rewrite E1, E2.
    + split; [reflexivity|].
      unfold CameraRig.lerpVectors, CameraRig.START_POS, CameraRig.END_POS;
        cbn [Vector3.x Vector3.y Vector3.z].
      set (e := CameraRig.easeOf time) in *. clearbody e. repeat split; lra.
  - intros H.
    assert (E1 : ltb time 3.0 = false) by (apply ltb_false; lra).
    assert (E2 : ltb time 8.5 = false) by (apply ltb_false; lra).
    unfold CameraRig.desired. rewrite E1, E2. split; [reflexivity|].
    cbv zeta. eexists. split; [reflexivity|].
    unfold CameraRig.END_POS; cbn [Vector3.x Vector3.y Vector3.z].
    pose proof (sin2_cos2 ((time - 8.5) * 0.2)) as Hs. unfold Rsqr in Hs.
    pose proof (SIN_bound ((time - 8.5) * 0.2 * 0.5)) as Hb.
    set (s := sin ((time - 8.5) * 0.2)) in *. set (c := cos ((time - 8.5) * 0.2)) in *.
    clearbody s c. repeat split; lra.
Qed.

Lemma X25_camera_path_witness :
  CameraRig.desired 1 true = Some (CameraRig.START_POS, Vector3.mk 0 0 0).
Proof.
  apply (X25_camera_path 1 true). lra.
Defined.

(** *** Smoothing *)

Lemma lerpTo_gap (p v : Vector3.t) (alpha : R) :
  Vector3.sub v (CameraRig.lerpTo p v alpha)
  = Vector3.multiplyScalar (Vector3.sub v p) (1 - alpha).
Proof.
  unfold CameraRig.lerpTo, Vector3.sub, Vector3.multiplyScalar;
    cbn [Vector3.x Vector3.y Vector3.z]. f_equal; ring.
Qed.

Lemma lerpTo_distance (p v : Vector3.t) (alpha : R) :
  0 <= alpha <= 1 ->
  Vector3.distanceTo (CameraRig.lerpTo p v alpha) v = (1 - alpha) * Vector3.distanceTo p v.
Proof.
  intros Ha. unfold Vector3.distanceTo, Vector3.distanceToSquared, CameraRig.lerpTo;
    cbv zeta; cbn [Vector3.x Vector3.y Vector3.z].
  set (dx := Vector3.x p - Vector3.x v). set (dy := Vector3.y p - Vector3.y v).
  set (dz := Vector3.z p - Vector3.z v).
  replace (Vector3.x p + (Vector3.x v - Vector3.x p) * alpha - Vector3.x v)
    with ((1 - alpha) * dx) by (unfold dx; ring).
  replace (Vector3.y p + (Vector3.y v - Vector3.y p) * alpha - Vector3.y v)
    with ((1 - alpha) * dy) by (unfold dy; ring).
  replace (Vector3.z p + (Vector3.z v - Vector3.z p) * alpha - Vector3.z v)
    with ((1 - alpha) * dz) by (unfold dz; ring).
  clearbody dx dy dz.
  replace ((1 - alpha) * dx * ((1 - alpha) * dx) + (1 - alpha) * dy * ((1 - alpha) * dy)
           + (1 - alpha) * dz * ((1 - alpha) * dz))
    with (((1 - alpha) * (1 - alpha)) * (dx * dx + dy * dy + dz * dz)) by ring.
  rewrite sqrt_mult; [|nra|nra]. rewrite sqrt_square; lra.
Qed.

Section RigFrames.

Variable Quaternion : Type.
Variable applyQuaternion : Vector3.t -> Quaternion -> Vector3.t.
Variable Controls : Type.
Variable setTarget : Controls -> Vector3.t -> Controls.
Variable update : Controls -> CameraRig.Camera -> Controls * CameraRig.Camera.

(** A frame of the free mode that steers: the camera is eased, and with
    auto flight and the controls mounted it is then handed to the
    controls. *)
Lemma rig_free elapsed auto (r : CameraRig.Rig Controls) camera bird dp dl :
  CameraRig.cameraRef r = Some camera ->
  CameraRig.desired
    (elapsed - match CameraRig.startTimeRef r with None => elapsed | Some s => s end) auto
  = Some (dp, dl) ->
  let eased := CameraRig.mkCamera (CameraRig.lerpTo (CameraRig.position camera) dp 0.05)
                                  (CameraRig.lerpTo (CameraRig.targetRef r) dl 0.05) in
  let r' := CameraRig.useFrame Quaternion applyQuaternion Controls setTarget update elapsed auto CameraRig.FREE bird r in
  CameraRig.targetRef r' = CameraRig.lookedAt eased
  /\ (auto = false \/ CameraRig.controlsRef r = None ->
      CameraRig.cameraRef r' = Some eased
      /\ CameraRig.controlsRef r' = CameraRig.controlsRef r)
  /\ (forall c, auto = true -> CameraRig.controlsRef r = Some c ->
        CameraRig.cameraRef r'
        = Some (snd (update (setTarget c (CameraRig.lookedAt eased)) eased))
        /\ CameraRig.controlsRef r'
           = Some (fst (update (setTarget c (CameraRig.lookedAt eased)) eased))).
Proof.
  intros Hc Hd. cbv zeta. unfold CameraRig.useFrame. rewrite Hc. cbv zeta.
  cbn [CameraRig.lookedAt].
  assert (E : match CameraRig.FREE, bird with
              | CameraRig.FOLLOW, Some b => Some b
              | _, _ => None
              end = @None (CameraRig.Bird Quaternion)) by (destruct bird; reflexivity).
  destruct bird; rewrite Hd;
    (destruct (CameraRig.controlsRef r) as [c|] eqn:Ec;
     [destruct auto;
      [destruct (update _ _) as [c' cam'] eqn:Eu|]|]);
    cbn [CameraRig.targetRef CameraRig.cameraRef CameraRig.controlsRef];
    (split; [reflexivity|]);
    (split; [intros [H|H]; try discriminate; split; reflexivity|]);
    intros c0 Ha Hc0; try discriminate;
    injection Hc0 as <-; rewrite Eu; split; reflexivity.
Qed.

Lemma rig_manual elapsed (r : CameraRig.Rig Controls) camera bird :
  CameraRig.cameraRef r = Some camera ->
  CameraRig.desired
    (elapsed - match CameraRig.startTimeRef r with None => elapsed | Some s => s end) false
  = None ->
  CameraRig.useFrame Quaternion applyQuaternion Controls setTarget update elapsed false CameraRig.FREE bird r
  = CameraRig.mkRig (CameraRig.cameraRef r) (CameraRig.targetRef r)
      (Some match CameraRig.startTimeRef r with None => elapsed | Some s => s end)
      (CameraRig.controlsRef r).
Proof.
  intros Hc Hd. unfold CameraRig.useFrame. rewrite Hc. cbv zeta.
  destruct bird; rewrite Hd; reflexivity.
Qed.

Lemma rig_start elapsed auto mode bird (r : CameraRig.Rig Controls) camera :
  CameraRig.cameraRef r = Some camera ->
  CameraRig.startTimeRef (CameraRig.useFrame Quaternion applyQuaternion Controls setTarget update elapsed auto mode bird r)
  = Some match CameraRig.startTimeRef r with None => elapsed | Some s => s end.
Proof.
  intros Hc. unfold CameraRig.useFrame. rewrite Hc. cbv zeta.
  destruct mode, bird; try destruct (CameraRig.desired _ _) as [[dp dl]|];
    try reflexivity;
    (destruct (CameraRig.controlsRef r); [destruct auto; [destruct (update _ _)|]|]);
    reflexivity.
Qed.

End RigFrames.

(** X26: how a frame moves the camera. When a frame in free mode steers
    the camera, the camera is moved 5 percent of the way to the desired
    position, so its distance to that position shrinks by the factor 0.95,
    the look target does the same, and the camera is turned to the new look
    target. If auto flight is off or the orbit controls are not mounted,
    that eased camera is what the frame leaves. With auto flight and the
    controls mounted the new look target is copied into the controls and
    their [update()] is called on the eased camera: the frame leaves the
    camera and the controls as that call returns them, so the library has
    the last word on the camera's position. In follow mode with the bird
    mounted the fraction is 10 percent, towards the bird's position plus
    the rotated offset, whatever the rotation is, and the controls are not
    called. After 8.5 seconds without auto flight the frame leaves camera,
    look target and controls as they are. *)
Theorem X26_camera_easing (Quaternion : Type)
    (applyQuaternion : Vector3.t -> Quaternion -> Vector3.t)
    (Controls : Type) (setTarget : Controls -> Vector3.t -> Controls)
    (update : Controls -> CameraRig.Camera -> Controls * CameraRig.Camera)
    (elapsed : R) (r : CameraRig.Rig Controls) (camera : CameraRig.Camera) :
  CameraRig.cameraRef r = Some camera ->
  let start := match CameraRig.startTimeRef r with None => elapsed | Some s => s end in
  (forall auto bird dp dl,
      CameraRig.desired (elapsed - start) auto = Some (dp, dl) ->
      let eased := CameraRig.mkCamera (CameraRig.lerpTo (CameraRig.position camera) dp 0.05)
                                      (CameraRig.lerpTo (CameraRig.targetRef r) dl 0.05) in
      let r' := CameraRig.useFrame Quaternion applyQuaternion Controls setTarget update
                  elapsed auto CameraRig.FREE bird r in
      Vector3.distanceTo (CameraRig.position eased) dp
      = 0.95 * Vector3.distanceTo (CameraRig.position camera) dp
      /\ Vector3.distanceTo (CameraRig.lookedAt eased) dl
         = 0.95 * Vector3.distanceTo (CameraRig.targetRef r) dl
      /\ CameraRig.targetRef r' = CameraRig.lookedAt eased
      /\ (auto = false \/ CameraRig.controlsRef r = None ->
          CameraRig.cameraRef r' = Some eased
          /\ CameraRig.controlsRef r' = CameraRig.controlsRef r)
      /\ (forall c, auto = true -> CameraRig.controlsRef r = Some c ->
            CameraRig.cameraRef r'
            = Some (snd (update (setTarget c (CameraRig.lookedAt eased)) eased))
            /\ CameraRig.controlsRef r'
               = Some (fst (update (setTarget c (CameraRig.lookedAt eased)) eased))))
  /\ (forall auto bird,
        let r' := CameraRig.useFrame Quaternion applyQuaternion Controls setTarget update
                    elapsed auto CameraRig.FOLLOW (Some bird) r in
        CameraRig.controlsRef r' = CameraRig.controlsRef r
        /\ exists camera',
          CameraRig.cameraRef r' = Some camera'
          /\ Vector3.distanceTo (CameraRig.position camera')
               (Vector3.add (CameraRig.birdPosition Quaternion bird)
                  (applyQuaternion (Vector3.mk 0 10 (-25)) (CameraRig.quaternion Quaternion bird)))
             = 0.9 * Vector3.distanceTo (CameraRig.position camera)
                       (Vector3.add (CameraRig.birdPosition Quaternion bird)
                          (applyQuaternion (Vector3.mk 0 10 (-25))
                             (CameraRig.quaternion Quaternion bird))))
  /\ (forall bird,
        8.5 <= elapsed - start ->
        CameraRig.useFrame Quaternion applyQuaternion Controls setTarget update
          elapsed false CameraRig.FREE bird r
        = CameraRig.mkRig (CameraRig.cameraRef r) (CameraRig.targetRef r) (Some start)
            (CameraRig.controlsRef r)).
Proof.
  intros Hc start. split; [|split].
  - intros auto bird dp dl Hd. cbv zeta.
    pose proof (rig_free Quaternion applyQuaternion Controls setTarget update
                  elapsed auto r camera bird dp dl Hc Hd) as H. cbv zeta in H.
    cbn [CameraRig.position CameraRig.lookedAt] in H |- *.
    rewrite !lerpTo_distance by lra. split; [lra|]. split; [lra|]. exact H.
  - intros auto bird. cbv zeta. unfold CameraRig.useFrame. rewrite Hc. cbv zeta.
    cbn [CameraRig.controlsRef CameraRig.cameraRef]. split; [reflexivity|].
    eexists. split; [reflexivity|]. cbn [CameraRig.position].
    rewrite lerpTo_distance by lra. lra.
  - intros bird Ht. apply rig_manual with (camera := camera); [exact Hc|].
    fold start. unfold CameraRig.desired.
    assert (E1 : ltb (elapsed - start) 3.0 = false) by (apply ltb_false; lra).
    assert (E2 : ltb (elapsed - start) 8.5 = false) by (apply ltb_false; lra).
    now rewrite E1, E2.
Qed.

Lemma X26_camera_easing_witness :
  let camera := CameraRig.mkCamera (Vector3.mk 0 0 0) (Vector3.mk 0 0 0) in
  let eased := CameraRig.mkCamera (CameraRig.lerpTo (Vector3.mk 0 0 0) CameraRig.START_POS 0.05)
                                  (CameraRig.lerpTo (Vector3.mk 1 1 1) (Vector3.mk 0 0 0) 0.05) in
  (* controls that put the camera 100 above where they find it *)
  let update := fun (c : Vector3.t) (cam : CameraRig.Camera) =>
                  (c, CameraRig.mkCamera
                        (Vector3.add (CameraRig.position cam) (Vector3.mk 0 100 0))
                        (CameraRig.lookedAt cam)) in
  let frame := CameraRig.useFrame unit (fun v _ => v) Vector3.t (fun _ t => t) update
                 1 true CameraRig.FREE None in
  CameraRig.cameraRef (frame (CameraRig.mkRig (Some camera) (Vector3.mk 1 1 1) (Some 0) None))
  = Some eased
  /\ CameraRig.cameraRef
       (frame (CameraRig.mkRig (Some camera) (Vector3.mk 1 1 1) (Some 0)
                               (Some (Vector3.mk 5 5 5))))
     = Some (CameraRig.mkCamera
               (Vector3.add (CameraRig.position eased) (Vector3.mk 0 100 0))
               (CameraRig.lookedAt eased))
  /\ CameraRig.controlsRef
       (frame (CameraRig.mkRig (Some camera) (Vector3.mk 1 1 1) (Some 0)
                               (Some (Vector3.mk 5 5 5))))
     = Some (CameraRig.lookedAt eased).
Proof.
  intros camera eased update frame.
  assert (Hd : CameraRig.desired (1 - 0) true
               = Some (CameraRig.START_POS, Vector3.mk 0 0 0)).
  { unfold CameraRig.desired.
    assert (E : ltb (1 - 0) 3.0 = true) by (apply ltb_true; lra). now rewrite E. }
  split.
  - destruct (X26_camera_easing unit (fun v _ => v) Vector3.t (fun _ t => t) update 1
                (CameraRig.mkRig (Some camera) (Vector3.mk 1 1 1) (Some 0) None)
                camera eq_refl) as (H & _ & _).
    destruct (H true None _ _ Hd) as (_ & _ & _ & H1 & _).
    exact (proj1 (H1 (or_intror eq_refl))).
  - destruct (X26_camera_easing unit (fun v _ => v) Vector3.t (fun _ t => t) update 1
                (CameraRig.mkRig (Some camera) (Vector3.mk 1 1 1) (Some 0)
                                 (Some (Vector3.mk 5 5 5)))
                camera eq_refl) as (H & _ & _).
    destruct (H true None _ _ Hd) as (_ & _ & _ & _ & H2).
    exact (H2 (Vector3.mk 5 5 5) eq_refl eq_refl).
Defined.

(** X27: the rig's clock. The first frame with the camera mounted
    records the clock as the start time and no later frame changes it, so
    the time the rig works with is the clock less the clock of that first
    frame: 0 on the first frame, which therefore steers to the high view
    (and, with auto flight and the controls mounted, hands the eased
    camera to the controls). A frame without the camera changes nothing. *)
Theorem X27_camera_clock (Quaternion : Type)
    (applyQuaternion : Vector3.t -> Quaternion -> Vector3.t)
    (Controls : Type) (setTarget : Controls -> Vector3.t -> Controls)
    (update : Controls -> CameraRig.Camera -> Controls * CameraRig.Camera)
    (elapsed : R) (auto : bool) (mode : CameraRig.ViewMode)
    (bird : option (CameraRig.Bird Quaternion)) (r : CameraRig.Rig Controls) :
  let r' := CameraRig.useFrame Quaternion applyQuaternion Controls setTarget update
              elapsed auto mode bird r in
  (CameraRig.cameraRef r = None -> r' = r)
  /\ (forall camera s,
        CameraRig.cameraRef r = Some camera -> CameraRig.startTimeRef r = Some s ->
        CameraRig.startTimeRef r' = Some s)
  /\ (forall camera,
        CameraRig.cameraRef r = Some camera -> CameraRig.startTimeRef r = None ->
        CameraRig.startTimeRef r' = Some elapsed
        /\ (mode = CameraRig.FREE ->
            let eased :=
              CameraRig.mkCamera
                (CameraRig.lerpTo (CameraRig.position camera) CameraRig.START_POS 0.05)
                (CameraRig.lerpTo (CameraRig.targetRef r) (Vector3.mk 0 0 0) 0.05) in
            CameraRig.targetRef r' = CameraRig.lookedAt eased
            /\ CameraRig.cameraRef r'
               = Some match CameraRig.controlsRef r with
                      | Some c =>
                          if auto
                          then snd (update (setTarget c (CameraRig.lookedAt eased)) eased)
                          else eased
                      | None => eased
                      end)).
Proof.
  cbv zeta. split; [|split].
  - intros Hc. unfold CameraRig.useFrame. now rewrite Hc.
  - intros camera s Hc Hs.
    rewrite (rig_start Quaternion applyQuaternion Controls setTarget update
               elapsed auto mode bird r camera Hc).
    now rewrite Hs.
  - intros camera Hc Hs. split.
    + rewrite (rig_start Quaternion applyQuaternion Controls setTarget update
                 elapsed auto mode bird r camera Hc).
      now rewrite Hs.
    + intros ->.
      assert (Hd : CameraRig.desired
                     (elapsed - match CameraRig.startTimeRef r with
                                | None => elapsed | Some s => s end) auto
                   = Some (CameraRig.START_POS, Vector3.mk 0 0 0)).
      { rewrite Hs. unfold CameraRig.desired.
        assert (E : ltb (elapsed - elapsed) 3.0 = true) by (apply ltb_true; lra).
        now rewrite E. }
      pose proof (rig_free Quaternion applyQuaternion Controls setTarget update
                    elapsed auto r camera bird _ _ Hc Hd) as H.
      cbv zeta in H. destruct H as (Ht & Hn & Hy). split; [exact Ht|].
      destruct (CameraRig.controlsRef r) as [c|] eqn:Ec.
      * destruct auto.
        -- exact (proj1 (Hy c eq_refl eq_refl)).
        -- exact (proj1 (Hn (or_introl eq_refl))).
      * exact (proj1 (Hn (or_intror eq_refl))).
Qed.

Lemma X27_camera_clock_witness :
  let r := CameraRig.mkRig (Some (CameraRig.mkCamera (Vector3.mk 0 0 0) (Vector3.mk 0 0 0)))
                           (Vector3.mk 1 1 1) None (@None unit) in
  let r' := CameraRig.useFrame unit (fun v _ => v) unit (fun c _ => c) (fun c cam => (c, cam))
              9 true CameraRig.FREE None r in
  CameraRig.startTimeRef r' = Some 9
  /\ CameraRig.cameraRef r'
     = Some (CameraRig.mkCamera
               (CameraRig.lerpTo (Vector3.mk 0 0 0) CameraRig.START_POS 0.05)
               (CameraRig.lerpTo (Vector3.mk 1 1 1) (Vector3.mk 0 0 0) 0.05)).
Proof.
  intros r r'.
  destruct (X27_camera_clock unit (fun v _ => v) unit (fun c _ => c) (fun c cam => (c, cam))
              9 true CameraRig.FREE None r) as (_ & _ & H).
  destruct (H _ eq_refl eq_refl) as [H1 H2].
  split; [exact H1|]. exact (proj2 (H2 eq_refl)).
Defined.

(** ** Camera mode button *)

Lemma toggle_twice (s : App.State) :
  App.toggleCameraMode (App.toggleCameraMode s)
  = App.mkState (App.cameraMode s) (App.resetKey s + 1).
Proof. destruct s as [[|] k]; reflexivity. Qed.

(** X28: the camera button alternates between the two modes; only the
    switch back to the free view increments the reset key. So two presses
    restore the mode and add exactly 1 to the key, and 2n presses add n;
    from the initial state an odd number of presses, 2n + 1, leaves the
    follow view with key n. *)
Theorem X28_camera_toggle (n : nat) (s : App.State) :
  Nat.iter (2 * n) App.toggleCameraMode s
  = App.mkState (App.cameraMode s) (App.resetKey s + INR n)
  /\ Nat.iter (2 * n + 1) App.toggleCameraMode App.initialState
     = App.mkState CameraRig.FOLLOW (INR n).
Proof.
  assert (H : forall s, Nat.iter (2 * n) App.toggleCameraMode s
                        = App.mkState (App.cameraMode s) (App.resetKey s + INR n)).
  { clear s. induction n as [|n IH]; intros s.
    - cbn. destruct s as [m k]. cbn. f_equal. lra.
    - replace (2 * S n)%nat with (S (S (2 * n))) by lia.
      rewrite !Nat.iter_succ, IH, toggle_twice. cbn [App.cameraMode App.resetKey].
      f_equal. rewrite S_INR. lra. }
  split; [apply H|].
  replace (2 * n + 1)%nat with (S (2 * n)) by lia. rewrite Nat.iter_succ, H.
  cbn. f_equal. lra.
Qed.
